(** * PCR protection profiles: evaluation of [tpm2/pcr_profile.go]

    A shallow embedding of the PCR profile engine of secboot's [tpm2]
    package: the instruction tree built by [AddPCRValue], [ExtendPCR],
    [AddPCRValueFromTPM] and [AddProfileOR], the depth-first iterator, the
    stack of compute contexts of [ComputePCRValues], the digest
    de-duplication of [ComputePCRDigests], and the text of [String].

    Go maps and compute contexts are reference objects that the code mutates
    in place, so they live in explicit stores here and are named by
    locations; slices are only ever rebuilt by [append] from fresh backing
    arrays in this file, so they are plain lists; digests are never written
    in place, so they are plain byte lists.

    The file has the definitions first: the program, the paths of a profile
    as the specification states them, and what the proofs need; then some
    test profiles; then the proofs, the main one being
    [ComputePCRValues_paths]: [ComputePCRValues] returns the paths of the
    profile, or the error of the first read of the TPM that fails. *)

From Stdlib Require Import ZArith.
From Stdlib.Strings Require Import Byte.
From stdpp Require Import gmap list sorting.
From Stdlib Require String DecimalString.

Set Warnings "-register-all".
Open Scope Z_scope.
Open Scope nat_scope.

(** ** Basic types *)

(** [tpm2.HashAlgorithmId] is a [uint16]; PCR indices are Go [int]s. *)
Abbreviation HashAlgorithmId := Z.
Abbreviation Digest := (list byte).

#[global] Instance byte_eq_dec : EqDecision byte := Byte.byte_eq_dec.

(** The hash collaborator of go-tpm2: [alg.Size()] and the digest that
    [alg.NewHash()] yields after writing the given bytes. *)
Class HashProvider := {
  alg_size : HashAlgorithmId → nat;
  alg_hash : HashAlgorithmId → list byte → Digest;
}.

(** A small concrete provider, used to run the definitions on test
    profiles: two-byte digests made of the xor of the input bytes and the
    input length. *)
Definition xor_byte (a b : byte) : byte :=
  default x00 (Byte.of_N (N.lxor (Byte.to_N a) (Byte.to_N b))).

Definition toy_hash (alg : HashAlgorithmId) (data : list byte) : Digest :=
  [foldr xor_byte x00 data;
   default x00 (Byte.of_N (N.of_nat (length data) mod 256))].

Definition toy_provider : HashProvider :=
  {| alg_size := λ _, 2; alg_hash := toy_hash |}.

(** [tpm2.PCRValues], as a value: [map[HashAlgorithmId]map[int]Digest]. *)
Abbreviation PCRValues := (gmap Z (gmap Z Digest)).

(** Reading [v[alg][pcr]]: a missing bank or register reads as the nil
    digest. *)
Definition pcr_lookup (v : PCRValues) (alg : HashAlgorithmId) (pcr : Z)
    : option Digest :=
  v !! alg ≫= λ bank, bank !! pcr.

Definition pcr_read (v : PCRValues) (alg : HashAlgorithmId) (pcr : Z) : Digest :=
  default [] (pcr_lookup v alg pcr).

(** The measurement source. [PCRRead] is go-tpm2's [TPMContext.PCRRead]
    for the one-register selection [{Hash: alg, Select: [pcr]}]: either an
    error or the values read. *)
Abbreviation tpm_error := Z.

Record TPMContext := {
  PCRRead : HashAlgorithmId → Z → tpm_error + PCRValues;
}.

(** Errors returned through the [error] result, and run-time panics. *)
Inductive error :=
  | ErrNoTPMContext (pcr : Z) (alg : HashAlgorithmId)
  | ErrPCRRead (pcr : Z) (alg : HashAlgorithmId) (cause : tpm_error)
  | ErrBranchPCRsDiffer.

Inductive panic :=
  | PanicInvalidDigestLength
  | PanicNoMoreInstructions
  | PanicIndexOutOfRange
  | PanicNilDereference.

Inductive result (A : Type) :=
  | Val (a : A)
  | Fail (e : error)
  | Panic (why : panic)
  | OutOfFuel.
Arguments Val {A} a.
Arguments Fail {A} e.
Arguments Panic {A} why.
Arguments OutOfFuel {A}.

Definition result_bind {A B} (r : result A) (k : A → result B) : result B :=
  match r with
  | Val a => k a
  | Fail e => Fail e
  | Panic w => Panic w
  | OutOfFuel => OutOfFuel
  end.

Definition result_map {A B} (f : A → B) (r : result A) : result B :=
  result_bind r (λ a, Val (f a)).

(** ** Instructions and profiles *)

(** The four instructions a profile can hold. [PCRProtectionProfile] is a
    struct with the single field [instrs]; sub-profiles are referenced by
    pointer and only read by the engine, so a profile is the tree of its
    instructions. The pseudo instruction that marks the end of a branch is
    only ever produced by the iterator (see [iterItem]). *)
Inductive pcrProtectionProfileInstr :=
  | AddPCRValueInstr (alg : HashAlgorithmId) (pcr : Z) (value : Digest)
  | AddPCRValueFromTPMInstr (alg : HashAlgorithmId) (pcr : Z)
  | ExtendPCRInstr (alg : HashAlgorithmId) (pcr : Z) (value : Digest)
  | AddProfileORInstr (profiles : list (list pcrProtectionProfileInstr)).

Abbreviation PCRProtectionProfile := (list pcrProtectionProfileInstr).

Inductive iterItem :=
  | Instr (i : pcrProtectionProfileInstr)
  | EndProfileInstr.

(** ** The stores *)

(** Map objects. An object of type [tpm2.PCRValues] maps each bank to a
    [map[int]tpm2.Digest] object; both kinds are allocated at the end of
    their store, so a location is an index. *)
Abbreviation loc := nat.

Record heap := Heap {
  outer_maps : list (gmap Z loc);
  inner_maps : list (gmap Z Digest);
}.

(** go-tpm2's [PCRSelection] and [PCRSelectionList]. *)
Record PCRSelection := {
  Hash : HashAlgorithmId;
  Select : list Z;
}.

#[global] Instance PCRSelection_eq_dec : EqDecision PCRSelection.
Proof. solve_decision. Defined.

Abbreviation PCRSelectionList := (list PCRSelection).

(** The order of banks in a sorted selection list. *)
Definition selection_le (a b : PCRSelection) : Prop := (Hash a ≤ Hash b)%Z.

#[global] Instance selection_le_dec : RelDecision selection_le.
Proof. intros a b. unfold selection_le. apply _. Defined.

(** [pcrValuesList]: a slice of references to [tpm2.PCRValues] objects. *)
Abbreviation pcrValuesList := (list loc).

(** [pcrProtectionProfileComputeContext]; contexts are referenced by
    pointer, from the stack and from their children. *)
Record pcrProtectionProfileComputeContext := ComputeContext {
  parent : option loc;
  values : pcrValuesList;
}.

#[global] Instance ctx_inhabited : Inhabited pcrProtectionProfileComputeContext :=
  populate (ComputeContext None []).

(** ** The texts of String *)

(** What the calls of [fmt.Fprintf] in [String] write, as bytes, one
    function for each format. The texts that [%v] gives for a
    [tpm2.HashAlgorithmId] and [%x] for a [tpm2.Digest] depend on the
    methods go-tpm2 gives these types: they are arguments, already
    formatted. [%*s] with the empty string writes as many spaces as the
    width says; [%d] writes a Go [int] in decimal. *)
Module Fmt.
Import String.

Definition bytes (s : string) : list byte := list_byte_of_string s.

Definition decimal (z : Z) : list byte :=
  list_byte_of_string (DecimalString.NilZero.string_of_int (Z.to_int z)).

Definition newline : list byte := [x0a].

Definition pad (width : nat) : list byte := replicate width x20.

(** ["%*sBranch %d {\n"] *)
Definition branch_start (width : nat) (index : nat) : list byte :=
  pad width ++ bytes "Branch " ++ decimal (Z.of_nat index) ++ bytes " {" ++ newline.

(** ["%*s AddPCRValue(%v, %d, %x)"] *)
Definition add_pcr_value (width : nat) (alg : list byte) (pcr : Z)
    (value : list byte) : list byte :=
  pad width ++ bytes " AddPCRValue(" ++ alg ++ bytes ", " ++ decimal pcr
  ++ bytes ", " ++ value ++ bytes ")".

(** ["%*s AddPCRValueFromTPM(%v, %d)"] *)
Definition add_pcr_value_from_tpm (width : nat) (alg : list byte) (pcr : Z)
    : list byte :=
  pad width ++ bytes " AddPCRValueFromTPM(" ++ alg ++ bytes ", " ++ decimal pcr
  ++ bytes ")".

(** ["%*s ExtendPCR(%v, %d, %x)"] *)
Definition extend_pcr (width : nat) (alg : list byte) (pcr : Z)
    (value : list byte) : list byte :=
  pad width ++ bytes " ExtendPCR(" ++ alg ++ bytes ", " ++ decimal pcr
  ++ bytes ", " ++ value ++ bytes ")".

(** ["%*s AddProfileOR("] *)
Definition add_profile_or (width : nat) : list byte :=
  pad width ++ bytes " AddProfileOR(".

(** ["%*s}"] *)
Definition branch_end (width : nat) : list byte := pad width ++ bytes "}".

(** ["\n%*s )"] *)
Definition branches_end (width : nat) : list byte :=
  newline ++ pad width ++ bytes " )".

(** Test formats: the two lower-case hexadecimal digits of every byte, as
    [%x] writes a byte slice. *)
Definition hex_digit (n : N) : byte :=
  nth (N.to_nat n)
    [x30; x31; x32; x33; x34; x35; x36; x37; x38; x39;
     x61; x62; x63; x64; x65; x66] x30.

Definition hex (d : list byte) : list byte :=
  b ← d; [hex_digit (Byte.to_N b / 16); hex_digit (Byte.to_N b mod 16)].

End Fmt.

(** The texts of [%v] for an algorithm and of [%x] for a digest. *)
Class Formats := {
  fmt_alg : HashAlgorithmId → list byte;
  fmt_digest : Digest → list byte;
}.

(** [pcrProtectionProfileStringifyBranchContext] *)
Record pcrProtectionProfileStringifyBranchContext := StringifyBranchContext {
  index : nat;
  total : nat;
}.

(** The state of the loop of [String]: the iterator, [contexts],
    [branchStart] and the buffer [b]. *)
Record stringifier := Stringifier {
  s_iter : list (list pcrProtectionProfileInstr);
  s_contexts : list pcrProtectionProfileStringifyBranchContext;
  s_branchStart : bool;
  s_b : list byte;
}.

Section Engine.
Context {HP : HashProvider}.

(** *** Builder methods *)

Definition NewPCRProtectionProfile : PCRProtectionProfile := [].

Definition AddPCRValue (p : PCRProtectionProfile) (alg : HashAlgorithmId)
    (pcr : Z) (value : Digest) : result PCRProtectionProfile :=
  if decide (length value ≠ alg_size alg) then Panic PanicInvalidDigestLength
  else Val (p ++ [AddPCRValueInstr alg pcr value]).

Definition AddPCRValueFromTPM (p : PCRProtectionProfile) (alg : HashAlgorithmId)
    (pcr : Z) : result PCRProtectionProfile :=
  Val (p ++ [AddPCRValueFromTPMInstr alg pcr]).

Definition ExtendPCR (p : PCRProtectionProfile) (alg : HashAlgorithmId)
    (pcr : Z) (value : Digest) : result PCRProtectionProfile :=
  if decide (length value ≠ alg_size alg) then Panic PanicInvalidDigestLength
  else Val (p ++ [ExtendPCRInstr alg pcr value]).

Definition AddProfileOR (p : PCRProtectionProfile)
    (profiles : list PCRProtectionProfile) : result PCRProtectionProfile :=
  Val (p ++ [AddProfileORInstr profiles]).

(** *** The depth-first iterator *)

(** [iter.instrs]: the remaining instructions of every open branch,
    innermost first. *)
Abbreviation pcrProtectionProfileIterator := (list (list pcrProtectionProfileInstr)).

Definition descendInToProfiles (iter : pcrProtectionProfileIterator)
    (profiles : list PCRProtectionProfile) : pcrProtectionProfileIterator :=
  profiles ++ iter.

(** The [for] loop of [next], by recursion on the instructions left in
    [iter.instrs[0]] (here [cur]); [rest] is [iter.instrs[1:]]. *)
Fixpoint next_loop (cur : list pcrProtectionProfileInstr)
    (rest : pcrProtectionProfileIterator)
    : iterItem * pcrProtectionProfileIterator :=
  match cur with
  | [] => (EndProfileInstr, rest)
  | instr :: cur' =>
      match instr with
      | AddProfileORInstr profiles =>
          match profiles with
          | [] => next_loop cur' rest
          | _ :: _ => (Instr instr, descendInToProfiles (cur' :: rest) profiles)
          end
      | _ => (Instr instr, cur' :: rest)
      end
  end.

Definition next (iter : pcrProtectionProfileIterator)
    : result (iterItem * pcrProtectionProfileIterator) :=
  match iter with
  | [] => Panic PanicNoMoreInstructions
  | cur :: rest => Val (next_loop cur rest)
  end.

Definition traverseInstructions (p : PCRProtectionProfile)
    : pcrProtectionProfileIterator :=
  descendInToProfiles [] [p].

(** *** Map objects and value lists *)

(** Reading a [tpm2.PCRValues] object out of the store. *)
Definition view (h : heap) (v : loc) : PCRValues :=
  (λ i, inner_maps h !!! i) <$> (outer_maps h !!! v).

Definition view_list (h : heap) (l : pcrValuesList) : list PCRValues :=
  view h <$> l.

(** The inner map object that [v[alg]] refers to. *)
Definition bank_of (v : loc) (alg : HashAlgorithmId) (h : heap) : loc :=
  (outer_maps h !!! v) !!! alg.

(** [if _, ok := v[alg]; !ok { v[alg] = make(map[int]tpm2.Digest) }] *)
Definition ensure_bank (v : loc) (alg : HashAlgorithmId) (h : heap) : heap :=
  match (outer_maps h !!! v) !! alg with
  | Some _ => h
  | None =>
      {| outer_maps := alter (λ m, <[alg := length (inner_maps h)]> m) v (outer_maps h);
         inner_maps := inner_maps h ++ [∅] |}
  end.

(** [v[alg][pcr] = d] *)
Definition store_pcr (v : loc) (alg : HashAlgorithmId) (pcr : Z) (d : Digest)
    (h : heap) : heap :=
  {| outer_maps := outer_maps h;
     inner_maps := alter (λ m, <[pcr := d]> m) (bank_of v alg h) (inner_maps h) |}.

(** The value read by the expression [v[alg][pcr]]. *)
Definition load_pcr (v : loc) (alg : HashAlgorithmId) (pcr : Z) (h : heap)
    : option Digest :=
  (inner_maps h !!! bank_of v alg h) !! pcr.

(** go-tpm2's [PCRValues.SetValue]: create the bank when it is missing, then
    store the digest. *)
Definition PCRValues_SetValue (v : loc) (alg : HashAlgorithmId) (pcr : Z)
    (digest : Digest) (h : heap) : heap :=
  store_pcr v alg pcr digest (ensure_bank v alg h).

Definition setValue (l : pcrValuesList) (alg : HashAlgorithmId) (pcr : Z)
    (value : Digest) (h : heap) : heap :=
  foldl (λ h v, PCRValues_SetValue v alg pcr value h) h l.

(** The body of the loop of [extendValue], for one element [v]. *)
Definition extendValue_body (alg : HashAlgorithmId) (pcr : Z) (value : Digest)
    (h : heap) (v : loc) : heap :=
  let h1 := ensure_bank v alg h in
  let h2 :=
    match load_pcr v alg pcr h1 with
    | Some _ => h1
    | None => store_pcr v alg pcr (replicate (alg_size alg) x00) h1
    end in
  store_pcr v alg pcr
    (alg_hash alg (default [] (load_pcr v alg pcr h2) ++ value)) h2.

Definition extendValue (l : pcrValuesList) (alg : HashAlgorithmId) (pcr : Z)
    (value : Digest) (h : heap) : heap :=
  foldl (extendValue_body alg pcr value) h l.

(** The keys a [range] loop over a map visits. Go leaves the order
    unspecified; the model visits them in the order of [map_to_list]. *)
Definition map_keys {V} (m : gmap Z V) : list Z := (map_to_list m).*1.

(** The two inner loops of [copy], for the bank [alg] of [v]:
    [ov[alg] = make(map[int]tpm2.Digest)] and then
    [ov[alg][pcr] = v[alg][pcr]] for every [pcr] of [v[alg]]. *)
Definition copy_bank (v ov : loc) (h : heap) (alg : HashAlgorithmId) : heap :=
  let h1 :=
    {| outer_maps := alter (λ m, <[alg := length (inner_maps h)]> m) ov (outer_maps h);
       inner_maps := inner_maps h ++ [∅] |} in
  foldl (λ h' pcr, store_pcr ov alg pcr (default [] (load_pcr v alg pcr h')) h')
        h1 (map_keys (inner_maps h !!! bank_of v alg h)).

(** The body of the outer loop of [copy]: a new [tpm2.PCRValues] object,
    filled bank by bank, appended to [out]. *)
Definition copy_body (acc : pcrValuesList * heap) (v : loc) : pcrValuesList * heap :=
  let '(out, h) := acc in
  let ov := length (outer_maps h) in
  let h1 := {| outer_maps := outer_maps h ++ [∅]; inner_maps := inner_maps h |} in
  (out ++ [ov], foldl (copy_bank v ov) h1 (map_keys (outer_maps h !!! v))).

Definition copy (l : pcrValuesList) (h : heap) : pcrValuesList * heap :=
  foldl copy_body ([], h) l.

(** *** Compute contexts *)

(** [handleBranches] on a context: the loop appends [n] new contexts, each
    with a copy of [c.values]; then [c.values = nil]. *)
Fixpoint handleBranches_loop (c : loc) (n : nat) (out : list loc)
    (cs : list pcrProtectionProfileComputeContext) (h : heap)
    : list loc * list pcrProtectionProfileComputeContext * heap :=
  match n with
  | 0 => (out, cs, h)
  | S n' =>
      let '(vals, h') := copy (values (cs !!! c)) h in
      handleBranches_loop c n' (out ++ [length cs])
        (cs ++ [{| parent := Some c; values := vals |}]) h'
  end.

Definition ctx_handleBranches (c : loc) (n : nat)
    (cs : list pcrProtectionProfileComputeContext) (h : heap)
    : list loc * list pcrProtectionProfileComputeContext * heap :=
  let '(out, cs', h') := handleBranches_loop c n [] cs h in
  (out, alter (λ x, {| parent := parent x; values := [] |}) c cs', h').

(** [c.parent.values = append(c.parent.values, c.values...)]; a nil parent
    is a nil-pointer dereference. *)
Definition ctx_finishBranch (c : loc) (cs : list pcrProtectionProfileComputeContext)
    : result (list pcrProtectionProfileComputeContext) :=
  match parent (cs !!! c) with
  | None => Panic PanicNilDereference
  | Some p =>
      Val (alter (λ x, {| parent := parent x;
                          values := values x ++ values (cs !!! c) |}) p cs)
  end.

Definition isRoot (c : loc) (cs : list pcrProtectionProfileComputeContext) : bool :=
  bool_decide (parent (cs !!! c) = None).

(** *** The stack of compute contexts *)

Abbreviation pcrProtectionProfileComputeContextStack := (list loc).

Definition stack_top (s : pcrProtectionProfileComputeContextStack) : result loc :=
  match s with
  | [] => Panic PanicIndexOutOfRange
  | c :: _ => Val c
  end.

Definition stack_handleBranches (s : pcrProtectionProfileComputeContextStack)
    (n : nat) (cs : list pcrProtectionProfileComputeContext) (h : heap)
    : result (pcrProtectionProfileComputeContextStack
              * list pcrProtectionProfileComputeContext * heap) :=
  result_bind (stack_top s) (λ c,
    let '(newContexts, cs', h') := ctx_handleBranches c n cs h in
    Val (newContexts ++ s, cs', h')).

Definition stack_finishBranch (s : pcrProtectionProfileComputeContextStack)
    (cs : list pcrProtectionProfileComputeContext)
    : result (pcrProtectionProfileComputeContextStack
              * list pcrProtectionProfileComputeContext) :=
  result_bind (stack_top s) (λ c,
    result_bind (ctx_finishBranch c cs) (λ cs', Val (tail s, cs'))).

(** *** ComputePCRValues *)

(** The state of the loop of [ComputePCRValues]: the iterator, the stack
    [contexts], and the stores of context and map objects. *)
Record machine := Machine {
  m_iter : pcrProtectionProfileIterator;
  m_contexts : pcrProtectionProfileComputeContextStack;
  m_ctxs : list pcrProtectionProfileComputeContext;
  m_heap : heap;
}.

(** What [ComputePCRValues] returns on success: the list of map objects,
    together with the store that holds them. *)
Abbreviation computed := (pcrValuesList * heap)%type.

Inductive step_result :=
  | Continue (m : machine)
  | Done (r : result computed).

Definition step_bind {A} (r : result A) (k : A → step_result) : step_result :=
  match r with
  | Val a => k a
  | Fail e => Done (Fail e)
  | Panic w => Done (Panic w)
  | OutOfFuel => Done OutOfFuel
  end.

(** [tpm.PCRRead] behind the nil check of [ComputePCRValues]; the digest
    used is [v[alg][pcr]] of the values read. *)
Definition read_from_tpm (tpm : option TPMContext) (alg : HashAlgorithmId)
    (pcr : Z) : result Digest :=
  match tpm with
  | None => Fail (ErrNoTPMContext pcr alg)
  | Some t =>
      match PCRRead t alg pcr with
      | inl err => Fail (ErrPCRRead pcr alg err)
      | inr v => Val (pcr_read v alg pcr)
      end
  end.

(** One turn of the loop: [iter.next()] and the [switch] on its result. *)
Definition step (tpm : option TPMContext) (m : machine) : step_result :=
  step_bind (next (m_iter m)) (λ '(item, iter'),
    match item with
    | Instr (AddPCRValueInstr alg pcr value) =>
        step_bind (stack_top (m_contexts m)) (λ c,
          Continue (Machine iter' (m_contexts m) (m_ctxs m)
            (setValue (values (m_ctxs m !!! c)) alg pcr value (m_heap m))))
    | Instr (AddPCRValueFromTPMInstr alg pcr) =>
        step_bind (read_from_tpm tpm alg pcr) (λ d,
          step_bind (stack_top (m_contexts m)) (λ c,
            Continue (Machine iter' (m_contexts m) (m_ctxs m)
              (setValue (values (m_ctxs m !!! c)) alg pcr d (m_heap m)))))
    | Instr (ExtendPCRInstr alg pcr value) =>
        step_bind (stack_top (m_contexts m)) (λ c,
          Continue (Machine iter' (m_contexts m) (m_ctxs m)
            (extendValue (values (m_ctxs m !!! c)) alg pcr value (m_heap m))))
    | Instr (AddProfileORInstr profiles) =>
        step_bind
          (stack_handleBranches (m_contexts m) (length profiles) (m_ctxs m) (m_heap m))
          (λ '(s', cs', h'), Continue (Machine iter' s' cs' h'))
    | EndProfileInstr =>
        step_bind (stack_top (m_contexts m)) (λ c,
          if isRoot c (m_ctxs m) then
            Done (Val (values (m_ctxs m !!! c), m_heap m))
          else
            step_bind (stack_finishBranch (m_contexts m) (m_ctxs m))
              (λ '(s', cs'), Continue (Machine iter' s' cs' (m_heap m))))
    end).

(** The loop itself, with a bound on the number of turns. *)
Fixpoint run (fuel : nat) (tpm : option TPMContext) (m : machine)
    : result computed :=
  match fuel with
  | 0 => OutOfFuel
  | S fuel' =>
      match step tpm m with
      | Continue m' => run fuel' tpm m'
      | Done r => r
      end
  end.

(** The number of turns a traversal can take: one per instruction and one
    per end of branch. *)
Fixpoint instr_size (i : pcrProtectionProfileInstr) : nat :=
  match i with
  | AddProfileORInstr profiles =>
      S (list_sum (map (λ p, S (list_sum (map instr_size p))) profiles))
  | _ => 1
  end.

Definition profile_size (p : PCRProtectionProfile) : nat :=
  S (list_sum (map instr_size p)).

(** The state before the first turn:
    [contexts := {{values: pcrValuesList{make(tpm2.PCRValues)}}}] and
    [iter := p.traverseInstructions()]. *)
Definition initial (p : PCRProtectionProfile) : machine :=
  {| m_iter := traverseInstructions p;
     m_contexts := [0];
     m_ctxs := [{| parent := None; values := [0] |}];
     m_heap := {| outer_maps := [∅]; inner_maps := [] |} |}.

Definition ComputePCRValues (tpm : option TPMContext) (p : PCRProtectionProfile)
    : result computed :=
  run (profile_size p) tpm (initial p).

(** The returned [[]tpm2.PCRValues], read out of the store. *)
Definition computed_values (r : result computed) : result (list PCRValues) :=
  result_map (λ '(l, h), view_list h l) r.

(** *** ComputePCRDigests *)

(** go-tpm2's [PCRValues.SelectionList]: one selection per bank, banks in
    ascending order of algorithm, registers in ascending order. *)
Definition SelectionList (v : PCRValues) : PCRSelectionList :=
  merge_sort selection_le
    ((λ '(alg, bank), {| Hash := alg; Select := merge_sort Z.le (map_keys bank) |})
       <$> map_to_list v).

(** go-tpm2's [ComputePCRDigest]: the hash, under [alg], of the selected
    values written one after the other in the order of the selection. *)
Definition ComputePCRDigest (alg : HashAlgorithmId) (pcrs : PCRSelectionList)
    (v : PCRValues) : Digest :=
  alg_hash alg
    (concat (s ← pcrs; (λ pcr, pcr_read v (Hash s) pcr) <$> Select s)).

Definition ComputePCRDigestSimple (alg : HashAlgorithmId) (v : PCRValues)
    : PCRSelectionList * Digest :=
  let pcrs := SelectionList v in
  (pcrs, ComputePCRDigest alg pcrs v).

(** go-tpm2's [PCRSelectionList.Equal], on lists that [SelectionList]
    returned: the same banks, in the same order, with the same registers. *)
Definition PCRSelectionList_Equal (l r : PCRSelectionList) : bool :=
  bool_decide (l = r).

(** The first loop of [ComputePCRDigests], over the values left. *)
Fixpoint branch_digests (alg : HashAlgorithmId) (pcrs : PCRSelectionList)
    (vs : list PCRValues) (pcrDigests : list Digest) : result (list Digest) :=
  match vs with
  | [] => Val pcrDigests
  | v :: vs' =>
      let '(p, digest) := ComputePCRDigestSimple alg v in
      if negb (PCRSelectionList_Equal p pcrs) then Fail ErrBranchPCRsDiffer
      else branch_digests alg pcrs vs' (pcrDigests ++ [digest])
  end.

(** The second loop: [found] is the result of the inner loop with
    [bytes.Equal]. *)
Fixpoint unique_digests (pcrDigests uniquePcrDigests : list Digest) : list Digest :=
  match pcrDigests with
  | [] => uniquePcrDigests
  | d :: ds =>
      let found := existsb (λ f, bool_decide (d = f)) uniquePcrDigests in
      if found then unique_digests ds uniquePcrDigests
      else unique_digests ds (uniquePcrDigests ++ [d])
  end.

Definition ComputePCRDigests (tpm : option TPMContext) (alg : HashAlgorithmId)
    (p : PCRProtectionProfile) : result (PCRSelectionList * list Digest) :=
  result_bind (computed_values (ComputePCRValues tpm p)) (λ vs,
    match vs with
    | [] => Panic PanicIndexOutOfRange
    | v0 :: _ =>
        let pcrs := SelectionList v0 in
        result_bind (branch_digests alg pcrs vs []) (λ pcrDigests,
          Val (pcrs, unique_digests pcrDigests []))
    end).

(** ** The specification, as stated *)

(** Setting and extending one register of one Digest Value Set. *)
Definition set_pcr (alg : HashAlgorithmId) (pcr : Z) (d : Digest)
    (v : PCRValues) : PCRValues :=
  <[alg := <[pcr := d]> (default ∅ (v !! alg))]> v.

Definition extend_pcr (alg : HashAlgorithmId) (pcr : Z) (d : Digest)
    (v : PCRValues) : PCRValues :=
  set_pcr alg pcr
    (alg_hash alg
       (default (replicate (alg_size alg) x00) (pcr_lookup v alg pcr) ++ d)) v.

(** Sequential application of branch-free instructions to one path. *)
Definition apply_instr (tpm : option TPMContext) (i : pcrProtectionProfileInstr)
    (v : PCRValues) : result PCRValues :=
  match i with
  | AddPCRValueInstr alg pcr d => Val (set_pcr alg pcr d v)
  | AddPCRValueFromTPMInstr alg pcr =>
      result_map (λ d, set_pcr alg pcr d v) (read_from_tpm tpm alg pcr)
  | ExtendPCRInstr alg pcr d => Val (extend_pcr alg pcr d v)
  | AddProfileORInstr _ => Val v
  end.

Fixpoint seq_apply (tpm : option TPMContext) (instrs : list pcrProtectionProfileInstr)
    (v : PCRValues) : result PCRValues :=
  match instrs with
  | [] => Val v
  | i :: k => result_bind (apply_instr tpm i v) (seq_apply tpm k)
  end.

Definition is_branch (i : pcrProtectionProfileInstr) : bool :=
  match i with AddProfileORInstr _ => true | _ => false end.

(** A profile without [AddProfileOR]. *)
Definition simple (p : PCRProtectionProfile) : bool :=
  forallb (λ i, negb (is_branch i)) p.

(** The paths of section 4.3: every instruction acts on all live paths; a
    branch with sub-profiles replaces the live paths by the paths of its
    sub-profiles, each started from the live paths, in order; a branch
    without sub-profiles changes nothing. *)
Fixpoint eval_instr (tpm : option TPMContext) (i : pcrProtectionProfileInstr)
    (vs : list PCRValues) {struct i} : result (list PCRValues) :=
  match i with
  | AddPCRValueInstr alg pcr d => Val (set_pcr alg pcr d <$> vs)
  | AddPCRValueFromTPMInstr alg pcr =>
      result_map (λ d, set_pcr alg pcr d <$> vs) (read_from_tpm tpm alg pcr)
  | ExtendPCRInstr alg pcr d => Val (extend_pcr alg pcr d <$> vs)
  | AddProfileORInstr profiles =>
      match profiles with
      | [] => Val vs
      | _ :: _ =>
          (fix branches (ps : list (list pcrProtectionProfileInstr)) :=
             match ps with
             | [] => Val []
             | p :: ps' =>
                 result_bind
                   ((fix seq (k : list pcrProtectionProfileInstr) (ws : list PCRValues) :=
                       match k with
                       | [] => Val ws
                       | j :: k' => result_bind (eval_instr tpm j ws) (seq k')
                       end) p vs)
                   (λ r1, result_bind (branches ps') (λ r2, Val (r1 ++ r2)))
             end) profiles
      end
  end.

Fixpoint eval_instrs (tpm : option TPMContext) (k : list pcrProtectionProfileInstr)
    (vs : list PCRValues) : result (list PCRValues) :=
  match k with
  | [] => Val vs
  | j :: k' => result_bind (eval_instr tpm j vs) (eval_instrs tpm k')
  end.

Fixpoint eval_branches (tpm : option TPMContext) (ps : list PCRProtectionProfile)
    (vs : list PCRValues) : result (list PCRValues) :=
  match ps with
  | [] => Val []
  | p :: ps' =>
      result_bind (eval_instrs tpm p vs) (λ r1,
        result_bind (eval_branches tpm ps' vs) (λ r2, Val (r1 ++ r2)))
  end.

(** The paths of a whole profile, from the single empty path. *)
Definition profile_paths (tpm : option TPMContext) (p : PCRProtectionProfile)
    : result (list PCRValues) :=
  eval_instrs tpm p [∅].

(** De-duplication that keeps first occurrences. *)
Fixpoint first_occurrences (l : list Digest) : list Digest :=
  match l with
  | [] => []
  | d :: l' => d :: filter (λ f, f ≠ d) (first_occurrences l')
  end.


(** ** Invariants and auxiliary definitions of the proofs *)

(** *** Well-formed stores *)

(** The inner map object that bank [a] of object [v] refers to, if any. *)
Definition bank_ref (h : heap) (v : loc) (a : HashAlgorithmId) : option loc :=
  outer_maps h !! v ≫= λ m, m !! a.

(** Every reference to an inner map is valid, and no inner map is
    referenced twice: the objects reachable from distinct [tpm2.PCRValues]
    objects, or from distinct banks of one, are distinct. *)
Record heap_wf (h : heap) : Prop := {
  wf_valid : ∀ v a i, bank_ref h v a = Some i → i < length (inner_maps h);
  wf_inj : ∀ v1 v2 a1 a2 i,
    bank_ref h v1 a1 = Some i → bank_ref h v2 a2 = Some i → v1 = v2 ∧ a1 = a2;
}.

(** *** Updates and copies of one object *)

(** [f] updates the object it is given as [g] says and leaves every other
    object as it is. *)
Definition acts_as (f : heap → loc → heap) (g : PCRValues → PCRValues) : Prop :=
  ∀ h v, heap_wf h → v < length (outer_maps h) →
    heap_wf (f h v)
    ∧ length (outer_maps (f h v)) = length (outer_maps h)
    ∧ view (f h v) v = g (view h v)
    ∧ ∀ v', v' ≠ v → view (f h v) v' = view h v'.

(** The state of the store while the banks [D] of [v] have been copied to
    the new object, which sits at the end of the store [h0] the copy
    started from. *)
Record copying (h0 : heap) (v : loc) (D : list Z) (h' : heap) : Prop := {
  cp_wf : heap_wf h';
  cp_len : length (outer_maps h') = S (length (outer_maps h0));
  cp_outer : ∀ v', v' < length (outer_maps h0) →
    outer_maps h' !! v' = outer_maps h0 !! v';
  cp_inner : ∀ j, j < length (inner_maps h0) →
    inner_maps h' !! j = inner_maps h0 !! j;
  cp_dom : ∀ a, is_Some (bank_ref h' (length (outer_maps h0)) a) ↔ a ∈ D;
  cp_view : ∀ a, a ∈ D →
    view h' (length (outer_maps h0)) !! a = view h0 v !! a;
}.

(** ** The loop on values *)

(** The same loop with every object replaced by its value. The contexts on
    the stack come in groups: the contexts of the sub-branches still to be
    finished of one [AddProfileOR], innermost group first; the parent of
    the contexts of a group is the first context of the next group, and the
    last group is the root context alone. *)
Record pmachine := PMachine {
  p_iter : pcrProtectionProfileIterator;
  p_groups : list (list (list PCRValues));
}.

Inductive pstep_result :=
  | PContinue (pm : pmachine)
  | PDone (r : result (list PCRValues)).

Definition pstep_bind {A} (r : result A) (k : A → pstep_result) : pstep_result :=
  match r with
  | Val a => k a
  | Fail e => PDone (Fail e)
  | Panic w => PDone (Panic w)
  | OutOfFuel => PDone OutOfFuel
  end.

Definition ptop (gs : list (list (list PCRValues)))
    : result (list PCRValues * list (list PCRValues) * list (list (list PCRValues))) :=
  match gs with
  | (top :: g) :: gs' => Val (top, g, gs')
  | _ => Panic PanicIndexOutOfRange
  end.

Definition push_group {A} (g : list A) (gs : list (list A)) : list (list A) :=
  match g with [] => gs | _ :: _ => g :: gs end.

Definition pstep (tpm : option TPMContext) (pm : pmachine) : pstep_result :=
  pstep_bind (next (p_iter pm)) (λ '(item, iter'),
    match item with
    | Instr (AddPCRValueInstr alg pcr value) =>
        pstep_bind (ptop (p_groups pm)) (λ '(top, g, gs),
          PContinue (PMachine iter' (((set_pcr alg pcr value <$> top) :: g) :: gs)))
    | Instr (AddPCRValueFromTPMInstr alg pcr) =>
        pstep_bind (read_from_tpm tpm alg pcr) (λ d,
          pstep_bind (ptop (p_groups pm)) (λ '(top, g, gs),
            PContinue (PMachine iter' (((set_pcr alg pcr d <$> top) :: g) :: gs))))
    | Instr (ExtendPCRInstr alg pcr value) =>
        pstep_bind (ptop (p_groups pm)) (λ '(top, g, gs),
          PContinue (PMachine iter' (((extend_pcr alg pcr value <$> top) :: g) :: gs)))
    | Instr (AddProfileORInstr profiles) =>
        pstep_bind (ptop (p_groups pm)) (λ '(top, g, gs),
          PContinue (PMachine iter'
            (replicate (length profiles) top :: ([] :: g) :: gs)))
    | EndProfileInstr =>
        pstep_bind (ptop (p_groups pm)) (λ '(top, g, gs),
          match gs with
          | [] => PDone (Val top)
          | [] :: _ => PDone (Panic PanicNilDereference)
          | (par :: g') :: gs' =>
              PContinue (PMachine iter' (push_group g (((par ++ top) :: g') :: gs')))
          end)
    end).

Fixpoint prun (fuel : nat) (tpm : option TPMContext) (pm : pmachine)
    : result (list PCRValues) :=
  match fuel with
  | 0 => OutOfFuel
  | S fuel' =>
      match pstep tpm pm with
      | PContinue pm' => prun fuel' tpm pm'
      | PDone r => r
      end
  end.

Definition pinitial (p : PCRProtectionProfile) : pmachine :=
  {| p_iter := traverseInstructions p; p_groups := [[[∅]]] |}.

(** *** The relation between the two loops *)

(** The values held by context [c]. *)
Definition abs_ctx (cs : list pcrProtectionProfileComputeContext) (h : heap)
    (c : loc) : list PCRValues :=
  view_list h (values (cs !!! c)).

Definition abs_groups (cs : list pcrProtectionProfileComputeContext) (h : heap)
    (lg : list (list loc)) : list (list (list PCRValues)) :=
  (λ g : list loc, abs_ctx cs h <$> g) <$> lg.

(** The [parent] pointers of the contexts on the stack, grouped as [lg]. *)
Fixpoint groups_ok (cs : list pcrProtectionProfileComputeContext)
    (lg : list (list loc)) : Prop :=
  match lg with
  | [] => False
  | g :: lg' =>
      match lg' with
      | [] => ∃ c, g = [c] ∧ parent (cs !!! c) = None
      | g' :: _ =>
          g ≠ []
          ∧ (∃ p, head g' = Some p ∧ ∀ c, c ∈ g → parent (cs !!! c) = Some p)
          ∧ groups_ok cs lg'
      end
  end.

(** The map objects the contexts on the stack hold. *)
Definition live (cs : list pcrProtectionProfileComputeContext)
    (s : list loc) : list loc :=
  mjoin ((λ c, values (cs !!! c)) <$> s).

Record related (lg : list (list loc)) (m : machine) (pm : pmachine) : Prop := {
  rel_iter : m_iter m = p_iter pm;
  rel_stack : m_contexts m = mjoin lg;
  rel_groups : p_groups pm = abs_groups (m_ctxs m) (m_heap m) lg;
  rel_wf : heap_wf (m_heap m);
  rel_nodup : NoDup (mjoin lg);
  rel_ctx_valid : Forall (λ c, c < length (m_ctxs m)) (mjoin lg);
  rel_vals_valid :
    Forall (λ v, v < length (outer_maps (m_heap m))) (live (m_ctxs m) (mjoin lg));
  rel_live : NoDup (live (m_ctxs m) (mjoin lg));
  rel_parents : groups_ok (m_ctxs m) lg;
}.

(** *** Runs of the loop on values *)

(** [s] gets to [s'] in [k] turns; [s] fails with [e] within [k] turns. *)
Definition reaches (tpm : option TPMContext) (k : nat) (s s' : pmachine)
    : Prop :=
  ∀ f, prun (k + S f) tpm s = prun (S f) tpm s'.

Definition fails (tpm : option TPMContext) (k : nat) (s : pmachine) (e : error)
    : Prop :=
  ∀ f, prun (k + f) tpm s = Fail e.

(** From the start of the instructions [cur] of the top context, the loop
    on values gets to their end with the paths of [cur], or fails with
    their error, within as many turns as [cur] has instructions and ends
    of branches. *)
Definition level_ok (tpm : option TPMContext)
    (cur : list pcrProtectionProfileInstr) : Prop :=
  ∀ rest top g gs,
    match eval_instrs tpm cur top with
    | Val top' =>
        ∃ k, k ≤ list_sum (map instr_size cur)
          ∧ reaches tpm k (PMachine (cur :: rest) ((top :: g) :: gs))
                      (PMachine ([] :: rest) ((top' :: g) :: gs))
    | Fail e =>
        ∃ k, k ≤ list_sum (map instr_size cur)
          ∧ fails tpm k (PMachine (cur :: rest) ((top :: g) :: gs)) e
    | _ => False
    end.

Definition branches_size (ps : list PCRProtectionProfile) : nat :=
  list_sum (map (λ p, S (list_sum (map instr_size p))) ps).

(** Running [f] over a list, stopping at the first failure. *)
Fixpoint mapM {A B} (f : A → result B) (l : list A) : result (list B) :=
  match l with
  | [] => Val []
  | a :: l' =>
      result_bind (f a) (λ b, result_bind (mapM f l') (λ bs, Val (b :: bs)))
  end.

(** ** Branches without sub-profiles *)

(** The profile without the [AddProfileOR] of no sub-profiles found at
    [path]: instruction [i] of the profile for the path [[i]]; for the path
    [i :: j :: path'], the one found at [path'] in sub-profile [j] of
    instruction [i]. *)
Fixpoint remove_empty_branch (path : list nat) (p : PCRProtectionProfile)
    : option PCRProtectionProfile :=
  match path with
  | [] => None
  | [i] =>
      match p !! i with
      | Some (AddProfileORInstr []) => Some (delete i p)
      | _ => None
      end
  | i :: j :: path' =>
      match p !! i with
      | Some (AddProfileORInstr subs) =>
          match subs !! j with
          | Some sub =>
              match remove_empty_branch path' sub with
              | Some sub' =>
                  Some (<[i := AddProfileORInstr (<[j := sub']> subs)]> p)
              | None => None
              end
          | None => None
          end
      | _ => None
      end
  end.

(** ** Turns of the loop, and reads of the TPM *)

(** The state after [k] turns of the loop of [ComputePCRValues], when the
    loop has not returned before. *)
Fixpoint steps (k : nat) (tpm : option TPMContext) (m : machine) : step_result :=
  match k with
  | 0 => Continue m
  | S k' =>
      match step tpm m with
      | Continue m' => steps k' tpm m'
      | Done r => Done r
      end
  end.

(** Whether an [AddPCRValueFromTPM] is found in the profile, sub-profiles
    included. *)
Fixpoint uses_tpm_instr (i : pcrProtectionProfileInstr) : bool :=
  match i with
  | AddPCRValueFromTPMInstr _ _ => true
  | AddProfileORInstr profiles => existsb (existsb uses_tpm_instr) profiles
  | _ => false
  end.

Definition uses_tpm (p : PCRProtectionProfile) : bool :=
  existsb uses_tpm_instr p.

(** ** The copies made at a branch *)

(** What the turn of an [AddPCRValue] or of an [ExtendPCR] writes, through
    the list [l] of the context on top of the stack. *)
Definition write_instr (l : pcrValuesList) (i : pcrProtectionProfileInstr)
    (h : heap) : heap :=
  match i with
  | AddPCRValueInstr alg pcr value => setValue l alg pcr value h
  | ExtendPCRInstr alg pcr value => extendValue l alg pcr value h
  | _ => h
  end.

Definition write_instrs (l : pcrValuesList)
    (writes : list pcrProtectionProfileInstr) (h : heap) : heap :=
  foldl (λ h' i, write_instr l i h') h writes.

(** The same on the values. *)
Definition write_value (i : pcrProtectionProfileInstr) (v : PCRValues) : PCRValues :=
  match i with
  | AddPCRValueInstr alg pcr value => set_pcr alg pcr value v
  | ExtendPCRInstr alg pcr value => extend_pcr alg pcr value v
  | _ => v
  end.

Definition write_values (writes : list pcrProtectionProfileInstr) (v : PCRValues)
    : PCRValues :=
  foldl (λ v' i, write_value i v') v writes.

(** ** Selections *)

(** The registers a selection list selects. *)
Definition sel_keys (pcrs : PCRSelectionList) : gset (Z * Z) :=
  list_to_set (s ← pcrs; (λ pcr, (Hash s, pcr)) <$> Select s).

(** Whether all the values have the selection list [pcrs]. *)
Definition same_selection (pcrs : PCRSelectionList) (vs : list PCRValues) : bool :=
  forallb (λ v, bool_decide (SelectionList v = pcrs)) vs.

(** ** The traversal of a profile *)

(** What successive calls of [next] return, in order, for one instruction:
    the instruction itself and, for an [AddProfileOR] with sub-profiles,
    the traversal of each sub-profile followed by its end of branch. *)
Fixpoint traversal_instr (i : pcrProtectionProfileInstr) : list iterItem :=
  match i with
  | AddProfileORInstr profiles =>
      match profiles with
      | [] => []
      | _ :: _ =>
          Instr i
          :: concat (map (λ p, concat (map traversal_instr p) ++ [EndProfileInstr])
                       profiles)
      end
  | _ => [Instr i]
  end.

Definition traversal (p : PCRProtectionProfile) : list iterItem :=
  concat (map traversal_instr p) ++ [EndProfileInstr].

(** [n] calls of [next], one after the other: what they return, and the
    iterator left. *)
Fixpoint drain (n : nat) (iter : pcrProtectionProfileIterator)
    : result (list iterItem * pcrProtectionProfileIterator) :=
  match n with
  | 0 => Val ([], iter)
  | S n' =>
      result_bind (next iter) (λ '(item, iter'),
        result_bind (drain n' iter') (λ '(items, iter''),
          Val (item :: items, iter'')))
  end.

(** ** Profiles with the same values *)

(** The register an [AddPCRValue] or an [ExtendPCR] writes. *)
Definition written_register (i : pcrProtectionProfileInstr) : option (Z * Z) :=
  match i with
  | AddPCRValueInstr alg pcr _ => Some (alg, pcr)
  | ExtendPCRInstr alg pcr _ => Some (alg, pcr)
  | _ => None
  end.

(** The profile with [AddPCRValue(alg, pcr, v[alg][pcr])] in the place of
    every [AddPCRValueFromTPM(alg, pcr)] for which the read of [tpm]
    returns the values [v]. *)
Fixpoint read_instr (tpm : TPMContext) (i : pcrProtectionProfileInstr)
    : pcrProtectionProfileInstr :=
  match i with
  | AddPCRValueFromTPMInstr alg pcr =>
      match PCRRead tpm alg pcr with
      | inr v => AddPCRValueInstr alg pcr (pcr_read v alg pcr)
      | inl _ => i
      end
  | AddProfileORInstr profiles =>
      AddProfileORInstr (map (map (read_instr tpm)) profiles)
  | _ => i
  end.

Definition read_profile (tpm : TPMContext) (p : PCRProtectionProfile)
    : PCRProtectionProfile :=
  map (read_instr tpm) p.

(** ** The paths through a profile *)

(** The branch-free instruction sequences a profile stands for: one for
    every way to choose a sub-profile at each [AddProfileOR] met on the
    way. They come in the order in which [ComputePCRValues] returns their
    values: for instructions that follow one another, the choices of the
    later ones vary slowest. *)
Fixpoint choices_instr (i : pcrProtectionProfileInstr)
    : list (list pcrProtectionProfileInstr) :=
  match i with
  | AddProfileORInstr profiles =>
      match profiles with
      | [] => [[]]
      | _ :: _ =>
          concat (map (λ p,
            fold_right (λ j acc, b ← acc; (λ a, a ++ b) <$> choices_instr j) [[]] p)
            profiles)
      end
  | _ => [[i]]
  end.

Definition choices (p : PCRProtectionProfile)
    : list (list pcrProtectionProfileInstr) :=
  fold_right (λ j acc, b ← acc; (λ a, a ++ b) <$> choices_instr j) [[]] p.

(** The values of the paths [paths], each applied to all of [vs]. *)
Fixpoint apply_paths (tpm : option TPMContext)
    (paths : list (list pcrProtectionProfileInstr)) (vs : list PCRValues)
    : result (list PCRValues) :=
  match paths with
  | [] => Val []
  | path :: rest =>
      result_bind (mapM (seq_apply tpm path) vs) (λ r1,
        result_bind (apply_paths tpm rest vs) (λ r2, Val (r1 ++ r2)))
  end.

(** A result without its error. *)
Definition forget {A} (r : result A) : option A :=
  match r with Val a => Some a | _ => None end.

(** ** String *)

Context {FM : Formats}.

(** One turn of the loop of [String]; the loop only runs it with a
    context in [contexts]. *)
Definition String_turn (st : stringifier) : result stringifier :=
  match s_contexts st with
  | [] => Panic PanicIndexOutOfRange
  | c :: cs =>
      let b1 := s_b st ++ Fmt.newline in
      let depth := length (s_contexts st) - 1 in
      let b2 :=
        if s_branchStart st then b1 ++ Fmt.branch_start (depth * 3) (index c)
        else b1 in
      result_bind (next (s_iter st)) (λ '(item, iter'),
        match item with
        | Instr (AddPCRValueInstr alg pcr value) =>
            Val (Stringifier iter' (c :: cs) false
                   (b2 ++ Fmt.add_pcr_value (depth * 3) (fmt_alg alg) pcr
                            (fmt_digest value)))
        | Instr (AddPCRValueFromTPMInstr alg pcr) =>
            Val (Stringifier iter' (c :: cs) false
                   (b2 ++ Fmt.add_pcr_value_from_tpm (depth * 3) (fmt_alg alg) pcr))
        | Instr (ExtendPCRInstr alg pcr value) =>
            Val (Stringifier iter' (c :: cs) false
                   (b2 ++ Fmt.extend_pcr (depth * 3) (fmt_alg alg) pcr
                            (fmt_digest value)))
        | Instr (AddProfileORInstr profiles) =>
            Val (Stringifier iter'
                   ({| index := 0; total := length profiles |} :: c :: cs) true
                   (b2 ++ Fmt.add_profile_or (depth * 3)))
        | EndProfileInstr =>
            let c' := {| index := S (index c); total := total c |} in
            let b3 :=
              if decide (1 < length (c :: cs)) then b2 ++ Fmt.branch_end (depth * 3)
              else b2 in
            if decide (index c' < total c') then
              Val (Stringifier iter' (c' :: cs) true b3)
            else if decide (1 < length (c :: cs)) then
              Val (Stringifier iter' cs false
                     (b3 ++ Fmt.branches_end ((depth - 1) * 3)))
            else Val (Stringifier iter' cs false b3)
        end)
  end.

(** The loop [for len(contexts) > 0], with a bound on the number of
    turns. *)
Fixpoint String_loop (fuel : nat) (st : stringifier) : result (list byte) :=
  match fuel with
  | 0 => OutOfFuel
  | S fuel' =>
      match s_contexts st with
      | [] => Val (s_b st)
      | _ :: _ => result_bind (String_turn st) (String_loop fuel')
      end
  end.

Definition String_initial (p : PCRProtectionProfile) : stringifier :=
  {| s_iter := traverseInstructions p;
     s_contexts := [{| index := 0; total := 1 |}];
     s_branchStart := false;
     s_b := [] |}.

Definition PCRProtectionProfile_String (p : PCRProtectionProfile)
    : result (list byte) :=
  String_loop (S (profile_size p)) (String_initial p).

(** *** The text of a profile, by recursion on the profile *)

(** What closes sub-profile number [index] of [total], written at depth
    [d]. *)
Definition branch_close (d : nat) (last : bool) : list byte :=
  Fmt.branch_end (d * 3) ++ (if last then Fmt.branches_end ((d - 1) * 3) else []).

(** The text for one instruction at depth [d], without the new line and
    the start of branch before it; nothing for an [AddProfileOR] without
    sub-profiles. For an [AddProfileOR] with sub-profiles, the texts of
    the sub-profiles follow, each between its start of branch, with its
    number, and its end. *)
Fixpoint instr_text (d : nat) (i : pcrProtectionProfileInstr) {struct i}
    : option (list byte) :=
  match i with
  | AddPCRValueInstr alg pcr value =>
      Some (Fmt.add_pcr_value (d * 3) (fmt_alg alg) pcr (fmt_digest value))
  | AddPCRValueFromTPMInstr alg pcr =>
      Some (Fmt.add_pcr_value_from_tpm (d * 3) (fmt_alg alg) pcr)
  | ExtendPCRInstr alg pcr value =>
      Some (Fmt.extend_pcr (d * 3) (fmt_alg alg) pcr (fmt_digest value))
  | AddProfileORInstr profiles =>
      match profiles with
      | [] => None
      | _ :: _ =>
          Some (Fmt.add_profile_or (d * 3) ++
            (fix branches (idx : nat) (ps : list (list pcrProtectionProfileInstr))
                 {struct ps} : list byte :=
               match ps with
               | [] => []
               | p :: ps' =>
                   (fix lines (hdr : list byte) (k : list pcrProtectionProfileInstr)
                        {struct k} : list byte :=
                      match k with
                      | [] =>
                          Fmt.newline ++ hdr
                          ++ branch_close (S d) (bool_decide (ps' = []))
                      | j :: k' =>
                          match instr_text (S d) j with
                          | None => lines hdr k'
                          | Some t => Fmt.newline ++ hdr ++ t ++ lines [] k'
                          end
                      end) (Fmt.branch_start (S d * 3) idx) p
                   ++ branches (S idx) ps'
               end) 0 profiles)
      end
  end.

(** The lines for the instructions [k] at depth [d] and for the end of
    their profile: [hdr] is the start of branch still to be written, and
    [close] what the end of the profile writes. *)
Fixpoint profile_lines (d : nat) (hdr close : list byte)
    (k : list pcrProtectionProfileInstr) : list byte :=
  match k with
  | [] => Fmt.newline ++ hdr ++ close
  | j :: k' =>
      match instr_text d j with
      | None => profile_lines d hdr close k'
      | Some t => Fmt.newline ++ hdr ++ t ++ profile_lines d [] close k'
      end
  end.

Fixpoint branches_text (d : nat) (idx : nat) (ps : list PCRProtectionProfile)
    : list byte :=
  match ps with
  | [] => []
  | p :: ps' =>
      profile_lines d (Fmt.branch_start (d * 3) idx)
        (branch_close d (bool_decide (ps' = []))) p
      ++ branches_text d (S idx) ps'
  end.

Definition profile_text (p : PCRProtectionProfile) : list byte :=
  profile_lines 0 [] [] p.

(** What the turn of an end of branch writes after the new line and the
    start of branch, and the state it leaves. *)
Definition end_close (c : pcrProtectionProfileStringifyBranchContext)
    (cs : list pcrProtectionProfileStringifyBranchContext) : list byte :=
  (if decide (cs = []) then [] else Fmt.branch_end (length cs * 3))
  ++ (if decide (S (index c) < total c) then []
      else if decide (cs = []) then []
      else Fmt.branches_end ((length cs - 1) * 3)).

Definition end_state (iter : list (list pcrProtectionProfileInstr))
    (c : pcrProtectionProfileStringifyBranchContext)
    (cs : list pcrProtectionProfileStringifyBranchContext) (b : list byte)
    : stringifier :=
  if decide (S (index c) < total c) then
    Stringifier iter ({| index := S (index c); total := total c |} :: cs) true b
  else Stringifier iter cs false b.

(** [s] gets to [s'] in [k] turns. *)
Definition String_reaches (k : nat) (s s' : stringifier) : Prop :=
  ∀ f, String_loop (k + f) s = String_loop f s'.

(** From the start of the instructions [cur] of a level, the loop gets to
    the state after the end of the level, with the lines of [cur] in the
    buffer. *)
Definition String_level_ok (cur : list pcrProtectionProfileInstr) : Prop :=
  ∀ rest c cs bs B,
    ∃ k, k ≤ S (list_sum (map instr_size cur))
      ∧ String_reaches k
          (Stringifier (cur :: rest) (c :: cs) bs B)
          (end_state rest c cs
             (B ++ profile_lines (length cs)
                     (if bs then Fmt.branch_start (length cs * 3) (index c) else [])
                     (end_close c cs) cur)).

(** ** The sizes of the digests *)

(** Every digest an [AddPCRValue] or an [ExtendPCR] of the profile holds
    has the size of its algorithm, in the sub-profiles too. *)
Fixpoint sized_instr (i : pcrProtectionProfileInstr) : bool :=
  match i with
  | AddPCRValueInstr alg _ value => bool_decide (length value = alg_size alg)
  | ExtendPCRInstr alg _ value => bool_decide (length value = alg_size alg)
  | AddPCRValueFromTPMInstr _ _ => true
  | AddProfileORInstr profiles => forallb (forallb sized_instr) profiles
  end.

Definition sized (p : PCRProtectionProfile) : bool := forallb sized_instr p.

(** Every digest of the values has the size of the algorithm of its
    bank. *)
Definition sized_values (v : PCRValues) : Prop :=
  ∀ alg pcr d, pcr_lookup v alg pcr = Some d → length d = alg_size alg.

End Engine.

(** * Test profiles *)

(** [tpm2.HashAlgorithmSHA256]. *)
Definition sha256 : HashAlgorithmId := 11.

Definition digest_a : Digest := [x01; x02].
Definition digest_b : Digest := [x03; x04].

(** One register set, then two alternatives: extend it, or set another
    register. *)
Definition example_pre : PCRProtectionProfile :=
  [AddPCRValueInstr sha256 7 digest_a].

Definition example_subs : list PCRProtectionProfile :=
  [[ExtendPCRInstr sha256 7 digest_b]; [AddPCRValueInstr sha256 8 digest_b]].

Definition example_post : PCRProtectionProfile :=
  [ExtendPCRInstr sha256 12 digest_a].

Definition example_profile : PCRProtectionProfile :=
  example_pre ++ AddProfileORInstr example_subs :: example_post.

(** The state of the loop of [ComputePCRValues] on [example_profile] after
    one turn: the next instruction is the [AddProfileOR]. *)
Definition example_branch_state : machine :=
  {| m_iter := [AddProfileORInstr example_subs :: example_post];
     m_contexts := [0];
     m_ctxs := [{| parent := None; values := [0] |}];
     m_heap := {| outer_maps := [{[ sha256 := 0 ]}];
                  inner_maps := [{[ 7%Z := digest_a ]}] |} |}.

Definition example_simple : PCRProtectionProfile :=
  [AddPCRValueInstr sha256 7 digest_a;
   ExtendPCRInstr sha256 7 digest_b;
   AddPCRValueInstr sha256 8 digest_b;
   AddPCRValueInstr sha256 8 digest_a].

(** Three alternatives for one register, the first two with the same
    value in the end. *)
Definition example_duplicates : PCRProtectionProfile :=
  [AddProfileORInstr
     [[AddPCRValueInstr sha256 7 digest_a];
      [AddPCRValueInstr sha256 7 digest_b; AddPCRValueInstr sha256 7 digest_a];
      [AddPCRValueInstr sha256 7 digest_b]]].

(** Two alternatives that do not set the same registers. *)
Definition example_uneven : PCRProtectionProfile :=
  [AddProfileORInstr
     [[AddPCRValueInstr sha256 7 digest_a; AddPCRValueInstr sha256 8 digest_a];
      [AddPCRValueInstr sha256 7 digest_a; AddPCRValueInstr sha256 9 digest_a]]].

(** A profile that reads the TPM in its second instruction, and the state
    of the loop after one turn. *)
Definition example_from_tpm : PCRProtectionProfile :=
  [AddPCRValueInstr sha256 8 digest_a; AddPCRValueFromTPMInstr sha256 7].

Definition example_from_tpm_state : machine :=
  {| m_iter := [[AddPCRValueFromTPMInstr sha256 7]];
     m_contexts := [0];
     m_ctxs := [{| parent := None; values := [0] |}];
     m_heap := {| outer_maps := [{[ sha256 := 0 ]}];
                  inner_maps := [{[ 8%Z := digest_a ]}] |} |}.

(** A TPM whose reads all fail. *)
Definition failing_tpm : TPMContext := {| PCRRead := λ _ _, inl 1%Z |}.

(** A profile with branches without sub-profiles, one of them nested. *)
Definition example_empty_branches : PCRProtectionProfile :=
  [AddPCRValueInstr sha256 7 digest_a;
   AddProfileORInstr [];
   AddProfileORInstr [[ExtendPCRInstr sha256 7 digest_b; AddProfileORInstr []];
                      [AddPCRValueInstr sha256 7 digest_b]]].

(** The state of the loop on a profile of one instruction after one turn:
    only the outermost level is left, and it has run out. *)
Definition example_root_end_state : machine :=
  {| m_iter := [[]];
     m_contexts := [0];
     m_ctxs := [{| parent := None; values := [0] |}];
     m_heap := {| outer_maps := [{[ sha256 := 0 ]}];
                  inner_maps := [{[ 7%Z := digest_a ]}] |} |}.

(** A store with two [tpm2.PCRValues] objects, each with the one bank
    [sha256]: register 7 in the first, registers 7 and 8 in the second. *)
Definition example_heap : heap :=
  {| outer_maps := [{[ sha256 := 0 ]}; {[ sha256 := 1 ]}];
     inner_maps := [{[ 7%Z := digest_a ]};
                    {[ 7%Z := digest_b; 8%Z := digest_a ]}] |}.

(** A TPM with a value for register 7 of [sha256] and none for register 8,
    whose reads of other banks fail. *)
Definition example_tpm : TPMContext :=
  {| PCRRead := λ alg pcr,
       if decide (alg = sha256) then inr {[ sha256 := {[ 7%Z := digest_b ]} ]}
       else inl 2%Z |}.

Definition example_reads : PCRProtectionProfile :=
  [AddPCRValueFromTPMInstr sha256 7;
   AddProfileORInstr [[AddPCRValueFromTPMInstr sha256 8];
                      [ExtendPCRInstr sha256 7 digest_a]]].

(** Two branches one after the other. *)
Definition example_two_branches : PCRProtectionProfile :=
  [AddProfileORInstr [[AddPCRValueInstr sha256 7 digest_a];
                      [AddPCRValueInstr sha256 7 digest_b]];
   AddProfileORInstr [[AddPCRValueInstr sha256 8 digest_a];
                      [AddPCRValueInstr sha256 8 digest_b]]].

(** The text of an algorithm as a number, and of a digest in hexadecimal. *)
Definition example_formats : Formats :=
  {| fmt_alg := Fmt.decimal; fmt_digest := Fmt.hex |}.

(** The text of [example_profile] with these formats, line by line. *)
Module FmtExamples.
Import String.
Local Open Scope string_scope.

Definition example_profile_lines : list string :=
  [" AddPCRValue(11, 7, 0102)";
   " AddProfileOR(";
   "   Branch 0 {";
   "    ExtendPCR(11, 7, 0304)";
   "   }";
   "   Branch 1 {";
   "    AddPCRValue(11, 8, 0304)";
   "   }";
   " )";
   " ExtendPCR(11, 12, 0102)"].

End FmtExamples.

Definition example_profile_text : list byte :=
  concat (map (λ l, Fmt.newline ++ Fmt.bytes l) FmtExamples.example_profile_lines)
  ++ Fmt.newline.

(** * Proofs *)

Section Correctness.
Context {HP : HashProvider}.

(** ** The stores *)

(** *** Banks *)

Lemma outer_total_lookup h v a :
  (outer_maps h !!! v) !! a = bank_ref h v a.
Proof.
  unfold bank_ref. rewrite list_lookup_total_alt.
  destruct (outer_maps h !! v) as [m|]; simpl; [done|].
  apply lookup_empty.
Qed.

Lemma view_lookup h v a :
  view h v !! a = (λ i, inner_maps h !!! i) <$> bank_ref h v a.
Proof. unfold view. by rewrite lookup_fmap, outer_total_lookup. Qed.

Lemma bank_of_ref h v a i : bank_ref h v a = Some i → bank_of v a h = i.
Proof.
  intros H. unfold bank_of. rewrite lookup_total_alt, outer_total_lookup, H. done.
Qed.

Lemma bank_ref_alter_insert h v a n inner' v' a' :
  v < length (outer_maps h) →
  bank_ref {| outer_maps := alter (λ m, <[a:=n]> m) v (outer_maps h);
              inner_maps := inner' |} v' a'
  = if decide (v' = v ∧ a' = a) then Some n else bank_ref h v' a'.
Proof.
  intros Hv. unfold bank_ref; simpl.
  destruct (decide (v' = v)) as [->|Hne].
  - rewrite list_lookup_alter_eq.
    destruct (lookup_lt_is_Some_2 _ _ Hv) as [m Hm]. rewrite Hm; simpl.
    destruct (decide (a' = a)) as [->|Hna].
    + rewrite decide_True by done. apply lookup_insert_eq.
    + rewrite decide_False by (intros [??]; congruence). by apply lookup_insert_ne.
  - rewrite list_lookup_alter_ne by done.
    rewrite decide_False by (intros [??]; congruence). done.
Qed.

Lemma bank_ref_valid_outer h v a i :
  bank_ref h v a = Some i → v < length (outer_maps h).
Proof.
  unfold bank_ref. destruct (outer_maps h !! v) eqn:E; [|done].
  intros _. by eapply lookup_lt_Some.
Qed.

(** Allocating a new inner map [m] for the missing bank [a] of [v]. *)
Lemma alloc_bank_wf h v a m :
  heap_wf h → v < length (outer_maps h) → bank_ref h v a = None →
  heap_wf {| outer_maps := alter (λ m, <[a := length (inner_maps h)]> m) v (outer_maps h);
             inner_maps := inner_maps h ++ [m] |}.
Proof.
  intros [Hval Hinj] Hv Hnone. split; simpl.
  - intros v' a' i. rewrite bank_ref_alter_insert by done.
    rewrite length_app; simpl. case_decide.
    + intros [= <-]. lia.
    + intros H'%Hval. lia.
  - intros v1 v2 a1 a2 i. rewrite !bank_ref_alter_insert by done.
    repeat case_decide.
    + intros _ _. destruct H, H0. split; congruence.
    + intros [= <-] H'%Hval. lia.
    + intros H'%Hval [= <-]. lia.
    + apply Hinj.
Qed.

Lemma alloc_bank_view h v a m v' :
  heap_wf h → v < length (outer_maps h) →
  view {| outer_maps := alter (λ m, <[a := length (inner_maps h)]> m) v (outer_maps h);
          inner_maps := inner_maps h ++ [m] |} v'
  = if decide (v' = v) then <[a := m]> (view h v) else view h v'.
Proof.
  intros [Hval Hinj] Hv. apply map_eq. intros a'.
  rewrite view_lookup, bank_ref_alter_insert by done. simpl.
  assert (Hold : ∀ w b, (λ i, (inner_maps h ++ [m]) !!! i) <$> bank_ref h w b
                       = view h w !! b).
  { intros w b. rewrite view_lookup.
    destruct (bank_ref h w b) as [j|] eqn:E; simpl; [|done].
    f_equal. apply lookup_total_app_l. by eapply Hval. }
  destruct (decide (v' = v)) as [->|Hne].
  - destruct (decide (a' = a)) as [->|Hna].
    + rewrite decide_True by done. rewrite lookup_insert_eq. simpl. f_equal.
      rewrite lookup_total_app_r by done. by rewrite Nat.sub_diag.
    + rewrite decide_False by (intros [??]; congruence).
      rewrite lookup_insert_ne by done. apply Hold.
  - rewrite decide_False by (intros [??]; congruence). apply Hold.
Qed.

Lemma ensure_bank_spec h v a :
  heap_wf h → v < length (outer_maps h) →
  heap_wf (ensure_bank v a h)
  ∧ length (outer_maps (ensure_bank v a h)) = length (outer_maps h)
  ∧ is_Some (bank_ref (ensure_bank v a h) v a)
  ∧ view (ensure_bank v a h) v = <[a := default ∅ (view h v !! a)]> (view h v)
  ∧ ∀ v', v' ≠ v → view (ensure_bank v a h) v' = view h v'.
Proof.
  intros Hwf Hv. unfold ensure_bank. rewrite outer_total_lookup.
  destruct (bank_ref h v a) as [i|] eqn:E.
  - split_and!; try done.
    symmetry. apply insert_id. rewrite view_lookup, E. done.
  - split_and!.
    + by apply alloc_bank_wf.
    + simpl. apply length_alter.
    + rewrite bank_ref_alter_insert by done. rewrite decide_True by done. done.
    + rewrite alloc_bank_view by done. rewrite decide_True by done.
      rewrite view_lookup, E. done.
    + intros v' Hne. rewrite alloc_bank_view by done. by rewrite decide_False.
Qed.

Lemma store_pcr_spec h v a pcr d :
  heap_wf h → is_Some (bank_ref h v a) →
  heap_wf (store_pcr v a pcr d h)
  ∧ outer_maps (store_pcr v a pcr d h) = outer_maps h
  ∧ length (inner_maps (store_pcr v a pcr d h)) = length (inner_maps h)
  ∧ view (store_pcr v a pcr d h) v
    = <[a := <[pcr := d]> (default ∅ (view h v !! a))]> (view h v)
  ∧ ∀ v', v' ≠ v → view (store_pcr v a pcr d h) v' = view h v'.
Proof.
  intros [Hval Hinj] [i Hi]. unfold store_pcr. rewrite (bank_of_ref _ _ _ _ Hi).
  assert (Href : ∀ w b, bank_ref {| outer_maps := outer_maps h;
      inner_maps := alter (λ m, <[pcr:=d]> m) i (inner_maps h) |} w b = bank_ref h w b)
    by done.
  split_and!; simpl.
  - split; simpl.
    + intros w b j. rewrite Href, length_alter. apply Hval.
    + intros v1 v2 a1 a2 j. rewrite !Href. apply Hinj.
  - done.
  - apply length_alter.
  - apply map_eq. intros b. rewrite view_lookup, Href.
    destruct (decide (b = a)) as [->|Hne].
    + rewrite Hi, lookup_insert_eq. simpl. f_equal.
      rewrite list_lookup_total_alter_eq by (by eapply Hval).
      rewrite view_lookup, Hi. done.
    + rewrite lookup_insert_ne by done. rewrite view_lookup.
      destruct (bank_ref h v b) as [j|] eqn:E; simpl; [|done]. f_equal.
      apply list_lookup_total_alter_ne. intros ->.
      destruct (Hinj _ _ _ _ _ Hi E). done.
  - intros v' Hne. apply map_eq. intros b. rewrite !view_lookup, Href.
    destruct (bank_ref h v' b) as [j|] eqn:E; simpl; [|done]. f_equal.
    apply list_lookup_total_alter_ne. intros ->.
    destruct (Hinj _ _ _ _ _ Hi E). done.
Qed.

Lemma load_pcr_view h v a pcr :
  is_Some (bank_ref h v a) → load_pcr v a pcr h = pcr_lookup (view h v) a pcr.
Proof.
  intros [i Hi]. unfold load_pcr, pcr_lookup.
  rewrite (bank_of_ref _ _ _ _ Hi), view_lookup, Hi. done.
Qed.

(** *** Setting and extending, on values *)

Lemma pcr_lookup_set_pcr a r d (V : PCRValues) :
  pcr_lookup (set_pcr a r d V) a r = Some d.
Proof.
  unfold pcr_lookup, set_pcr. rewrite lookup_insert_eq. simpl.
  apply lookup_insert_eq.
Qed.

Lemma pcr_lookup_set_pcr_ne a r a' r' d (V : PCRValues) :
  (a', r') ≠ (a, r) → pcr_lookup (set_pcr a r d V) a' r' = pcr_lookup V a' r'.
Proof.
  intros Hne. unfold pcr_lookup, set_pcr.
  destruct (decide (a' = a)) as [->|Ha].
  - rewrite lookup_insert_eq. simpl. rewrite lookup_insert_ne by congruence.
    destruct (V !! a); simpl; [done|]. apply lookup_empty.
  - by rewrite lookup_insert_ne.
Qed.

Lemma set_pcr_set_pcr a r d d' (V : PCRValues) :
  set_pcr a r d (set_pcr a r d' V) = set_pcr a r d V.
Proof.
  unfold set_pcr. rewrite lookup_insert_eq. simpl.
  by rewrite !insert_insert_eq.
Qed.

Lemma set_pcr_ensure a r d (V : PCRValues) :
  set_pcr a r d (<[a := default ∅ (V !! a)]> V) = set_pcr a r d V.
Proof. unfold set_pcr. rewrite lookup_insert_eq. simpl. by rewrite insert_insert_eq. Qed.

Lemma pcr_lookup_ensure a r (V : PCRValues) :
  pcr_lookup (<[a := default ∅ (V !! a)]> V) a r = pcr_lookup V a r.
Proof.
  unfold pcr_lookup. rewrite lookup_insert_eq. simpl.
  destruct (V !! a); simpl; [done|]. apply lookup_empty.
Qed.

Lemma SetValue_acts_as a r d :
  acts_as (λ h v, PCRValues_SetValue v a r d h) (set_pcr a r d).
Proof.
  intros h v Hwf Hv. unfold PCRValues_SetValue.
  destruct (ensure_bank_spec h v a Hwf Hv) as (Hwf1 & Hlen1 & Href1 & Hv1 & Hfr1).
  destruct (store_pcr_spec _ v a r d Hwf1 Href1) as (Hwf2 & Hout2 & _ & Hv2 & Hfr2).
  split_and!; [done|simpl; congruence| |].
  - rewrite Hv2, Hv1. apply set_pcr_ensure.
  - intros v' Hne. by rewrite Hfr2, Hfr1.
Qed.

Lemma extendValue_body_acts_as a r d :
  acts_as (extendValue_body a r d) (extend_pcr a r d).
Proof.
  intros h v Hwf Hv. unfold extendValue_body.
  destruct (ensure_bank_spec h v a Hwf Hv) as (Hwf1 & Hlen1 & Href1 & Hv1 & Hfr1).
  set (h1 := ensure_bank v a h) in *.
  assert (Hload1 : load_pcr v a r h1 = pcr_lookup (view h v) a r).
  { rewrite load_pcr_view by done. rewrite Hv1. apply pcr_lookup_ensure. }
  rewrite Hload1. unfold extend_pcr.
  destruct (pcr_lookup (view h v) a r) as [old|] eqn:Eold; simpl.
  - rewrite Hload1. simpl.
    destruct (store_pcr_spec h1 v a r (alg_hash a (old ++ d))
                Hwf1 Href1) as (Hwf2 & Hout2 & _ & Hv2 & Hfr2).
    split_and!; [done|simpl; congruence| |].
    + rewrite Hv2, Hv1. apply set_pcr_ensure.
    + intros v' Hne. by rewrite Hfr2, Hfr1.
  - destruct (store_pcr_spec h1 v a r (replicate (alg_size a) x00) Hwf1 Href1)
      as (Hwf2 & Hout2 & _ & Hv2 & Hfr2).
    set (h2 := store_pcr v a r (replicate (alg_size a) x00) h1) in *.
    assert (Href2 : is_Some (bank_ref h2 v a)).
    { unfold bank_ref. rewrite Hout2. apply Href1. }
    assert (Hview2 : view h2 v = set_pcr a r (replicate (alg_size a) x00) (view h v)).
    { rewrite Hv2, Hv1. apply set_pcr_ensure. }
    destruct (store_pcr_spec h2 v a r (alg_hash a (default [] (load_pcr v a r h2) ++ d))
                Hwf2 Href2) as (Hwf3 & Hout3 & _ & Hv3 & Hfr3).
    split_and!; [done|simpl; congruence| |].
    + rewrite Hv3. rewrite load_pcr_view by done. rewrite Hview2.
      rewrite pcr_lookup_set_pcr. simpl. apply set_pcr_set_pcr.
    + intros v' Hne. by rewrite Hfr3, Hfr2, Hfr1.
Qed.

Lemma foldl_acts_as f g :
  acts_as f g →
  ∀ l h, heap_wf h → Forall (λ v, v < length (outer_maps h)) l → NoDup l →
    heap_wf (foldl f h l)
    ∧ length (outer_maps (foldl f h l)) = length (outer_maps h)
    ∧ view_list (foldl f h l) l = g <$> view_list h l
    ∧ ∀ v', v' ∉ l → view (foldl f h l) v' = view h v'.
Proof.
  intros Hf l. induction l as [|v l IH]; intros h Hwf Hl Hnd; simpl.
  { done. }
  apply Forall_cons in Hl as [Hv Hl]. apply NoDup_cons in Hnd as [Hnin Hnd].
  destruct (Hf h v Hwf Hv) as (Hwf1 & Hlen1 & Hv1 & Hfr1).
  destruct (IH (f h v) Hwf1) as (Hwf2 & Hlen2 & Hv2 & Hfr2); [|done|].
  { by rewrite Hlen1. }
  split_and!; [done|congruence| |].
  - unfold view_list in *. cbn [fmap list_fmap]. rewrite Hfr2 by done.
    rewrite Hv1. f_equal. rewrite Hv2. f_equal.
    apply list_fmap_ext. intros i w Hw. apply Hfr1.
    intros ->. apply Hnin. by eapply list_elem_of_lookup_2.
  - intros v' Hv'. apply not_elem_of_cons in Hv' as [Hne Hv'].
    by rewrite Hfr2, Hfr1.
Qed.

Lemma setValue_spec l a r d h :
  heap_wf h → Forall (λ v, v < length (outer_maps h)) l → NoDup l →
  heap_wf (setValue l a r d h)
  ∧ length (outer_maps (setValue l a r d h)) = length (outer_maps h)
  ∧ view_list (setValue l a r d h) l = set_pcr a r d <$> view_list h l
  ∧ ∀ v', v' ∉ l → view (setValue l a r d h) v' = view h v'.
Proof. apply (foldl_acts_as _ _ (SetValue_acts_as a r d)). Qed.

Lemma extendValue_spec l a r d h :
  heap_wf h → Forall (λ v, v < length (outer_maps h)) l → NoDup l →
  heap_wf (extendValue l a r d h)
  ∧ length (outer_maps (extendValue l a r d h)) = length (outer_maps h)
  ∧ view_list (extendValue l a r d h) l = extend_pcr a r d <$> view_list h l
  ∧ ∀ v', v' ∉ l → view (extendValue l a r d h) v' = view h v'.
Proof. apply (foldl_acts_as _ _ (extendValue_body_acts_as a r d)). Qed.

(** *** Copying *)

Lemma foldl_insert_lookup {V} (g : Z → V) (ks : list Z) (m0 : gmap Z V) k :
  foldl (λ m k, <[k := g k]> m) m0 ks !! k
  = if decide (k ∈ ks) then Some (g k) else m0 !! k.
Proof.
  revert m0. induction ks as [|x ks IH]; intros m0; cbn [foldl].
  { case_decide as H; [by apply elem_of_nil in H|done]. }
  rewrite IH. destruct (decide (k ∈ ks)) as [Hin|Hnin].
  - rewrite decide_True; [done|]. by right.
  - destruct (decide (k = x)) as [->|Hne].
    + rewrite decide_True by left. apply lookup_insert_eq.
    + rewrite decide_False.
      * by apply lookup_insert_ne.
      * intros [?|?]%elem_of_cons; done.
Qed.

Lemma elem_of_map_keys {V} (m : gmap Z V) k :
  k ∈ map_keys m ↔ is_Some (m !! k).
Proof.
  unfold map_keys. rewrite list_elem_of_fmap. split.
  - intros ([k' x] & -> & Hin). apply elem_of_map_to_list in Hin. by exists x.
  - intros [x Hx]. exists (k, x). split; [done|]. by apply elem_of_map_to_list.
Qed.

Lemma NoDup_map_keys {V} (m : gmap Z V) : NoDup (map_keys m).
Proof. apply NoDup_fst_map_to_list. Qed.

(** The inner loop of [copy] rebuilds the map it ranges over. *)
Lemma copy_keys_id (src : gmap Z Digest) :
  foldl (λ m pcr, <[pcr := default [] (src !! pcr)]> m) ∅ (map_keys src) = src.
Proof.
  apply map_eq. intros k.
  rewrite (foldl_insert_lookup (λ pcr, default [] (src !! pcr))).
  case_decide as Hk.
  - apply elem_of_map_keys in Hk as [x Hx]. by rewrite Hx.
  - rewrite lookup_empty. symmetry. apply eq_None_not_Some.
    intros Hs. by apply Hk, elem_of_map_keys.
Qed.

Lemma copy_bank_eq h v ov a j :
  heap_wf h → v ≠ ov → ov < length (outer_maps h) → bank_ref h v a = Some j →
  copy_bank v ov h a
  = {| outer_maps := alter (λ m, <[a := length (inner_maps h)]> m) ov (outer_maps h);
       inner_maps := inner_maps h ++ [inner_maps h !!! j] |}.
Proof.
  intros Hwf Hne Hov Hj. unfold copy_bank.
  rewrite (bank_of_ref _ _ _ _ Hj).
  set (src := inner_maps h !!! j).
  set (outer1 := alter (λ m, <[a := length (inner_maps h)]> m) ov (outer_maps h)).
  assert (Hjlt : j < length (inner_maps h)) by (by eapply wf_valid).
  assert (Hfold : ∀ ks m,
    foldl (λ h' pcr, store_pcr ov a pcr (default [] (load_pcr v a pcr h')) h')
      {| outer_maps := outer1; inner_maps := inner_maps h ++ [m] |} ks
    = {| outer_maps := outer1;
         inner_maps := inner_maps h ++
           [foldl (λ m pcr, <[pcr := default [] (src !! pcr)]> m) m ks] |}).
  { induction ks as [|pcr ks IH]; intros m; simpl; [done|].
    rewrite <- IH. f_equal. unfold store_pcr, load_pcr, bank_of; simpl.
    unfold outer1.
    rewrite list_lookup_total_alter_eq by done.
    rewrite lookup_total_insert_eq.
    rewrite list_lookup_total_alter_ne by done.
    fold (bank_of v a h). rewrite (bank_of_ref _ _ _ _ Hj).
    rewrite lookup_total_app_l by done. fold src.
    f_equal.
    rewrite <- (Nat.add_0_r (length (inner_maps h))) at 1.
    by rewrite alter_app_r. }
  rewrite Hfold. by rewrite copy_keys_id.
Qed.

Lemma copying_bank_ref h0 v D h' v' a :
  copying h0 v D h' → v' < length (outer_maps h0) →
  bank_ref h' v' a = bank_ref h0 v' a.
Proof. intros Hc Hv'. unfold bank_ref. by rewrite (cp_outer _ _ _ _ Hc). Qed.

Lemma copying_inner_total h0 v D h' j :
  copying h0 v D h' → j < length (inner_maps h0) →
  inner_maps h' !!! j = inner_maps h0 !!! j.
Proof.
  intros Hc Hj. rewrite !list_lookup_total_alt. by rewrite (cp_inner _ _ _ _ Hc).
Qed.

Lemma copying_old_view h0 v D h' v' :
  heap_wf h0 → copying h0 v D h' → v' < length (outer_maps h0) →
  view h' v' = view h0 v'.
Proof.
  intros Hwf Hc Hv'. apply map_eq. intros a. rewrite !view_lookup.
  rewrite (copying_bank_ref _ _ _ _ _ _ Hc Hv').
  destruct (bank_ref h0 v' a) as [j|] eqn:E; simpl; [|done]. f_equal.
  eapply copying_inner_total; [done|]. by eapply wf_valid.
Qed.

Lemma copying_start h0 v :
  heap_wf h0 →
  copying h0 v [] {| outer_maps := outer_maps h0 ++ [∅]; inner_maps := inner_maps h0 |}.
Proof.
  intros [Hval Hinj].
  assert (Href : ∀ v' a,
    bank_ref {| outer_maps := outer_maps h0 ++ [∅]; inner_maps := inner_maps h0 |} v' a
    = bank_ref h0 v' a).
  { intros v' a. unfold bank_ref; simpl.
    destruct (decide (v' < length (outer_maps h0))) as [Hlt|Hge].
    - by rewrite lookup_app_l.
    - rewrite lookup_app_r by lia. rewrite (lookup_ge_None_2 (outer_maps h0)) by lia.
      destruct (v' - length (outer_maps h0)); simpl; [apply lookup_empty|done]. }
  split; simpl.
  - split; simpl.
    + intros v' a i. rewrite Href. apply Hval.
    + intros v1 v2 a1 a2 i. rewrite !Href. apply Hinj.
  - rewrite length_app. simpl. lia.
  - intros v' Hv'. by apply lookup_app_l.
  - done.
  - intros a. rewrite Href. split.
    + intros [i Hi]. apply bank_ref_valid_outer in Hi. lia.
    + intros []%elem_of_nil.
  - intros a []%elem_of_nil.
Qed.

Lemma copying_step h0 v D h' a :
  heap_wf h0 → v < length (outer_maps h0) →
  copying h0 v D h' → a ∉ D → is_Some (bank_ref h0 v a) →
  copying h0 v (D ++ [a]) (copy_bank v (length (outer_maps h0)) h' a).
Proof.
  intros Hwf0 Hv Hc Hnin [j Hj].
  pose proof (cp_wf _ _ _ _ Hc) as Hwf'.
  pose proof (cp_len _ _ _ _ Hc) as Hlen'.
  set (ov := length (outer_maps h0)) in *.
  assert (Hov : ov < length (outer_maps h')) by lia.
  assert (Hj' : bank_ref h' v a = Some j).
  { by rewrite (copying_bank_ref _ _ _ _ _ _ Hc Hv). }
  assert (Hnone : bank_ref h' ov a = None).
  { apply eq_None_not_Some. intros Hs. by apply Hnin, (cp_dom _ _ _ _ Hc). }
  assert (Hjlt : j < length (inner_maps h0)) by (by eapply wf_valid).
  rewrite (copy_bank_eq h' v ov a j) by (done || lia).
  split.
  - by apply alloc_bank_wf.
  - simpl. rewrite length_alter. done.
  - intros v' Hv'. simpl. rewrite list_lookup_alter_ne by (unfold ov; lia).
    by apply (cp_outer _ _ _ _ Hc).
  - intros i Hi. simpl.
    pose proof (cp_inner _ _ _ _ Hc i Hi) as Hx.
    destruct (lookup_lt_is_Some_2 (inner_maps h0) i Hi) as [x Hx'].
    rewrite Hx' in Hx. rewrite lookup_app_l by (by eapply lookup_lt_Some).
    by rewrite Hx'.
  - intros b. rewrite bank_ref_alter_insert by done.
    rewrite elem_of_app, list_elem_of_singleton. case_decide as Hd.
    + destruct Hd as [_ ->]. split; [by right|by eauto].
    + rewrite (cp_dom _ _ _ _ Hc). split; [by left|].
      intros [?| ->]; [done|]. exfalso. by apply Hd.
  - intros b Hb. rewrite alloc_bank_view by done. rewrite decide_True by done.
    destruct (decide (b = a)) as [->|Hne].
    + rewrite lookup_insert_eq, view_lookup, Hj. simpl. f_equal.
      by eapply copying_inner_total.
    + rewrite lookup_insert_ne by done. apply (cp_view _ _ _ _ Hc).
      apply elem_of_app in Hb as [?|Hb]; [done|].
      by apply list_elem_of_singleton in Hb.
Qed.

Lemma copying_fold h0 v :
  heap_wf h0 → v < length (outer_maps h0) →
  ∀ ks D h', copying h0 v D h' → NoDup ks →
    (∀ a, a ∈ ks → a ∉ D) → (∀ a, a ∈ ks → is_Some (bank_ref h0 v a)) →
    copying h0 v (D ++ ks) (foldl (copy_bank v (length (outer_maps h0))) h' ks).
Proof.
  intros Hwf0 Hv ks. induction ks as [|a ks IH]; intros D h' Hc Hnd Hfresh Hdom; simpl.
  { by rewrite app_nil_r. }
  apply NoDup_cons in Hnd as [Hnin Hnd].
  replace (D ++ a :: ks) with ((D ++ [a]) ++ ks) by (by rewrite <- app_assoc).
  apply IH; [|done| |].
  - apply copying_step; try done.
    + apply Hfresh. by left.
    + apply Hdom. by left.
  - intros b Hb [HbD| ->%list_elem_of_singleton]%elem_of_app; [|done].
    eapply Hfresh; [|done]. by right.
  - intros b Hb. apply Hdom. by right.
Qed.

Lemma copy_body_spec out h v :
  heap_wf h → v < length (outer_maps h) →
  ∃ h', copy_body (out, h) v = (out ++ [length (outer_maps h)], h')
    ∧ heap_wf h'
    ∧ length (outer_maps h') = S (length (outer_maps h))
    ∧ view h' (length (outer_maps h)) = view h v
    ∧ ∀ v', v' < length (outer_maps h) → view h' v' = view h v'.
Proof.
  intros Hwf Hv. eexists. split; [reflexivity|].
  pose proof (copying_fold h v Hwf Hv (map_keys (outer_maps h !!! v)) []
    _ (copying_start h v Hwf) (NoDup_map_keys _)) as Hc.
  simpl in Hc. 
  assert (Hkeys : ∀ a, a ∈ map_keys (outer_maps h !!! v) ↔ is_Some (bank_ref h v a)).
  { intros a. by rewrite elem_of_map_keys, outer_total_lookup. }
  specialize (Hc (λ a _, not_elem_of_nil a) (λ a Ha, proj1 (Hkeys a) Ha)).
  split_and!.
  - apply (cp_wf _ _ _ _ Hc).
  - apply (cp_len _ _ _ _ Hc).
  - apply map_eq. intros a.
    destruct (decide (a ∈ map_keys (outer_maps h !!! v))) as [Hin|Hnin].
    + by apply (cp_view _ _ _ _ Hc).
    + rewrite !view_lookup.
      destruct (bank_ref h v a) eqn:E1.
      { exfalso. apply Hnin, Hkeys. eauto. }
      match goal with |- _ <$> ?x = _ => destruct x eqn:E2 end; [|done].
      exfalso. apply Hnin, (cp_dom _ _ _ _ Hc). eauto.
  - intros v' Hv'. by eapply copying_old_view.
Qed.

Lemma copy_fold_spec l :
  ∀ out h, heap_wf h → Forall (λ v, v < length (outer_maps h)) l →
  ∃ h', foldl copy_body (out, h) l
          = (out ++ seq (length (outer_maps h)) (length l), h')
    ∧ heap_wf h'
    ∧ length (outer_maps h') = length (outer_maps h) + length l
    ∧ view_list h' (seq (length (outer_maps h)) (length l)) = view_list h l
    ∧ ∀ v', v' < length (outer_maps h) → view h' v' = view h v'.
Proof.
  induction l as [|v l IH]; intros out h Hwf Hl; cbn [foldl length seq].
  { exists h. rewrite app_nil_r. split_and!; done || lia. }
  apply Forall_cons in Hl as [Hv Hl].
  destruct (copy_body_spec out h v Hwf Hv) as (h1 & -> & Hwf1 & Hlen1 & Hv1 & Hfr1).
  destruct (IH (out ++ [length (outer_maps h)]) h1 Hwf1) as (h2 & -> & Hwf2 & Hlen2 & Hv2 & Hfr2).
  { eapply Forall_impl; [done|]. simpl. intros; lia. }
  exists h2. rewrite Hlen1 in *. split_and!.
  - by rewrite <- app_assoc.
  - done.
  - lia.
  - unfold view_list in *. cbn [fmap list_fmap]. f_equal.
    + rewrite Hfr2 by lia. done.
    + rewrite Hv2. apply list_fmap_ext. intros i w Hw. apply Hfr1.
      eapply Forall_lookup_1 in Hl; [|done]. done.
  - intros v' Hv'. rewrite Hfr2 by lia. by apply Hfr1.
Qed.

Lemma copy_spec l h :
  heap_wf h → Forall (λ v, v < length (outer_maps h)) l →
  ∃ h', copy l h = (seq (length (outer_maps h)) (length l), h')
    ∧ heap_wf h'
    ∧ length (outer_maps h') = length (outer_maps h) + length l
    ∧ view_list h' (seq (length (outer_maps h)) (length l)) = view_list h l
    ∧ ∀ v', v' < length (outer_maps h) → view h' v' = view h v'.
Proof. intros Hwf Hl. apply (copy_fold_spec l [] h Hwf Hl). Qed.

(** *** Branching *)

Lemma view_list_frame h h' (l : pcrValuesList) n :
  Forall (λ v, v < n) l → (∀ v', v' < n → view h' v' = view h v') →
  view_list h' l = view_list h l.
Proof.
  intros Hl Hfr. apply list_fmap_ext. intros i v Hv. apply Hfr.
  by eapply Forall_lookup_1 in Hl.
Qed.

Lemma Forall_lt_seq (a n b : nat) : a + n ≤ b → Forall (λ v, v < b) (seq a n).
Proof. intros H. apply Forall_forall. intros x Hx%elem_of_seq. lia. Qed.

Lemma handleBranches_loop_spec n :
  ∀ c out cs h par vals,
  cs !! c = Some {| parent := par; values := vals |} →
  heap_wf h → Forall (λ v, v < length (outer_maps h)) vals →
  ∃ news h',
    handleBranches_loop c n out cs h = (out ++ seq (length cs) n, cs ++ news, h')
    ∧ length news = n
    ∧ heap_wf h'
    ∧ length (outer_maps h') = length (outer_maps h) + n * length vals
    ∧ (∀ v', v' < length (outer_maps h) → view h' v' = view h v')
    ∧ ∀ k ctx, news !! k = Some ctx →
        parent ctx = Some c
        ∧ values ctx = seq (length (outer_maps h) + k * length vals) (length vals)
        ∧ view_list h' (values ctx) = view_list h vals.
Proof.
  induction n as [|n IH]; intros c out cs h par vals Hc Hwf Hvals; cbn [handleBranches_loop].
  { exists [], h. rewrite !app_nil_r. split_and!; done || lia. }
  rewrite (list_lookup_total_correct _ _ _ Hc). cbn [values].
  destruct (copy_spec vals h Hwf Hvals) as (h1 & -> & Hwf1 & Hlen1 & Hv1 & Hfr1).
  set (new0 := {| parent := Some c;
                  values := seq (length (outer_maps h)) (length vals) |}).
  destruct (IH c (out ++ [length cs]) (cs ++ [new0]) h1 par vals)
    as (news & h' & -> & Hlen & Hwf' & Hlen' & Hfr' & Hnews); [| done | |].
  { rewrite lookup_app_l; [done|]. by eapply lookup_lt_Some. }
  { eapply Forall_impl; [done|]. simpl. intros; lia. }
  exists (new0 :: news), h'. split_and!.
  - rewrite length_app. simpl. rewrite <- !app_assoc. simpl.
    by rewrite Nat.add_1_r.
  - simpl. by rewrite Hlen.
  - done.
  - rewrite Hlen', Hlen1. lia.
  - intros v' Hv'. rewrite Hfr' by lia. by apply Hfr1.
  - intros [|k] ctx Hk; simpl in Hk.
    + injection Hk as <-. simpl. split_and!; [done|f_equal; lia|].
      rewrite <- Hv1. apply (view_list_frame _ _ _ (length (outer_maps h1))); [|done].
      apply Forall_lt_seq. lia.
    + destruct (Hnews k ctx Hk) as (Hp & Hvs & Hvw). split_and!; [done| |].
      * rewrite Hvs. f_equal. lia.
      * rewrite Hvw. by apply (view_list_frame _ _ _ (length (outer_maps h))).
Qed.

(** ** The two loops agree *)

Lemma groups_ok_top cs lg :
  groups_ok cs lg → ∃ c g lgs, lg = (c :: g) :: lgs.
Proof.
  destruct lg as [|[|c g] lgs]; simpl; [done| |by eauto].
  destruct lgs; [intros (c & ? & _); done|intros (? & _); done].
Qed.

Lemma abs_groups_ext cs h cs' h' lg :
  (∀ c, c ∈ mjoin lg → abs_ctx cs' h' c = abs_ctx cs h c) →
  abs_groups cs' h' lg = abs_groups cs h lg.
Proof.
  intros Hext. apply list_fmap_ext. intros i g Hg.
  apply list_fmap_ext. intros j c Hc. apply Hext.
  apply list_elem_of_join. exists g. split.
  - by eapply list_elem_of_lookup_2.
  - by eapply list_elem_of_lookup_2.
Qed.

Lemma groups_ok_ext cs cs' lg :
  (∀ c, c ∈ mjoin lg → parent (cs' !!! c) = parent (cs !!! c)) →
  groups_ok cs lg → groups_ok cs' lg.
Proof.
  induction lg as [|g lg IH]; [done|]. intros Hext. cbn [groups_ok].
  destruct lg as [|g' lg].
  - intros (c & -> & Hc). exists c. split; [done|]. rewrite Hext; [done|].
    simpl. by left.
  - intros (Hne & (p & Hp & Hall) & Hok). split_and!; [done| |].
    + exists p. split; [done|]. intros c Hc. rewrite Hext; [by apply Hall|].
      cbn [mjoin list_join]. apply elem_of_app. by left.
    + apply IH; [|done]. intros c Hc. apply Hext. cbn [mjoin list_join] in *.
      apply elem_of_app. by right.
Qed.

Lemma live_ext cs cs' s :
  (∀ c, c ∈ s → values (cs' !!! c) = values (cs !!! c)) →
  live cs' s = live cs s.
Proof.
  intros Hext. unfold live. f_equal. apply list_fmap_ext. intros i c Hc.
  apply Hext. by eapply list_elem_of_lookup_2.
Qed.

Lemma elem_of_live cs s v :
  v ∈ live cs s ↔ ∃ c, c ∈ s ∧ v ∈ values (cs !!! c).
Proof.
  unfold live. rewrite list_elem_of_join. split.
  - intros (l & Hv & (c & -> & Hc)%list_elem_of_fmap). eauto.
  - intros (c & Hc & Hv). exists (values (cs !!! c)). split; [done|].
    apply list_elem_of_fmap. eauto.
Qed.

Lemma live_cons cs c s : live cs (c :: s) = values (cs !!! c) ++ live cs s.
Proof. done. Qed.

Lemma live_app cs s1 s2 : live cs (s1 ++ s2) = live cs s1 ++ live cs s2.
Proof. unfold live. by rewrite fmap_app, join_app. Qed.

(** An update of the objects of the top context. *)
Lemma related_update lg m pm c g lgs G iter' h' :
  related lg m pm → lg = (c :: g) :: lgs →
  heap_wf h' →
  length (outer_maps h') = length (outer_maps (m_heap m)) →
  view_list h' (values (m_ctxs m !!! c))
    = G <$> view_list (m_heap m) (values (m_ctxs m !!! c)) →
  (∀ v', v' ∉ values (m_ctxs m !!! c) → view h' v' = view (m_heap m) v') →
  ∃ top pg pgs, p_groups pm = (top :: pg) :: pgs ∧
    related lg (Machine iter' (m_contexts m) (m_ctxs m) h')
               (PMachine iter' (((G <$> top) :: pg) :: pgs)).
Proof.
  intros [Hiter Hstack Hgroups Hwf Hnd Hcv Hvv Hlive Hpar] -> Hwf' Hlen' Hview Hframe.
  exists (abs_ctx (m_ctxs m) (m_heap m) c),
         (abs_ctx (m_ctxs m) (m_heap m) <$> g),
         (abs_groups (m_ctxs m) (m_heap m) lgs).
  split; [done|].
  assert (Hrest : ∀ c', c' ∈ mjoin (g :: lgs) →
            abs_ctx (m_ctxs m) h' c' = abs_ctx (m_ctxs m) (m_heap m) c').
  { intros c' Hc'. unfold abs_ctx. apply list_fmap_ext. intros i v Hv.
    apply Hframe. intros Hin.
    change (mjoin ((c :: g) :: lgs)) with (c :: mjoin (g :: lgs)) in Hlive.
    rewrite live_cons in Hlive. apply NoDup_app in Hlive as (_ & Hdisj & _).
    apply (Hdisj v Hin). apply elem_of_live. exists c'. split; [done|].
    by eapply list_elem_of_lookup_2. }
  split; simpl; try done.
  - pose proof (abs_groups_ext _ _ _ _ _ Hrest) as Heq.
    unfold abs_groups in *. cbn [fmap list_fmap] in *.
    injection Heq as Heq1 Heq2.
    f_equal; [f_equal|]; symmetry; [exact Hview|exact Heq1|exact Heq2].
  - by rewrite Hlen'.
Qed.

Lemma fmap_seq_replicate {A} (f : nat → A) a n x :
  (∀ k, k < n → f (a + k) = x) → f <$> seq a n = replicate n x.
Proof.
  revert a. induction n as [|n IH]; intros a Hf; simpl; [done|]. f_equal.
  - rewrite <- (Nat.add_0_r a). apply Hf. lia.
  - apply IH. intros k Hk. replace (S a + k) with (a + S k) by lia. apply Hf. lia.
Qed.

Lemma join_values_seq L (news : list pcrProtectionProfileComputeContext) :
  ∀ a, (∀ k ctx, news !! k = Some ctx → values ctx = seq (a + k * L) L) →
  mjoin (values <$> news) = seq a (length news * L).
Proof.
  induction news as [|ctx news IH]; intros a Hn; simpl; [done|].
  rewrite seq_app. f_equal.
  - rewrite (Hn 0 ctx eq_refl). f_equal. lia.
  - apply IH. intros k ctx' Hk. rewrite (Hn (S k) ctx' Hk). f_equal. lia.
Qed.

(** The contexts after [handleBranches] on context [c]. *)
Lemma ctx_handleBranches_spec c n cs h :
  c < length cs → heap_wf h →
  Forall (λ v, v < length (outer_maps h)) (values (cs !!! c)) →
  ∃ news h',
    ctx_handleBranches c n cs h
      = (seq (length cs) n,
         alter (λ x, {| parent := parent x; values := [] |}) c (cs ++ news), h')
    ∧ length news = n
    ∧ heap_wf h'
    ∧ length (outer_maps h')
      = length (outer_maps h) + n * length (values (cs !!! c))
    ∧ (∀ v', v' < length (outer_maps h) → view h' v' = view h v')
    ∧ ∀ k ctx, news !! k = Some ctx →
        parent ctx = Some c
        ∧ values ctx = seq (length (outer_maps h) + k * length (values (cs !!! c)))
                           (length (values (cs !!! c)))
        ∧ view_list h' (values ctx) = view_list h (values (cs !!! c)).
Proof.
  intros Hc Hwf Hvals. unfold ctx_handleBranches.
  destruct (lookup_lt_is_Some_2 _ _ Hc) as [[par vals] Hctx].
  rewrite (list_lookup_total_correct _ _ _ Hctx) in *. cbn [values] in *.
  destruct (handleBranches_loop_spec n c [] cs h par vals Hctx Hwf Hvals)
    as (news & h' & -> & Hrest).
  exists news, h'. split; [done|]. exact Hrest.
Qed.

Lemma related_branch lg m pm c g lgs n iter' :
  related lg m pm → lg = (c :: g) :: lgs → 0 < n →
  ∃ s' cs' h' top pg pgs,
    stack_handleBranches (m_contexts m) n (m_ctxs m) (m_heap m) = Val (s', cs', h')
    ∧ p_groups pm = (top :: pg) :: pgs
    ∧ related (seq (length (m_ctxs m)) n :: lg) (Machine iter' s' cs' h')
        (PMachine iter' (replicate n top :: ([] :: pg) :: pgs)).
Proof.
  intros [Hiter Hstack Hgroups Hwf Hnd Hcv Hvv Hlive Hpar] -> Hn.
  destruct m as [it s cs h]. cbn [m_iter m_contexts m_ctxs m_heap] in *.
  change (mjoin ((c :: g) :: lgs)) with (c :: mjoin (g :: lgs)) in *.
  set (rest := mjoin (g :: lgs)) in *.
  apply Forall_cons in Hcv as [Hc Hrestv].
  apply NoDup_cons in Hnd as [Hcnin Hndrest].
  rewrite live_cons in Hvv, Hlive.
  apply Forall_app in Hvv as [Hvals Hrestvals].
  apply NoDup_app in Hlive as (_ & _ & Hliverest).
  destruct (ctx_handleBranches_spec c n cs h Hc Hwf Hvals)
    as (news & h' & Heq & Hlen & Hwf' & Hlen' & Hfr & Hnews).
  set (L := length (values (cs !!! c))) in *.
  set (cs' := alter (λ x, {| parent := parent x; values := [] |}) c (cs ++ news)) in *.
  assert (Hnew : ∀ k, k < n → news !! k = Some (cs' !!! (length cs + k))).
  { intros k Hk. unfold cs'. rewrite list_lookup_total_alter_ne by lia.
    rewrite lookup_total_app_r by lia.
    replace (length cs + k - length cs) with k by lia.
    apply list_lookup_lookup_total_lt. lia. }
  assert (Hold : ∀ c', c' < length cs → c' ≠ c → cs' !!! c' = cs !!! c').
  { intros c' Hc' Hne. unfold cs'. rewrite list_lookup_total_alter_ne by done.
    by apply lookup_total_app_l. }
  assert (Hctop : cs' !!! c = {| parent := parent (cs !!! c); values := [] |}).
  { unfold cs'. rewrite list_lookup_total_alter_eq by (rewrite length_app; lia).
    by rewrite lookup_total_app_l. }
  assert (Hrest_ctx : ∀ c', c' ∈ rest → cs' !!! c' = cs !!! c').
  { intros c' Hc'. apply Hold.
    - by eapply Forall_forall in Hrestv.
    - intros ->. done. }
  assert (Hrest_abs : ∀ c', c' ∈ rest → abs_ctx cs' h' c' = abs_ctx cs h c').
  { intros c' Hc'. unfold abs_ctx. rewrite Hrest_ctx by done.
    apply (view_list_frame _ _ _ (length (outer_maps h))); [|done].
    apply Forall_forall. intros v Hv.
    eapply Forall_forall in Hrestvals; [done|]. apply elem_of_live. eauto. }
  assert (Hlive_new : live cs' (seq (length cs) n) = seq (length (outer_maps h)) (n * L)).
  { unfold live. rewrite <- Hlen.
    rewrite <- (join_values_seq L news (length (outer_maps h))).
    - f_equal. apply list_eq. intros k. rewrite !list_lookup_fmap.
      destruct (decide (k < n)) as [Hk|Hk].
      + rewrite lookup_seq_lt by lia. rewrite (Hnew k Hk). done.
      + rewrite lookup_seq_ge by lia. rewrite lookup_ge_None_2 by lia. done.
    - intros k ctx Hk. by destruct (Hnews k ctx Hk) as (_ & -> & _). }
  exists (seq (length cs) n ++ c :: rest), cs', h',
    (abs_ctx cs h c), (abs_ctx cs h <$> g), (abs_groups cs h lgs).
  split_and!.
  - unfold stack_handleBranches. rewrite Hstack. cbn [stack_top result_bind].
    by rewrite Heq.
  - done.
  - split; cbn [m_iter m_contexts m_ctxs m_heap p_iter p_groups].
    + done.
    + done.
    + unfold abs_groups. cbn [fmap list_fmap]. f_equal; [|f_equal; [f_equal|]].
      * symmetry. apply fmap_seq_replicate. intros k Hk. unfold abs_ctx.
        pose proof (Hnew k Hk) as Hk'. destruct (Hnews _ _ Hk') as (_ & _ & Hv).
        exact Hv.
      * unfold abs_ctx. by rewrite Hctop.
      * symmetry. apply list_fmap_ext. intros i c' Hc'. apply Hrest_abs.
        unfold rest. cbn [mjoin list_join]. apply elem_of_app. left.
        by eapply list_elem_of_lookup_2.
      * symmetry. apply abs_groups_ext. intros c' Hc'. apply Hrest_abs.
        unfold rest. cbn [mjoin list_join]. apply elem_of_app. by right.
    + done.
    + change (NoDup (seq (length cs) n ++ c :: rest)).
      apply NoDup_app. split_and!.
      * apply NoDup_seq.
      * intros x Hx%elem_of_seq [-> | Hin]%elem_of_cons; [lia|].
        eapply Forall_forall in Hrestv; [|done]. simpl in Hrestv. lia.
      * by apply NoDup_cons.
    + change (Forall (λ c0, c0 < length cs') (seq (length cs) n ++ c :: rest)).
      assert (Hlcs : length cs' = length cs + n).
      { unfold cs'. rewrite length_alter, length_app. lia. }
      rewrite Hlcs. apply Forall_app. split.
      * apply Forall_lt_seq. lia.
      * apply Forall_cons. split; [lia|].
        eapply Forall_impl; [done|]. simpl. intros; lia.
    + change (Forall (λ v, v < length (outer_maps h'))
                (live cs' (seq (length cs) n ++ c :: rest))).
      rewrite live_app, live_cons, Hlive_new, Hctop. cbn [values app].
      rewrite (live_ext cs cs') by (intros; by rewrite Hrest_ctx).
      rewrite Hlen'. apply Forall_app. split.
      * apply Forall_lt_seq. lia.
      * eapply Forall_impl; [done|]. simpl. intros; lia.
    + change (NoDup (live cs' (seq (length cs) n ++ c :: rest))).
      rewrite live_app, live_cons, Hlive_new, Hctop. cbn [values app].
      rewrite (live_ext cs cs') by (intros; by rewrite Hrest_ctx).
      apply NoDup_app. split_and!.
      * apply NoDup_seq.
      * intros x Hx%elem_of_seq Hin.
        eapply Forall_forall in Hrestvals; [|done]. simpl in Hrestvals. lia.
      * done.
    + change (seq (length cs) n ≠ []
        ∧ (∃ p, head (c :: g) = Some p
              ∧ ∀ c0, c0 ∈ seq (length cs) n → parent (cs' !!! c0) = Some p)
        ∧ groups_ok cs' ((c :: g) :: lgs)).
      split_and!.
      * destruct n; [lia|done].
      * exists c. split; [done|]. intros c' Hc'%elem_of_seq.
        replace c' with (length cs + (c' - length cs)) by lia.
        assert (Hk : c' - length cs < n) by lia.
        pose proof (Hnew _ Hk) as Hk'. by destruct (Hnews _ _ Hk') as (? & _).
      * eapply groups_ok_ext; [|done]. intros c' Hc'.
        change (mjoin ((c :: g) :: lgs)) with (c :: rest) in Hc'.
        apply elem_of_cons in Hc' as [-> | Hc'].
        -- by rewrite Hctop.
        -- by rewrite Hrest_ctx.
Qed.

Lemma join_push_group {A} (g : list A) (X : list (list A)) :
  mjoin (push_group g X) = g ++ mjoin X.
Proof. by destruct g. Qed.

Lemma abs_groups_push_group cs h g X :
  abs_groups cs h (push_group g X)
  = push_group (abs_ctx cs h <$> g) (abs_groups cs h X).
Proof. by destruct g. Qed.

Lemma related_end lg m pm c g lgs iter' :
  related lg m pm → lg = (c :: g) :: lgs →
  (isRoot c (m_ctxs m) = true ∧ g = [] ∧ lgs = []
     ∧ p_groups pm = [[abs_ctx (m_ctxs m) (m_heap m) c]])
  ∨ (isRoot c (m_ctxs m) = false
     ∧ ∃ s' cs' lg' top pg par pg' pgs',
         stack_finishBranch (m_contexts m) (m_ctxs m) = Val (s', cs')
         ∧ p_groups pm = (top :: pg) :: (par :: pg') :: pgs'
         ∧ related lg' (Machine iter' s' cs' (m_heap m))
             (PMachine iter' (push_group pg (((par ++ top) :: pg') :: pgs')))).
Proof.
  intros [Hiter Hstack Hgroups Hwf Hnd Hcv Hvv Hlive Hpar] ->.
  destruct m as [it s cs h]. cbn [m_iter m_contexts m_ctxs m_heap] in *.
  destruct lgs as [|g2 lgs'].
  { left. destruct Hpar as (c0 & [= -> ->] & Hroot).
    split_and!; try done. unfold isRoot. by apply bool_decide_eq_true. }
  right. destruct Hpar as (_ & (p & Hhead & Hparents) & Hok).
  destruct g2 as [|p' g']; [done|]. injection Hhead as ->.
  assert (Hcp : parent (cs !!! c) = Some p) by (apply Hparents; left).
  split.
  { unfold isRoot. apply bool_decide_eq_false. by rewrite Hcp. }
  set (R := g' ++ mjoin lgs').
  assert (Hs : s = c :: g ++ p :: R).
  { rewrite Hstack. cbn [mjoin list_join]. by rewrite <- ?app_assoc. }
  assert (HJ : mjoin ((c :: g) :: (p :: g') :: lgs') = c :: g ++ p :: R).
  { cbn [mjoin list_join]. by rewrite <- ?app_assoc. }
  rewrite HJ in *. clear HJ.
  set (cs' := alter (λ x, {| parent := parent x;
                             values := values x ++ values (cs !!! c) |}) p cs).
  apply NoDup_cons in Hnd as [Hcnin Hnd].
  assert (Hpc : p ≠ c).
  { intros ->. apply Hcnin. apply elem_of_app. right. by left. }
  apply NoDup_app in Hnd as (Hndg & Hdisj & [Hpnin HndR]%NoDup_cons).
  assert (Hplt : p < length cs).
  { eapply Forall_forall in Hcv; [exact Hcv|]. right. apply elem_of_app. right. by left. }
  assert (Hp' : cs' !!! p = {| parent := parent (cs !!! p);
                               values := values (cs !!! p) ++ values (cs !!! c) |}).
  { unfold cs'. by rewrite list_lookup_total_alter_eq. }
  assert (Hother : ∀ c', c' ≠ p → cs' !!! c' = cs !!! c').
  { intros c' Hne. unfold cs'. by rewrite list_lookup_total_alter_ne. }
  assert (Hg : ∀ c', c' ∈ g → c' ≠ p).
  { intros c' Hc' ->. apply (Hdisj p Hc'). by left. }
  assert (HR : ∀ c', c' ∈ R → c' ≠ p) by (by intros c' Hc' ->).
  assert (Hparent' : ∀ c', parent (cs' !!! c') = parent (cs !!! c')).
  { intros c'. destruct (decide (c' = p)) as [->|Hne].
    - by rewrite Hp'.
    - by rewrite Hother. }
  assert (Hlive' : live cs' (g ++ p :: R)
                   = live cs g ++ (values (cs !!! p) ++ values (cs !!! c)) ++ live cs R).
  { rewrite live_app, live_cons, Hp'. cbn [values].
    rewrite (live_ext cs cs' g) by (intros; rewrite Hother; auto).
    rewrite (live_ext cs cs' R) by (intros; rewrite Hother; auto). done. }
  assert (Hperm : live cs (c :: g ++ p :: R) ≡ₚ live cs' (g ++ p :: R)).
  { rewrite Hlive', live_cons, live_app, live_cons. solve_Permutation. }
  exists (g ++ p :: R), cs', (push_group g ((p :: g') :: lgs')),
    (abs_ctx cs h c), (abs_ctx cs h <$> g), (abs_ctx cs h p),
    (abs_ctx cs h <$> g'), (abs_groups cs h lgs').
  split_and!.
  - unfold stack_finishBranch, ctx_finishBranch. rewrite Hs.
    cbn [stack_top result_bind tail]. rewrite Hcp. done.
  - done.
  - split; cbn [m_iter m_contexts m_ctxs m_heap p_iter p_groups].
    + done.
    + rewrite join_push_group. cbn [mjoin list_join]. by rewrite <- ?app_assoc.
    + rewrite abs_groups_push_group. f_equal.
      * symmetry. apply list_fmap_ext. intros i c' Hc'. unfold abs_ctx.
        rewrite Hother; [done|]. apply Hg. by eapply list_elem_of_lookup_2.
      * unfold abs_groups. cbn [fmap list_fmap]. f_equal; [f_equal|].
        -- unfold abs_ctx, view_list. rewrite Hp'. cbn [values]. by rewrite fmap_app.
        -- symmetry. apply list_fmap_ext. intros i c' Hc'. unfold abs_ctx.
           rewrite Hother; [done|]. apply HR. unfold R. apply elem_of_app. left.
           by eapply list_elem_of_lookup_2.
        -- symmetry. apply abs_groups_ext. intros c' Hc'. unfold abs_ctx.
           rewrite Hother; [done|]. apply HR. unfold R. apply elem_of_app. by right.
    + done.
    + rewrite join_push_group. cbn [mjoin list_join]. rewrite <- ?app_assoc.
      apply NoDup_app. split_and!; [done|done|]. by apply NoDup_cons.
    + rewrite join_push_group. cbn [mjoin list_join]. rewrite <- ?app_assoc.
      unfold cs'. rewrite length_alter. by apply Forall_cons in Hcv as [_ ?].
    + rewrite join_push_group.
      change (mjoin ((p :: g') :: lgs')) with (p :: R).
      by rewrite <- Hperm.
    + rewrite join_push_group.
      change (mjoin ((p :: g') :: lgs')) with (p :: R).
      by rewrite <- Hperm.
    + assert (Hok' : groups_ok cs' ((p :: g') :: lgs')).
      { eapply groups_ok_ext; [|exact Hok]. intros; apply Hparent'. }
      destruct g as [|c2 g2]; [exact Hok'|].
      change (c2 :: g2 ≠ []
        ∧ (∃ q, head (p :: g') = Some q
              ∧ ∀ c0, c0 ∈ c2 :: g2 → parent (cs' !!! c0) = Some q)
        ∧ groups_ok cs' ((p :: g') :: lgs')).
      split_and!; [done| |done].
      exists p. split; [done|]. intros c0 Hc0. rewrite Hparent'.
      apply Hparents. by right.
Qed.

Lemma next_loop_branch cur rest ps it' :
  next_loop cur rest = (Instr (AddProfileORInstr ps), it') →
  0 < length ps ∧ ∃ cur', it' = descendInToProfiles (cur' :: rest) ps.
Proof.
  induction cur as [|i cur IH]; simpl; [done|].
  destruct i as [| | |[|q qs]]; try done; try (by intros [= <- <-]).
  intros [= <- <-]. split; [simpl; lia|]. by eexists.
Qed.

Lemma related_top_values c g lgs m pm :
  related ((c :: g) :: lgs) m pm →
  m_contexts m = c :: mjoin (g :: lgs)
  ∧ Forall (λ v, v < length (outer_maps (m_heap m))) (values (m_ctxs m !!! c))
  ∧ NoDup (values (m_ctxs m !!! c)).
Proof.
  intros [Hiter Hstack Hgroups Hwf Hnd Hcv Hvv Hlive Hpar].
  change (mjoin ((c :: g) :: lgs)) with (c :: mjoin (g :: lgs)) in *.
  rewrite live_cons in Hvv, Hlive.
  apply Forall_app in Hvv as [? _]. apply NoDup_app in Hlive as (? & _ & _).
  done.
Qed.

(** One turn of the loop on objects is one turn of the loop on values. *)
Lemma step_related tpm lg m pm :
  related lg m pm →
  match step tpm m, pstep tpm pm with
  | Continue m', PContinue pm' => ∃ lg', related lg' m' pm'
  | Done r, PDone r' => computed_values r = r'
  | _, _ => False
  end.
Proof.
  intros Hrel.
  destruct (groups_ok_top _ _ (rel_parents _ _ _ Hrel)) as (c & g & lgs & ->).
  destruct (related_top_values _ _ _ _ _ Hrel) as (Hs & Hvalid & Hnd).
  pose proof (rel_wf _ _ _ Hrel) as Hwf.
  unfold step, pstep. rewrite <- (rel_iter _ _ _ Hrel).
  destruct (next (m_iter m)) as [[item iter']| | |] eqn:Hnext;
    cbn [step_bind pstep_bind]; try done.
  rewrite Hs. cbn [stack_top step_bind].
  destruct item as [[a r d|a r|a r d|ps]|].
  - destruct (setValue_spec _ a r d _ Hwf Hvalid Hnd) as (Hwf' & Hlen' & Hv' & Hfr').
    destruct (related_update _ _ _ c g lgs (set_pcr a r d) iter' _ Hrel eq_refl
                Hwf' Hlen' Hv' Hfr') as (top & pg & pgs & Hpg & Hrel').
    rewrite Hpg. cbn [ptop pstep_bind]. rewrite Hs in Hrel'. eauto.
  - destruct (read_from_tpm tpm a r) as [d| | |]; cbn [step_bind pstep_bind]; try done.
    destruct (setValue_spec _ a r d _ Hwf Hvalid Hnd) as (Hwf' & Hlen' & Hv' & Hfr').
    destruct (related_update _ _ _ c g lgs (set_pcr a r d) iter' _ Hrel eq_refl
                Hwf' Hlen' Hv' Hfr') as (top & pg & pgs & Hpg & Hrel').
    rewrite Hpg. cbn [ptop pstep_bind]. rewrite Hs in Hrel'. eauto.
  - destruct (extendValue_spec _ a r d _ Hwf Hvalid Hnd) as (Hwf' & Hlen' & Hv' & Hfr').
    destruct (related_update _ _ _ c g lgs (extend_pcr a r d) iter' _ Hrel eq_refl
                Hwf' Hlen' Hv' Hfr') as (top & pg & pgs & Hpg & Hrel').
    rewrite Hpg. cbn [ptop pstep_bind]. rewrite Hs in Hrel'. eauto.
  - assert (Hn : 0 < length ps).
    { unfold next in Hnext. destruct (m_iter m); [done|].
      injection Hnext as Hnext. by apply next_loop_branch in Hnext as [? _]. }
    destruct (related_branch _ _ _ c g lgs (length ps) iter' Hrel eq_refl Hn)
      as (s' & cs' & h' & top & pg & pgs & Heq & Hpg & Hrel').
    rewrite Hs in Heq. rewrite Heq, Hpg. cbn [ptop step_bind pstep_bind]. eauto.
  - destruct (related_end _ _ _ c g lgs iter' Hrel eq_refl)
      as [(Hroot & -> & -> & Hpg)
         |(Hroot & s' & cs' & lg' & top & pg & par & pg' & pgs' & Heq & Hpg & Hrel')].
    + rewrite Hroot, Hpg. cbn [ptop pstep_bind]. done.
    + rewrite Hroot. rewrite Hs in Heq. rewrite Heq, Hpg.
      cbn [ptop step_bind pstep_bind]. eauto.
Qed.

Lemma run_related tpm fuel :
  ∀ lg m pm, related lg m pm →
  computed_values (run fuel tpm m) = prun fuel tpm pm.
Proof.
  induction fuel as [|fuel IH]; intros lg m pm Hrel; [done|].
  pose proof (step_related tpm lg m pm Hrel) as Hstep. cbn [run prun].
  destruct (step tpm m) as [m'|r], (pstep tpm pm) as [pm'|r']; try done.
  destruct Hstep as [lg' Hrel']. by eapply IH.
Qed.

Lemma related_initial p : related [[0]] (initial p) (pinitial p).
Proof.
  split; cbn; try done.
  - split.
    + intros v a i. unfold bank_ref. simpl.
      destruct v as [|v]; simpl; [by rewrite lookup_empty|done].
    + intros v1 v2 a1 a2 i. unfold bank_ref. simpl.
      destruct v1 as [|v1]; simpl; [by rewrite lookup_empty|done].
  - apply NoDup_singleton.
  - repeat constructor.
  - repeat constructor.
  - apply NoDup_singleton.
  - by exists 0.
Qed.

(** [ComputePCRValues] returns the values the loop on values returns. *)
Lemma ComputePCRValues_prun tpm p :
  computed_values (ComputePCRValues tpm p)
  = prun (profile_size p) tpm (pinitial p).
Proof. apply (run_related _ _ _ _ _ (related_initial p)). Qed.

(** ** The loop on values computes the paths of the profile *)

Lemma eval_instr_branch tpm ps vs :
  eval_instr tpm (AddProfileORInstr ps) vs
  = match ps with [] => Val vs | _ :: _ => eval_branches tpm ps vs end.
Proof.
  assert (Hseq : ∀ k ws,
    (fix seq (k : list pcrProtectionProfileInstr) (ws : list PCRValues) :=
       match k with
       | [] => Val ws
       | j :: k' => result_bind (eval_instr tpm j ws) (seq k')
       end) k ws = eval_instrs tpm k ws).
  { induction k as [|j k IH]; intros ws; simpl; [done|].
    destruct (eval_instr tpm j ws); simpl; auto. }
  assert (Hbr : ∀ qs,
    (fix branches (ps : list (list pcrProtectionProfileInstr)) :=
       match ps with
       | [] => Val []
       | p :: ps' =>
           result_bind
             ((fix seq (k : list pcrProtectionProfileInstr) (ws : list PCRValues) :=
                 match k with
                 | [] => Val ws
                 | j :: k' => result_bind (eval_instr tpm j ws) (seq k')
                 end) p vs)
             (λ r1, result_bind (branches ps') (λ r2, Val (r1 ++ r2)))
       end) qs = eval_branches tpm qs vs).
  { induction qs as [|p qs IH]; [reflexivity|]. cbn [eval_branches].
    rewrite Hseq. destruct (eval_instrs tpm p vs); simpl; try done.
    by rewrite IH. }
  destruct ps as [|p ps]; [done|]. apply (Hbr (p :: ps)).
Qed.

Lemma eval_instrs_app tpm k1 k2 vs :
  eval_instrs tpm (k1 ++ k2) vs
  = result_bind (eval_instrs tpm k1 vs) (eval_instrs tpm k2).
Proof.
  revert vs. induction k1 as [|i k1 IH]; intros vs; simpl; [done|].
  destruct (eval_instr tpm i vs); simpl; auto.
Qed.

Section Reaches.
Context (tpm : option TPMContext).

Lemma reaches_refl s : reaches tpm 0 s s.
Proof. by intros f. Qed.

Lemma reaches_pstep k s s0 s' :
  pstep tpm s = pstep tpm s0 → reaches tpm k s0 s' → reaches tpm k s s'.
Proof.
  intros Heq Hr f. rewrite <- Hr. rewrite Nat.add_succ_r. cbn [prun]. by rewrite Heq.
Qed.

Lemma reaches_step k s s1 s' :
  pstep tpm s = PContinue s1 → reaches tpm k s1 s' → reaches tpm (S k) s s'.
Proof. intros Hs Hr f. cbn [Nat.add prun]. rewrite Hs. apply Hr. Qed.

Lemma reaches_trans k1 k2 s s1 s2 :
  reaches tpm k1 s s1 → reaches tpm k2 s1 s2 → reaches tpm (k1 + k2) s s2.
Proof.
  intros H1 H2 f. rewrite <- H2.
  replace (k1 + k2 + S f) with (k1 + S (k2 + f)) by lia.
  rewrite H1. f_equal. lia.
Qed.

Lemma fails_positive k s e : fails tpm k s e → 0 < k.
Proof. intros Hf. destruct k; [|lia]. by specialize (Hf 0). Qed.

Lemma fails_pstep k s s0 e :
  pstep tpm s = pstep tpm s0 → fails tpm k s0 e → fails tpm k s e.
Proof.
  intros Heq Hf f. pose proof (fails_positive _ _ _ Hf) as Hk.
  rewrite <- (Hf f). destruct k; [lia|]. cbn [Nat.add prun]. by rewrite Heq.
Qed.

Lemma fails_now s e : pstep tpm s = PDone (Fail e) → fails tpm 1 s e.
Proof. intros Hs f. cbn [Nat.add prun]. by rewrite Hs. Qed.

Lemma fails_step k s s1 e :
  pstep tpm s = PContinue s1 → fails tpm k s1 e → fails tpm (S k) s e.
Proof. intros Hs Hf f. cbn [Nat.add prun]. rewrite Hs. apply Hf. Qed.

Lemma reaches_fails k1 k2 s s1 e :
  reaches tpm k1 s s1 → fails tpm k2 s1 e → fails tpm (k1 + k2) s e.
Proof.
  intros Hr Hf f. pose proof (fails_positive _ _ _ Hf) as Hk.
  destruct k2 as [|k2]; [lia|].
  replace (k1 + S k2 + f) with (k1 + S (k2 + f)) by lia.
  rewrite Hr. apply (Hf f).
Qed.

(** The sub-branches [q :: qs] still to be run, all from the values [V];
    [acc] holds the values of the sub-branches already finished. *)
Lemma branches_ok q qs :
  Forall (level_ok tpm) (q :: qs) →
  ∀ V acc cur' rest g gs,
    match eval_branches tpm (q :: qs) V with
    | Val r =>
        ∃ k, k ≤ branches_size (q :: qs)
          ∧ reaches tpm k
              (PMachine ((q :: qs) ++ cur' :: rest)
                 (replicate (length (q :: qs)) V :: (acc :: g) :: gs))
              (PMachine (cur' :: rest) (((acc ++ r) :: g) :: gs))
    | Fail e =>
        ∃ k, k ≤ branches_size (q :: qs)
          ∧ fails tpm k
              (PMachine ((q :: qs) ++ cur' :: rest)
                 (replicate (length (q :: qs)) V :: (acc :: g) :: gs)) e
    | _ => False
    end.
Proof.
  revert q. induction qs as [|q' qs IH]; intros q Hok V acc cur' rest g gs.
  - apply Forall_cons in Hok as [Hq _]. cbn [eval_branches].
    specialize (Hq (cur' :: rest) V [] ((acc :: g) :: gs)).
    unfold branches_size. cbn [map list_sum length replicate app].
    destruct (eval_instrs tpm q V) as [r1|e| |]; cbn [result_bind]; try done.
    + destruct Hq as (k & Hk & Hr). exists (k + 1). split; [simpl in *; lia|].
      eapply reaches_trans; [exact Hr|].
      eapply reaches_step; [|apply reaches_refl].
      by rewrite app_nil_r.
    + destruct Hq as (k & Hk & Hf). exists k. split; [simpl in *; lia|done].
  - apply Forall_cons in Hok as [Hq Hok].
    change (eval_branches tpm (q :: q' :: qs) V) with
      (result_bind (eval_instrs tpm q V) (λ r1,
         result_bind (eval_branches tpm (q' :: qs) V) (λ r2, Val (r1 ++ r2)))).
    specialize (Hq ((q' :: qs) ++ cur' :: rest) V
                   (replicate (length (q' :: qs)) V) ((acc :: g) :: gs)).
    assert (Hsz : branches_size (q :: q' :: qs)
                  = S (list_sum (map instr_size q)) + branches_size (q' :: qs)) by done.
    destruct (eval_instrs tpm q V) as [r1|e| |]; cbn [result_bind]; try done.
    + destruct Hq as (k1 & Hk1 & Hr1).
      specialize (IH q' Hok V (acc ++ r1) cur' rest g gs).
      assert (Hstep : reaches tpm (k1 + 1)
        (PMachine ((q :: q' :: qs) ++ cur' :: rest)
           (replicate (length (q :: q' :: qs)) V :: (acc :: g) :: gs))
        (PMachine ((q' :: qs) ++ cur' :: rest)
           (replicate (length (q' :: qs)) V :: ((acc ++ r1) :: g) :: gs))).
      { eapply reaches_trans; [exact Hr1|].
        eapply reaches_step; [|apply reaches_refl]. done. }
      destruct (eval_branches tpm (q' :: qs) V) as [r2|e| |]; cbn [result_bind]; try done.
      * destruct IH as (k2 & Hk2 & Hr2). exists ((k1 + 1) + k2). split; [lia|].
        rewrite app_assoc. by eapply reaches_trans.
      * destruct IH as (k2 & Hk2 & Hf2). exists ((k1 + 1) + k2). split; [lia|].
        by eapply reaches_fails.
    + destruct Hq as (k & Hk & Hf). exists k. split; [lia|done].
Qed.

Lemma instr_size_positive i : 0 < instr_size i.
Proof. destruct i; simpl; lia. Qed.

Lemma read_from_tpm_result a r :
  (∃ d, read_from_tpm tpm a r = Val d) ∨ (∃ e, read_from_tpm tpm a r = Fail e).
Proof.
  unfold read_from_tpm. destruct tpm as [t|]; [|by eauto].
  destruct (PCRRead t a r); eauto.
Qed.

Lemma instrs_size_cons i cur :
  list_sum (map instr_size (i :: cur)) = instr_size i + list_sum (map instr_size cur).
Proof. done. Qed.

Lemma level_ok_all n : ∀ cur, list_sum (map instr_size cur) ≤ n → level_ok tpm cur.
Proof.
  induction n as [|n IH]; intros cur Hsz.
  { destruct cur as [|i cur]; rewrite ?instrs_size_cons in Hsz.
    - intros rest top g gs. exists 0. split; [done|apply reaches_refl].
    - pose proof (instr_size_positive i). lia. }
  destruct cur as [|i cur'].
  { intros rest top g gs. exists 0. split; [simpl; lia|apply reaches_refl]. }
  rewrite instrs_size_cons in Hsz. pose proof (instr_size_positive i) as Hi.
  assert (Hcur' : level_ok tpm cur') by (apply IH; lia).
  intros rest top g gs. cbn [eval_instrs]. rewrite instrs_size_cons.
  assert (Hsimple : ∀ top1,
    instr_size i = 1 →
    pstep tpm (PMachine ((i :: cur') :: rest) ((top :: g) :: gs))
      = PContinue (PMachine (cur' :: rest) ((top1 :: g) :: gs)) →
    eval_instr tpm i top = Val top1 →
    match result_bind (Val top1) (eval_instrs tpm cur') with
    | Val top' =>
        ∃ k, k ≤ instr_size i + list_sum (map instr_size cur')
          ∧ reaches tpm k (PMachine ((i :: cur') :: rest) ((top :: g) :: gs))
                      (PMachine ([] :: rest) ((top' :: g) :: gs))
    | Fail e =>
        ∃ k, k ≤ instr_size i + list_sum (map instr_size cur')
          ∧ fails tpm k (PMachine ((i :: cur') :: rest) ((top :: g) :: gs)) e
    | _ => False
    end).
  { intros top1 Hone Hstep _. cbn [result_bind].
    specialize (Hcur' rest top1 g gs).
    destruct (eval_instrs tpm cur' top1) as [top'|e| |]; try done.
    - destruct Hcur' as (k & Hk & Hr). exists (S k). split; [lia|].
      by eapply reaches_step.
    - destruct Hcur' as (k & Hk & Hf). exists (S k). split; [lia|].
      by eapply fails_step. }
  destruct i as [a r d|a r|a r d|ps].
  - apply (Hsimple (set_pcr a r d <$> top)); done.
  - cbn [eval_instr]. destruct (read_from_tpm_result a r) as [[d Hd]|[e He]].
    + rewrite Hd. cbn [result_map result_bind].
      apply (Hsimple (set_pcr a r d <$> top)); [done| |].
      * unfold pstep. cbn [p_iter next next_loop pstep_bind]. rewrite Hd. done.
      * cbn [eval_instr]. by rewrite Hd.
    + rewrite He. cbn [result_map result_bind]. exists 1. split; [simpl; lia|].
      apply fails_now. unfold pstep. cbn [p_iter next next_loop pstep_bind].
      by rewrite He.
  - apply (Hsimple (extend_pcr a r d <$> top)); done.
  - rewrite eval_instr_branch. destruct ps as [|q qs].
    + cbn [result_bind]. specialize (Hcur' rest top g gs).
      destruct (eval_instrs tpm cur' top) as [top'|e| |]; try done.
      * destruct Hcur' as (k & Hk & Hr). exists k. split; [lia|].
        eapply reaches_pstep; [|exact Hr]. done.
      * destruct Hcur' as (k & Hk & Hf). exists k. split; [lia|].
        eapply fails_pstep; [|exact Hf]. done.
    + assert (Hsubs : Forall (level_ok tpm) (q :: qs)).
      { apply Forall_forall. intros p Hp. apply IH.
        cbn [instr_size] in Hsz.
        assert (S (list_sum (map instr_size p))
                ≤ list_sum (map (λ p, S (list_sum (map instr_size p))) (q :: qs))).
        { clear -Hp. induction Hp as [p l|p p' l Hp IHp]; simpl in *; lia. }
        lia. }
      pose proof (branches_ok q qs Hsubs top [] cur' rest g gs) as Hb.
      assert (Hstep : pstep tpm (PMachine ((AddProfileORInstr (q :: qs) :: cur') :: rest)
                                   ((top :: g) :: gs))
        = PContinue (PMachine ((q :: qs) ++ cur' :: rest)
            (replicate (length (q :: qs)) top :: ([] :: g) :: gs))) by done.
      change (instr_size (AddProfileORInstr (q :: qs)))
        with (S (branches_size (q :: qs))).
      destruct (eval_branches tpm (q :: qs) top) as [r|e| |]; cbn [result_bind]; try done.
      * destruct Hb as (kb & Hkb & Hrb). cbn [app] in Hrb.
        specialize (Hcur' rest r g gs).
        destruct (eval_instrs tpm cur' r) as [top'|e| |]; try done.
        -- destruct Hcur' as (k & Hk & Hr). exists (S (kb + k)). split; [lia|].
           eapply reaches_step; [exact Hstep|]. by eapply reaches_trans.
        -- destruct Hcur' as (k & Hk & Hf). exists (S (kb + k)). split; [lia|].
           eapply fails_step; [exact Hstep|]. by eapply reaches_fails.
      * destruct Hb as (kb & Hkb & Hfb). exists (S kb). split; [lia|].
        by eapply fails_step.
Qed.

End Reaches.

(** The loop on values returns the paths of the profile. *)
Lemma prun_profile_paths tpm p :
  prun (profile_size p) tpm (pinitial p) = profile_paths tpm p.
Proof.
  pose proof (level_ok_all tpm _ p (Nat.le_refl _) [] [∅] [] []) as H.
  unfold profile_paths. unfold pinitial, traverseInstructions, descendInToProfiles.
  cbn [app]. unfold profile_size.
  destruct (eval_instrs tpm p [∅]) as [top'|e| |]; try done.
  - destruct H as (k & Hk & Hr).
    replace (S (list_sum (map instr_size p)))
      with (k + S (list_sum (map instr_size p) - k)) by lia.
    by rewrite Hr.
  - destruct H as (k & Hk & Hf).
    replace (S (list_sum (map instr_size p)))
      with (k + (S (list_sum (map instr_size p)) - k)) by lia.
    by rewrite Hf.
Qed.

(** [ComputePCRValues] returns the paths of the profile: it does not
    panic, and the bound on the number of turns is never reached. *)
Lemma ComputePCRValues_paths tpm p :
  computed_values (ComputePCRValues tpm p) = profile_paths tpm p.
Proof. by rewrite ComputePCRValues_prun, prun_profile_paths. Qed.

(** ** Profiles without branches, and with one branch *)

Lemma instr_nested_ind (P : pcrProtectionProfileInstr → Prop) :
  (∀ a r d, P (AddPCRValueInstr a r d)) →
  (∀ a r, P (AddPCRValueFromTPMInstr a r)) →
  (∀ a r d, P (ExtendPCRInstr a r d)) →
  (∀ ps, Forall (Forall P) ps → P (AddProfileORInstr ps)) →
  ∀ i, P i.
Proof.
  intros Hadd Htpm Hext Hor. fix IH 1.
  intros [a r d|a r|a r d|ps]; [apply Hadd|apply Htpm|apply Hext|].
  apply Hor. induction ps as [|p ps IHps]; constructor; [|exact IHps].
  induction p as [|i p IHp]; constructor; [apply IH|exact IHp].
Qed.

Lemma mapM_Val {A B} (f : A → result B) l l' :
  mapM f l = Val l' ↔ Forall2 (λ a b, f a = Val b) l l'.
Proof.
  revert l'. induction l as [|a l IH]; intros l'; simpl.
  - split; [intros [= <-]; constructor|by intros ->%Forall2_nil_inv_l].
  - split.
    + destruct (f a) as [b| | |] eqn:Ea; simpl; try done.
      destruct (mapM f l) as [bs| | |] eqn:El; simpl; try done.
      intros [= <-]. constructor; [done|]. by apply IH.
    + intros (b & bs & Hb & Hbs & ->)%Forall2_cons_inv_l.
      rewrite Hb. simpl. apply IH in Hbs. by rewrite Hbs.
Qed.

Lemma seq_apply_app tpm k1 k2 v :
  seq_apply tpm (k1 ++ k2) v = result_bind (seq_apply tpm k1 v) (seq_apply tpm k2).
Proof.
  revert v. induction k1 as [|i k1 IH]; intros v; simpl; [done|].
  destruct (apply_instr tpm i v); simpl; auto.
Qed.

Lemma simple_app k1 k2 : simple (k1 ++ k2) = simple k1 && simple k2.
Proof. unfold simple. apply forallb_app. Qed.

(** On branch-free instructions the paths stay apart: each is the
    sequential application of the instructions to one starting value. *)
Lemma eval_simple tpm k :
  simple k = true → ∀ vs, vs ≠ [] →
  eval_instrs tpm k vs = mapM (seq_apply tpm k) vs.
Proof.
  induction k as [|i k IH]; intros Hs vs Hne.
  { simpl. induction vs as [|v vs IHvs]; [done|]. simpl.
    destruct vs as [|v' vs]; [done|]. by rewrite <- IHvs. }
  simpl in Hs. apply andb_true_iff in Hs as [Hi Hk]. cbn [eval_instrs].
  assert (Hmap : ∀ (G : PCRValues → PCRValues),
    (∀ v, apply_instr tpm i v = Val (G v)) →
    eval_instrs tpm k (G <$> vs) = mapM (seq_apply tpm (i :: k)) vs).
  { intros G HG. rewrite IH; [|done|by destruct vs].
    clear Hne. induction vs as [|v vs IHvs]; [done|].
    cbn [fmap list_fmap mapM seq_apply]. rewrite HG. cbn [result_bind].
    destruct (seq_apply tpm k (G v)); cbn [result_bind]; try done.
    by rewrite IHvs. }
  destruct i as [a r d|a r|a r d|ps]; [| | |done].
  - cbn [eval_instr result_bind]. by apply Hmap.
  - cbn [eval_instr]. destruct (read_from_tpm tpm a r) as [d|e| |] eqn:Hr;
      cbn [result_map result_bind].
    + apply Hmap. intros v. cbn [apply_instr]. by rewrite Hr.
    + destruct vs as [|v vs]; [done|]. cbn [mapM seq_apply apply_instr].
      by rewrite Hr.
    + destruct vs as [|v vs]; [done|]. cbn [mapM seq_apply apply_instr].
      by rewrite Hr.
    + destruct vs as [|v vs]; [done|]. cbn [mapM seq_apply apply_instr].
      by rewrite Hr.
  - cbn [eval_instr result_bind]. by apply Hmap.
Qed.

Lemma eval_simple_one tpm k v :
  simple k = true →
  eval_instrs tpm k [v] = result_map (λ v', [v']) (seq_apply tpm k v).
Proof.
  intros Hs. rewrite eval_simple by done. simpl.
  by destruct (seq_apply tpm k v).
Qed.

Lemma eval_branches_simple tpm ps v :
  Forall (λ p, simple p = true) ps →
  eval_branches tpm ps [v] = mapM (λ p, seq_apply tpm p v) ps.
Proof.
  induction 1 as [|p ps Hp Hps IH]; [done|]. cbn [eval_branches mapM].
  rewrite eval_simple_one by done. rewrite IH.
  destruct (seq_apply tpm p v); cbn [result_map result_bind]; try done.
Qed.

Lemma eval_instrs_result tpm k vs :
  (∃ vs', eval_instrs tpm k vs = Val vs') ∨ (∃ e, eval_instrs tpm k vs = Fail e).
Proof.
  pose proof (level_ok_all tpm _ k (Nat.le_refl _) [] vs [] []) as H.
  destruct (eval_instrs tpm k vs); [by eauto|by eauto|done|done].
Qed.

Lemma pcr_lookup_extend_pcr a r d (v : PCRValues) :
  pcr_lookup (extend_pcr a r d v) a r
  = Some (alg_hash a (default (replicate (alg_size a) x00) (pcr_lookup v a r) ++ d)).
Proof. apply pcr_lookup_set_pcr. Qed.

Lemma pcr_lookup_extend_pcr_ne a r a' r' d (v : PCRValues) :
  (a', r') ≠ (a, r) → pcr_lookup (extend_pcr a r d v) a' r' = pcr_lookup v a' r'.
Proof. apply pcr_lookup_set_pcr_ne. Qed.

(** C2: for a profile without [AddProfileOR], [ComputePCRValues] returns
    exactly one set of PCR values (or the error of the first failing read):
    the result of applying the instructions one after the other, in the
    order of the profile, to the empty set; [AddPCRValue] replaces the value
    of its register and [ExtendPCR] extends it, and neither touches another
    register. *)
Theorem C2_branch_free_profile tpm p :
  simple p = true →
  computed_values (ComputePCRValues tpm p)
    = result_map (λ v, [v]) (seq_apply tpm p ∅)
  ∧ (∀ i k v, seq_apply tpm (i :: k) v
              = result_bind (apply_instr tpm i v) (seq_apply tpm k))
  ∧ (∀ a r d v,
       apply_instr tpm (AddPCRValueInstr a r d) v = Val (set_pcr a r d v)
       ∧ pcr_lookup (set_pcr a r d v) a r = Some d
       ∧ ∀ a' r', (a', r') ≠ (a, r) →
           pcr_lookup (set_pcr a r d v) a' r' = pcr_lookup v a' r')
  ∧ (∀ a r d v,
       apply_instr tpm (ExtendPCRInstr a r d) v = Val (extend_pcr a r d v)
       ∧ pcr_lookup (extend_pcr a r d v) a r
         = Some (alg_hash a
                   (default (replicate (alg_size a) x00) (pcr_lookup v a r) ++ d))
       ∧ ∀ a' r', (a', r') ≠ (a, r) →
           pcr_lookup (extend_pcr a r d v) a' r' = pcr_lookup v a' r').
Proof.
  intros Hs. split_and!.
  - rewrite ComputePCRValues_paths. unfold profile_paths. by apply eval_simple_one.
  - done.
  - intros a r d v. split_and!; [done|apply pcr_lookup_set_pcr|].
    intros a' r'. apply pcr_lookup_set_pcr_ne.
  - intros a r d v. split_and!; [done|apply pcr_lookup_extend_pcr|].
    intros a' r'. apply pcr_lookup_extend_pcr_ne.
Qed.

Lemma Forall2_through {A B C} (R : A → B → Prop) (S : B → C → Prop) l1 l2 l3 :
  (∀ a b b', R a b → R a b' → b = b') →
  Forall2 R l1 l2 →
  Forall2 S l2 l3 ↔ Forall2 (λ a c, ∃ b, R a b ∧ S b c) l1 l3.
Proof.
  intros Hfun H12. revert l3. induction H12 as [|a b l1 l2 Hab H12 IH]; intros l3.
  - split; intros ->%Forall2_nil_inv_l; constructor.
  - split.
    + intros (c & l3' & Hbc & H23 & ->)%Forall2_cons_inv_l.
      constructor; [by eauto|]. by apply IH.
    + intros (c & l3' & (b' & Hab' & Hbc) & H13 & ->)%Forall2_cons_inv_l.
      rewrite <- (Hfun _ _ _ Hab Hab') in Hbc.
      constructor; [done|]. by apply IH.
Qed.

Lemma Forall2_exists_l {A B} (R : A → B → Prop) l k :
  Forall2 R l k → Forall (λ a, ∃ b, R a b) l.
Proof. induction 1; constructor; eauto. Qed.

Lemma Forall2_ext_iff {A B} (R R' : A → B → Prop) l k :
  (∀ a b, R a b ↔ R' a b) → Forall2 R l k ↔ Forall2 R' l k.
Proof.
  intros H. split; intros HF; (eapply Forall2_impl; [exact HF|]); intros a b; apply H.
Qed.

Lemma mapM_defined {A B} (f : A → result B) l :
  Forall (λ a, ∃ b, f a = Val b) l → ∃ l', mapM f l = Val l'.
Proof.
  induction 1 as [|a l [b Hb] _ [l' IH]]; simpl; [by eauto|].
  rewrite Hb, IH. simpl. eauto.
Qed.

(** C1: for a profile made of branch-free instructions [pre], one
    [AddProfileOR] of [N >= 1] branch-free sub-profiles, and branch-free
    instructions [post], [ComputePCRValues] succeeds exactly when every
    path does, and then returns [N] sets of PCR values, in the order of the
    sub-profiles: the one of sub-profile [sub] is the result of applying
    [pre], then [sub], then [post] to the empty set. Otherwise it returns an
    error. *)
Theorem C1_one_branch_profile tpm pre subs post :
  simple pre = true → forallb simple subs = true → simple post = true →
  0 < length subs →
  (∀ vs,
     computed_values (ComputePCRValues tpm (pre ++ AddProfileORInstr subs :: post))
       = Val vs
     ↔ Forall2 (λ sub v, seq_apply tpm (pre ++ sub ++ post) ∅ = Val v) subs vs)
  ∧ (∀ vs,
       computed_values (ComputePCRValues tpm (pre ++ AddProfileORInstr subs :: post))
         = Val vs →
       length vs = length subs)
  ∧ ((∃ vs,
        computed_values (ComputePCRValues tpm (pre ++ AddProfileORInstr subs :: post))
          = Val vs)
     ∨ (∃ e,
        computed_values (ComputePCRValues tpm (pre ++ AddProfileORInstr subs :: post))
          = Fail e)).
Proof.
  intros Hpre Hsubs Hpost Hlen.
  assert (Hsubs' : Forall (λ p, simple p = true) subs).
  { apply Forall_forall. intros p Hp. eapply forallb_forall in Hsubs; [done|].
    by apply list_elem_of_In. }
  clear Hsubs.
  set (p := pre ++ AddProfileORInstr subs :: post).
  assert (Hmain : ∀ vs,
    computed_values (ComputePCRValues tpm p) = Val vs
    ↔ Forall2 (λ sub v, seq_apply tpm (pre ++ sub ++ post) ∅ = Val v) subs vs).
  { intros vs. rewrite ComputePCRValues_paths. unfold profile_paths, p.
    rewrite eval_instrs_app, eval_simple_one by done.
    destruct subs as [|q qs]; [simpl in Hlen; lia|].
    set (subs := q :: qs) in *.
    assert (Hpath : ∀ sub, seq_apply tpm (pre ++ sub ++ post) ∅
      = result_bind (seq_apply tpm pre ∅) (λ v0,
          result_bind (seq_apply tpm sub v0) (seq_apply tpm post))).
    { intros sub. rewrite seq_apply_app.
      destruct (seq_apply tpm pre ∅); cbn [result_bind]; try done.
      apply seq_apply_app. }
    destruct (seq_apply tpm pre ∅) as [v0|e|w|] eqn:Epre;
      cbn [result_map result_bind].
    2-4: split; [done|]; unfold subs;
         intros (v & ? & Hv & _)%Forall2_cons_inv_l;
         rewrite Hpath in Hv; done.
    cbn [eval_instrs]. rewrite eval_instr_branch.
    fold subs. unfold subs at 1. fold subs. rewrite eval_branches_simple by done.
    destruct (mapM (λ p, seq_apply tpm p v0) subs) as [ws|e|w|] eqn:Ews;
      cbn [result_bind].
    2-4: split; [done|]; intros HF; exfalso;
         destruct (mapM_defined (λ p, seq_apply tpm p v0) subs) as [ws Hws];
         [|congruence];
         eapply Forall_impl; [exact (Forall2_exists_l _ _ _ HF)|];
         intros sub [v Hv]; simpl in Hv;
         rewrite Hpath in Hv; cbn [result_bind] in Hv;
         destruct (seq_apply tpm sub v0); by eauto.
    apply mapM_Val in Ews.
    assert (Hws : ws ≠ []).
    { intros ->. unfold subs in Ews. by apply Forall2_nil_inv_r in Ews. }
    rewrite eval_simple by done. rewrite mapM_Val.
    assert (Hfun : ∀ (a : PCRProtectionProfile) (b b' : PCRValues),
      seq_apply tpm a v0 = Val b → seq_apply tpm a v0 = Val b' → b = b')
      by congruence.
    rewrite (Forall2_through _ (λ w v, seq_apply tpm post w = Val v) _ _ _ Hfun Ews).
    apply Forall2_ext_iff. intros sub v. rewrite Hpath. cbn [result_bind]. split.
    + intros (w & -> & Hv). done.
    + destruct (seq_apply tpm sub v0) as [w| | |]; cbn [result_bind]; try done.
      eauto. }
  split_and!.
  - exact Hmain.
  - intros vs Hvs%Hmain. symmetry. by eapply Forall2_length.
  - rewrite ComputePCRValues_paths. apply eval_instrs_result.
Qed.

(** ** Extending a register that has no value *)

Lemma extend_pcr_fresh a r d (v : PCRValues) :
  pcr_lookup v a r = None →
  extend_pcr a r d v
  = set_pcr a r (alg_hash a (replicate (alg_size a) x00 ++ d)) v.
Proof. intros H. unfold extend_pcr. by rewrite H. Qed.

(** C8: [ExtendPCR(alg, r, v)], with [v] of the size of [alg], gives every
    path that has no value yet for [(alg, r)] the value that
    [AddPCRValue(alg, r, hash(zero(alg.Size()) || v))] gives it: the two
    profiles built from the same profile [p] agree on each such path. *)
Theorem C8_extend_without_prior_value tpm p alg r v vs :
  length v = alg_size alg →
  length (alg_hash alg (replicate (alg_size alg) x00 ++ v)) = alg_size alg →
  computed_values (ComputePCRValues tpm p) = Val vs →
  ∃ p1 p2 vs1 vs2,
    ExtendPCR p alg r v = Val p1
    ∧ AddPCRValue p alg r (alg_hash alg (replicate (alg_size alg) x00 ++ v)) = Val p2
    ∧ computed_values (ComputePCRValues tpm p1) = Val vs1
    ∧ computed_values (ComputePCRValues tpm p2) = Val vs2
    ∧ length vs1 = length vs ∧ length vs2 = length vs
    ∧ ∀ i path, vs !! i = Some path → pcr_lookup path alg r = None →
        vs1 !! i = vs2 !! i
        ∧ vs2 !! i
          = Some (set_pcr alg r
                    (alg_hash alg (replicate (alg_size alg) x00 ++ v)) path).
Proof.
  intros Hv Hh Hvs. rewrite ComputePCRValues_paths in Hvs. unfold profile_paths in Hvs.
  set (H := alg_hash alg (replicate (alg_size alg) x00 ++ v)) in *.
  exists (p ++ [ExtendPCRInstr alg r v]), (p ++ [AddPCRValueInstr alg r H]),
    (extend_pcr alg r v <$> vs), (set_pcr alg r H <$> vs).
  split_and!.
  - unfold ExtendPCR. by rewrite decide_False by (by rewrite Hv; intros ?).
  - unfold AddPCRValue. by rewrite decide_False by (by rewrite Hh; intros ?).
  - rewrite ComputePCRValues_paths. unfold profile_paths.
    by rewrite eval_instrs_app, Hvs.
  - rewrite ComputePCRValues_paths. unfold profile_paths.
    by rewrite eval_instrs_app, Hvs.
  - apply length_fmap.
  - apply length_fmap.
  - intros i path Hi Hnone. rewrite !list_lookup_fmap, Hi. simpl.
    by rewrite extend_pcr_fresh.
Qed.

(** ** Branches without sub-profiles *)

Lemma result_bind_ext {A B} (r : result A) (f g : A → result B) :
  (∀ a, f a = g a) → result_bind r f = result_bind r g.
Proof. intros H. destruct r; simpl; auto. Qed.

Lemma eval_instrs_congr tpm tpm' k k' :
  Forall2 (λ i i', ∀ vs, eval_instr tpm i vs = eval_instr tpm' i' vs) k k' →
  ∀ vs, eval_instrs tpm k vs = eval_instrs tpm' k' vs.
Proof.
  induction 1 as [|i i' k k' Hi _ IH]; intros vs; [done|]. cbn [eval_instrs].
  rewrite Hi. by apply result_bind_ext.
Qed.

Lemma eval_branches_congr tpm tpm' ps ps' :
  Forall2 (λ p p', ∀ vs, eval_instrs tpm p vs = eval_instrs tpm' p' vs) ps ps' →
  ∀ vs, eval_branches tpm ps vs = eval_branches tpm' ps' vs.
Proof.
  induction 1 as [|p p' ps ps' Hp _ IH]; intros vs; [done|]. cbn [eval_branches].
  rewrite Hp. apply result_bind_ext. intros r1. by rewrite IH.
Qed.

Lemma eval_instr_branch_congr tpm tpm' ps ps' :
  Forall2 (λ p p', ∀ vs, eval_instrs tpm p vs = eval_instrs tpm' p' vs) ps ps' →
  ∀ vs, eval_instr tpm (AddProfileORInstr ps) vs
        = eval_instr tpm' (AddProfileORInstr ps') vs.
Proof.
  intros HF vs. rewrite !eval_instr_branch.
  pose proof (eval_branches_congr _ _ _ _ HF vs) as Heq.
  destruct HF; [done|]. exact Heq.
Qed.

Lemma Forall2_insert_refl {A} (R : A → A → Prop) (l : list A) i x y :
  (∀ a, R a a) → l !! i = Some x → R x y → Forall2 R l (<[i := y]> l).
Proof.
  intros Hrefl Hi Hxy.
  rewrite <- (list_insert_id l i x) at 1 by done.
  apply Forall2_insert; [|done]. by apply Forall_Forall2_diag, Forall_true.
Qed.

Lemma remove_empty_branch_paths tpm n :
  ∀ path p p', length path ≤ n → remove_empty_branch path p = Some p' →
  ∀ vs, eval_instrs tpm p vs = eval_instrs tpm p' vs.
Proof.
  induction n as [|n IH]; intros path p p' Hlen Hrem vs.
  { destruct path; [done|simpl in Hlen; lia]. }
  destruct path as [|i [|j path']]; [done| |].
  - cbn [remove_empty_branch] in Hrem.
    destruct (p !! i) as [[| | |[|]]|] eqn:Hi; try done. injection Hrem as <-.
    rewrite <- (take_drop_middle p i _ Hi) at 1. rewrite delete_take_drop.
    rewrite !eval_instrs_app. apply result_bind_ext. intros ws.
    cbn [eval_instrs]. by rewrite eval_instr_branch.
  - cbn [remove_empty_branch] in Hrem.
    destruct (p !! i) as [[| | |subs]|] eqn:Hi; try done.
    destruct (subs !! j) as [sub|] eqn:Hj; [|done].
    destruct (remove_empty_branch path' sub) as [sub'|] eqn:Hsub; [|done].
    injection Hrem as <-.
    apply eval_instrs_congr.
    eapply Forall2_insert_refl; [done|exact Hi|].
    apply eval_instr_branch_congr.
    eapply Forall2_insert_refl; [done|exact Hj|].
    eapply IH; [|exact Hsub]. simpl in Hlen. lia.
Qed.

(** C5: an [AddProfileOR] without sub-profiles is never returned by
    [next]: the loop of [next] goes on to the instruction after it, so that
    nothing, and no end of branch, is returned for it; and
    [ComputePCRValues] returns the same values, or the same error, for the
    profile without that instruction, wherever in the profile it is. *)
Theorem C5_empty_branch_skipped :
  (∀ iter item iter',
     next iter = Val (item, iter') → item ≠ Instr (AddProfileORInstr []))
  ∧ (∀ cur rest,
       next ((AddProfileORInstr [] :: cur) :: rest) = next (cur :: rest))
  ∧ (∀ tpm path p p',
       remove_empty_branch path p = Some p' →
       computed_values (ComputePCRValues tpm p)
       = computed_values (ComputePCRValues tpm p')).
Proof.
  split_and!.
  - intros [|cur rest] item iter'; [done|]. intros [= Hnext] ->.
    apply next_loop_branch in Hnext as [Hlen _]. simpl in Hlen. lia.
  - done.
  - intros tpm path p p' Hrem. rewrite !ComputePCRValues_paths.
    by eapply remove_empty_branch_paths.
Qed.

(** ** Reading the TPM *)

Lemma steps_run tpm k :
  ∀ m m' n, steps k tpm m = Continue m' →
  run n tpm m = if decide (k < n) then run (n - k) tpm m' else OutOfFuel.
Proof.
  induction k as [|k IH]; intros m m' n Hk.
  - injection Hk as ->. destruct n; [done|].
    rewrite decide_True by lia. by rewrite Nat.sub_0_r.
  - cbn [steps] in Hk. destruct (step tpm m) as [m1|] eqn:Hstep; [|done].
    destruct n as [|n]; [done|]. cbn [run]. rewrite Hstep, (IH _ _ _ Hk).
    destruct (decide (k < n)), (decide (S k < S n)); try lia; done.
Qed.

Lemma run_done tpm n :
  ∀ m, run n tpm m ≠ OutOfFuel →
  ∃ k m', steps k tpm m = Continue m' ∧ step tpm m' = Done (run n tpm m).
Proof.
  induction n as [|n IH]; intros m Hne; [done|]. cbn [run] in *.
  destruct (step tpm m) as [m1|r] eqn:Hstep.
  - destruct (IH m1 Hne) as (k & m' & Hk & Hdone).
    exists (S k), m'. cbn [steps]. by rewrite Hstep.
  - exists 0, m. by rewrite Hstep.
Qed.

(** [ComputePCRValues] returns: with values or with an error. *)
Lemma ComputePCRValues_returns tpm p :
  (∃ res, ComputePCRValues tpm p = Val res)
  ∨ (∃ e, ComputePCRValues tpm p = Fail e).
Proof.
  pose proof (ComputePCRValues_paths tpm p) as Hpaths.
  destruct (eval_instrs_result tpm p [∅]) as [[vs Hvs]|[e He]];
    unfold profile_paths in Hpaths;
    destruct (ComputePCRValues tpm p); eauto; simpl in Hpaths; congruence.
Qed.

(** The only error a turn of the loop returns is that of the read of the
    TPM, in the turn of an [AddPCRValueFromTPM]. *)
Lemma step_Fail tpm m e :
  step tpm m = Done (Fail e) →
  ∃ a r it, next (m_iter m) = Val (Instr (AddPCRValueFromTPMInstr a r), it)
            ∧ read_from_tpm tpm a r = Fail e.
Proof.
  unfold step. destruct (next (m_iter m)) as [[item it]| | |] eqn:Hnext.
  2:{ unfold next in Hnext. by destruct (m_iter m). }
  2,3: done.
  cbn [step_bind]. destruct item as [[a r d|a r|a r d|ps]|].
  - destruct (m_contexts m); done.
  - destruct (read_from_tpm tpm a r) as [d| | |] eqn:Hread; cbn [step_bind].
    + destruct (m_contexts m); done.
    + intros [= ->]. eauto.
    + done.
    + done.
  - destruct (m_contexts m); done.
  - unfold stack_handleBranches. destruct (m_contexts m) as [|c s]; [done|].
    cbn [stack_top result_bind].
    destruct (ctx_handleBranches c (length ps) (m_ctxs m) (m_heap m)) as [[? ?] ?].
    done.
  - destruct (m_contexts m) as [|c s]; [done|]. cbn [stack_top step_bind].
    destruct (isRoot c (m_ctxs m)); [done|].
    unfold stack_finishBranch, ctx_finishBranch. cbn [stack_top result_bind].
    destruct (parent (m_ctxs m !!! c)); done.
Qed.

Lemma existsb_false {A} (f : A → bool) l :
  existsb f l = false ↔ Forall (λ x, f x = false) l.
Proof.
  induction l as [|x l IH]; simpl; [by split; [constructor|]|].
  rewrite orb_false_iff, Forall_cons, IH. done.
Qed.

(** The instructions the iterator holds are instructions of the profile. *)
Lemma next_loop_uses_tpm cur rest item it :
  next_loop cur rest = (item, it) →
  Forall (λ p, uses_tpm p = false) (cur :: rest) →
  Forall (λ p, uses_tpm p = false) it
  ∧ ∀ a r, item ≠ Instr (AddPCRValueFromTPMInstr a r).
Proof.
  revert item it. induction cur as [|i cur IH]; intros item it; cbn [next_loop].
  { intros [= <- <-] Hall. apply Forall_cons in Hall as [_ Hrest]. done. }
  intros Hnext Hall. apply Forall_cons in Hall as [Hcur Hrest].
  unfold uses_tpm in Hcur. simpl in Hcur.
  apply orb_false_iff in Hcur as [Hi Hcur].
  destruct i as [a r d|a r|a r d|[|q qs]]; try done.
  - injection Hnext as <- <-. split; [|done]. by constructor.
  - injection Hnext as <- <-. split; [|done]. by constructor.
  - apply IH; [done|]. by constructor.
  - injection Hnext as <- <-. split; [|done].
    cbn [uses_tpm_instr] in Hi. apply existsb_false in Hi.
    unfold descendInToProfiles. apply (Forall_app _ (q :: qs)).
    split; [done|by constructor].
Qed.

Lemma step_uses_tpm tpm m m' :
  Forall (λ p, uses_tpm p = false) (m_iter m) →
  step tpm m = Continue m' →
  Forall (λ p, uses_tpm p = false) (m_iter m').
Proof.
  intros Hall. unfold step.
  destruct (next (m_iter m)) as [[item it]| | |] eqn:Hnext; try done.
  unfold next in Hnext. destruct (m_iter m) as [|cur rest]; [done|].
  injection Hnext as Hnext.
  destruct (next_loop_uses_tpm _ _ _ _ Hnext Hall) as [Hit Hitem].
  cbn [step_bind]. destruct item as [[a r d|a r|a r d|ps]|].
  - destruct (m_contexts m); [done|]. by intros [= <-].
  - by destruct (Hitem a r).
  - destruct (m_contexts m); [done|]. by intros [= <-].
  - unfold stack_handleBranches. destruct (m_contexts m) as [|c s]; [done|].
    cbn [stack_top result_bind].
    destruct (ctx_handleBranches c (length ps) (m_ctxs m) (m_heap m)) as [[? ?] ?].
    by intros [= <-].
  - destruct (m_contexts m) as [|c s]; [done|]. cbn [stack_top step_bind].
    destruct (isRoot c (m_ctxs m)); [done|].
    unfold stack_finishBranch, ctx_finishBranch. cbn [stack_top result_bind].
    destruct (parent (m_ctxs m !!! c)); [|done]. by intros [= <-].
Qed.

Lemma steps_uses_tpm tpm k :
  ∀ m m', Forall (λ p, uses_tpm p = false) (m_iter m) →
  steps k tpm m = Continue m' →
  Forall (λ p, uses_tpm p = false) (m_iter m').
Proof.
  induction k as [|k IH]; intros m m' Hall; cbn [steps]; [by intros [= <-]|].
  destruct (step tpm m) as [m1|] eqn:Hstep; [|done].
  apply IH. by eapply step_uses_tpm.
Qed.

(** Without [AddPCRValueFromTPM], the paths do not depend on the TPM. *)
Lemma eval_instr_no_tpm tpm i :
  uses_tpm_instr i = false → ∀ vs, eval_instr tpm i vs = eval_instr None i vs.
Proof.
  induction i as [a r d|a r|a r d|ps IH] using instr_nested_ind;
    intros Hi vs; try done.
  cbn [uses_tpm_instr] in Hi. apply existsb_false in Hi.
  apply eval_instr_branch_congr. clear vs.
  induction IH as [|p ps Hp _ IHps]; [constructor|].
  apply Forall_cons in Hi as [Hp' Hps']. constructor; [|by apply IHps].
  apply eval_instrs_congr. apply existsb_false in Hp'.
  clear -Hp Hp'. induction Hp as [|i p Hi _ IHp]; [constructor|].
  apply Forall_cons in Hp' as [? ?]. constructor; auto.
Qed.

Lemma eval_instrs_no_tpm tpm p :
  uses_tpm p = false → ∀ vs, eval_instrs tpm p vs = eval_instrs None p vs.
Proof.
  intros Hp. apply existsb_false in Hp. apply eval_instrs_congr.
  induction Hp; constructor; auto using eval_instr_no_tpm.
Qed.

(** C9: when the loop of [ComputePCRValues] comes to an
    [AddPCRValueFromTPM] and no TPM context was given, or the read of the
    register fails, that turn returns the error without going on to any
    [setValue], and the error is what [ComputePCRValues] returns: there are
    no values in the result. *)
Theorem C9_tpm_read_failure tpm p k m a r it e :
  steps k tpm (initial p) = Continue m →
  next (m_iter m) = Val (Instr (AddPCRValueFromTPMInstr a r), it) →
  (tpm = None ∧ e = ErrNoTPMContext r a)
  ∨ (∃ t err, tpm = Some t ∧ PCRRead t a r = inl err ∧ e = ErrPCRRead r a err) →
  step tpm m = Done (Fail e)
  ∧ ComputePCRValues tpm p = Fail e
  ∧ computed_values (ComputePCRValues tpm p) = Fail e.
Proof.
  intros Hk Hnext Hread.
  assert (Hfail : read_from_tpm tpm a r = Fail e).
  { destruct Hread as [[-> ->]|(t & err & -> & Herr & ->)]; simpl; [done|].
    by rewrite Herr. }
  assert (Hstep : step tpm m = Done (Fail e)).
  { unfold step. rewrite Hnext. cbn [step_bind]. by rewrite Hfail. }
  assert (Hres : ComputePCRValues tpm p = Fail e).
  { pose proof (ComputePCRValues_returns tpm p) as Hret.
    unfold ComputePCRValues in *.
    rewrite (steps_run _ _ _ _ (profile_size p) Hk) in *.
    destruct (decide (k < profile_size p)) as [Hlt|]; [|by destruct Hret as [[??]|[??]]].
    destruct (profile_size p - k) as [|j] eqn:Hj; [lia|].
    cbn [run]. by rewrite Hstep. }
  split_and!; [done|done|]. by rewrite Hres.
Qed.

(** C10: an error of [ComputePCRValues] is the error of the read of the
    TPM in a turn of the loop that has come to an [AddPCRValueFromTPM]; so
    when the loop comes to none, [ComputePCRValues] returns values, with
    any [tpm] argument. A profile that holds no [AddPCRValueFromTPM], in
    its sub-profiles either, is such a profile: with a nil [tpm] too,
    [ComputePCRValues] returns values, and they are the same for every
    [tpm]. *)
Theorem C10_no_tpm_read_no_error tpm p :
  (uses_tpm p = false →
     (∀ k m, steps k tpm (initial p) = Continue m →
        ∀ a r it, next (m_iter m) ≠ Val (Instr (AddPCRValueFromTPMInstr a r), it))
     ∧ (∃ res, ComputePCRValues None p = Val res)
     ∧ computed_values (ComputePCRValues tpm p)
       = computed_values (ComputePCRValues None p))
  ∧ ((∀ k m a r it, steps k tpm (initial p) = Continue m →
        next (m_iter m) ≠ Val (Instr (AddPCRValueFromTPMInstr a r), it)) →
     ∃ res, ComputePCRValues tpm p = Val res)
  ∧ (∀ e, ComputePCRValues tpm p = Fail e →
       ∃ k m a r it,
         steps k tpm (initial p) = Continue m
         ∧ next (m_iter m) = Val (Instr (AddPCRValueFromTPMInstr a r), it)
         ∧ read_from_tpm tpm a r = Fail e).
Proof.
  assert (Herr : ∀ tpm' e, ComputePCRValues tpm' p = Fail e →
    ∃ k m a r it,
      steps k tpm' (initial p) = Continue m
      ∧ next (m_iter m) = Val (Instr (AddPCRValueFromTPMInstr a r), it)
      ∧ read_from_tpm tpm' a r = Fail e).
  { intros tpm' e He. unfold ComputePCRValues in He.
    destruct (run_done tpm' (profile_size p) (initial p)) as (k & m & Hk & Hstep);
      [by rewrite He|].
    rewrite He in Hstep. apply step_Fail in Hstep as (a & r & it & Hnext & Hread).
    by exists k, m, a, r, it. }
  assert (Hnone : ∀ tpm',
    (∀ k m a r it, steps k tpm' (initial p) = Continue m →
       next (m_iter m) ≠ Val (Instr (AddPCRValueFromTPMInstr a r), it)) →
    ∃ res, ComputePCRValues tpm' p = Val res).
  { intros tpm' Hnever.
    destruct (ComputePCRValues_returns tpm' p) as [Hval|[e He]]; [done|].
    apply Herr in He as (k & m & a & r & it & Hk & Hnext & _).
    by destruct (Hnever k m a r it Hk). }
  assert (Hsyn : uses_tpm p = false → ∀ tpm' k m,
    steps k tpm' (initial p) = Continue m →
    ∀ a r it, next (m_iter m) ≠ Val (Instr (AddPCRValueFromTPMInstr a r), it)).
  { intros Hp tpm' k m Hk a r it Hnext.
    assert (Hall : Forall (λ q, uses_tpm q = false) (m_iter m)).
    { eapply steps_uses_tpm; [|exact Hk]. simpl. by repeat constructor. }
    unfold next in Hnext. destruct (m_iter m) as [|cur rest]; [done|].
    injection Hnext as Hnext.
    destruct (next_loop_uses_tpm _ _ _ _ Hnext Hall) as [_ Hitem].
    by destruct (Hitem a r). }
  split_and!.
  - intros Hp. split_and!.
    + by apply Hsyn.
    + apply Hnone. intros k m a r it Hk. by eapply Hsyn.
    + rewrite !ComputePCRValues_paths. by apply eval_instrs_no_tpm.
  - apply Hnone.
  - apply Herr.
Qed.

(** ** The end of the root level *)

(** Every state the loop of [ComputePCRValues] comes to is related to a
    state of the loop on values. *)
Lemma steps_related tpm k :
  ∀ lg m pm m', related lg m pm → steps k tpm m = Continue m' →
  ∃ lg' pm', related lg' m' pm'.
Proof.
  induction k as [|k IH]; intros lg m pm m' Hrel; cbn [steps].
  { intros [= <-]. eauto. }
  pose proof (step_related tpm lg m pm Hrel) as Hstep.
  destruct (step tpm m) as [m1|]; [|done].
  destruct (pstep tpm pm) as [pm1|]; [|done].
  destruct Hstep as [lg1 Hrel1]. by apply (IH lg1 m1 pm1).
Qed.

Lemma reachable_related tpm p k m :
  steps k tpm (initial p) = Continue m → ∃ lg pm, related lg m pm.
Proof. apply (steps_related _ _ _ _ _ _ (related_initial p)). Qed.

(** Values are only returned in the turn of an end of branch, by a context
    without parent. *)
Lemma step_Val tpm m res :
  step tpm m = Done (Val res) →
  ∃ it c, next (m_iter m) = Val (EndProfileInstr, it)
          ∧ stack_top (m_contexts m) = Val c
          ∧ isRoot c (m_ctxs m) = true
          ∧ res = (values (m_ctxs m !!! c), m_heap m).
Proof.
  unfold step. destruct (next (m_iter m)) as [[item it]| | |] eqn:Hnext; try done.
  cbn [step_bind]. destruct item as [[a r d|a r|a r d|ps]|].
  - destruct (m_contexts m); done.
  - destruct (read_from_tpm tpm a r); cbn [step_bind]; try done.
    destruct (m_contexts m); done.
  - destruct (m_contexts m); done.
  - unfold stack_handleBranches. destruct (m_contexts m) as [|c s]; [done|].
    cbn [stack_top result_bind].
    destruct (ctx_handleBranches c (length ps) (m_ctxs m) (m_heap m)) as [[? ?] ?].
    done.
  - destruct (m_contexts m) as [|c s]; [done|]. cbn [stack_top step_bind].
    destruct (isRoot c (m_ctxs m)) eqn:Hroot.
    + intros [= <-]. by exists it, c.
    + unfold stack_finishBranch, ctx_finishBranch. cbn [stack_top result_bind].
      destruct (parent (m_ctxs m !!! c)); done.
Qed.

(** C4, as the code has it: [next] pops a level that has run out of
    instructions and returns the end of branch for it, whatever the level,
    the outermost one included, after which [next] panics; in the turn of
    an end of branch the loop of [ComputePCRValues] returns the values of
    the context on top of the stack when that context has no parent, and
    finishes the branch otherwise; and values are only ever returned in
    such a turn. *)
Theorem C4_end_marker_at_every_level :
  (∀ rest, next ([] :: rest) = Val (EndProfileInstr, rest))
  ∧ next [[]] = Val (EndProfileInstr, [])
  ∧ next [] = Panic PanicNoMoreInstructions
  ∧ (∀ tpm rest c s cs h,
       step tpm (Machine ([] :: rest) (c :: s) cs h)
       = if isRoot c cs then Done (Val (values (cs !!! c), h))
         else step_bind (stack_finishBranch (c :: s) cs)
                (λ '(s', cs'), Continue (Machine rest s' cs' h)))
  ∧ (∀ tpm p res,
       ComputePCRValues tpm p = Val res →
       ∃ k m it c,
         steps k tpm (initial p) = Continue m
         ∧ next (m_iter m) = Val (EndProfileInstr, it)
         ∧ stack_top (m_contexts m) = Val c
         ∧ parent (m_ctxs m !!! c) = None
         ∧ res = (values (m_ctxs m !!! c), m_heap m)).
Proof.
  split_and!; try done.
  intros tpm p res Hres. unfold ComputePCRValues in Hres.
  destruct (run_done tpm (profile_size p) (initial p)) as (k & m & Hk & Hstep);
    [by rewrite Hres|].
  rewrite Hres in Hstep.
  apply step_Val in Hstep as (it & c & Hnext & Htop & Hroot & ->).
  exists k, m, it, c. split_and!; try done.
  unfold isRoot in Hroot. by apply bool_decide_eq_true in Hroot.
Qed.

(** ** The copies made at a branch *)

Lemma step_write tpm m i it c :
  next (m_iter m) = Val (Instr i, it) → stack_top (m_contexts m) = Val c →
  is_branch i = false → (∀ a r, i ≠ AddPCRValueFromTPMInstr a r) →
  step tpm m
  = Continue (Machine it (m_contexts m) (m_ctxs m)
                (write_instr (values (m_ctxs m !!! c)) i (m_heap m))).
Proof.
  intros Hnext Htop Hbr Htpm. unfold step. rewrite Hnext. cbn [step_bind].
  destruct i as [a r d|a r|a r d|ps]; try done.
  - by rewrite Htop.
  - by destruct (Htpm a r).
  - by rewrite Htop.
Qed.

Lemma write_instr_spec l i h :
  heap_wf h → Forall (λ v, v < length (outer_maps h)) l → NoDup l →
  heap_wf (write_instr l i h)
  ∧ length (outer_maps (write_instr l i h)) = length (outer_maps h)
  ∧ view_list (write_instr l i h) l = write_value i <$> view_list h l
  ∧ ∀ v', v' ∉ l → view (write_instr l i h) v' = view h v'.
Proof.
  intros Hwf Hl Hnd. destruct i as [a r d|a r|a r d|ps]; cbn [write_instr write_value].
  - by apply setValue_spec.
  - by rewrite list_fmap_id.
  - by apply extendValue_spec.
  - by rewrite list_fmap_id.
Qed.

Lemma write_instrs_spec l writes :
  ∀ h, heap_wf h → Forall (λ v, v < length (outer_maps h)) l → NoDup l →
  heap_wf (write_instrs l writes h)
  ∧ length (outer_maps (write_instrs l writes h)) = length (outer_maps h)
  ∧ view_list (write_instrs l writes h) l = write_values writes <$> view_list h l
  ∧ ∀ v', v' ∉ l → view (write_instrs l writes h) v' = view h v'.
Proof.
  unfold write_instrs, write_values.
  induction writes as [|i writes IH]; intros h Hwf Hl Hnd; cbn [foldl].
  { by rewrite list_fmap_id. }
  destruct (write_instr_spec l i h Hwf Hl Hnd) as (Hwf1 & Hlen1 & Hv1 & Hfr1).
  destruct (IH (write_instr l i h) Hwf1) as (Hwf2 & Hlen2 & Hv2 & Hfr2);
    [by rewrite Hlen1|done|].
  split_and!; [done|congruence| |].
  - rewrite Hv2, Hv1, <- list_fmap_compose. done.
  - intros v' Hv'. by rewrite Hfr2, Hfr1.
Qed.

(** C3: in the turn of an [AddProfileOR] with [N >= 1] sub-profiles,
    the loop pushes [N] new contexts whose parent is the context that was on
    top, and empties the list of that context. The list of every new
    context holds map objects made in this turn, none of them in the list
    of another new context, none sharing a bank with any other object, and
    with the values the parent had. And whatever [AddPCRValue] and
    [ExtendPCR] write through the list of one new context, they change the
    values of that list and of no other object: the lists of the other new
    contexts, and the objects the parent held, keep the values they had at
    the branch. *)
Theorem C3_branch_copies_do_not_alias tpm p k m ps it :
  steps k tpm (initial p) = Continue m →
  next (m_iter m) = Val (Instr (AddProfileORInstr ps), it) →
  ∃ c s kids cs' h',
    m_contexts m = c :: s
    ∧ step tpm m = Continue (Machine it (kids ++ c :: s) cs' h')
    ∧ 0 < length ps ∧ length kids = length ps
    ∧ values (cs' !!! c) = []
    ∧ heap_wf h'
    ∧ (∀ j kid, kids !! j = Some kid →
         parent (cs' !!! kid) = Some c
         ∧ view_list h' (values (cs' !!! kid))
           = view_list (m_heap m) (values (m_ctxs m !!! c))
         ∧ ∀ v, v ∈ values (cs' !!! kid) →
             length (outer_maps (m_heap m)) ≤ v
             ∧ (v ∉ values (m_ctxs m !!! c))
             ∧ ∀ j' kid', kids !! j' = Some kid' →
                 v ∈ values (cs' !!! kid') → j' = j)
    ∧ (∀ j kid writes, kids !! j = Some kid →
         let h'' := write_instrs (values (cs' !!! kid)) writes h' in
         view_list h'' (values (cs' !!! kid))
         = write_values writes <$> view_list (m_heap m) (values (m_ctxs m !!! c))
         ∧ (∀ v, v ∉ values (cs' !!! kid) → view h'' v = view h' v)
         ∧ (∀ j' kid', kids !! j' = Some kid' → j' ≠ j →
              view_list h'' (values (cs' !!! kid'))
              = view_list (m_heap m) (values (m_ctxs m !!! c)))
         ∧ view_list h'' (values (m_ctxs m !!! c))
           = view_list (m_heap m) (values (m_ctxs m !!! c))).
Proof.
  intros Hk Hnext.
  destruct (reachable_related _ _ _ _ Hk) as (lg & pm & Hrel).
  destruct (groups_ok_top _ _ (rel_parents _ _ _ Hrel)) as (c & g & lgs & ->).
  destruct (related_top_values _ _ _ _ _ Hrel) as (Hs & Hvalid & Hnd).
  pose proof (rel_wf _ _ _ Hrel) as Hwf.
  assert (Hc : c < length (m_ctxs m)).
  { pose proof (rel_ctx_valid _ _ _ Hrel) as Hcv. simpl in Hcv.
    by apply Forall_cons in Hcv as [? _]. }
  assert (Hn : 0 < length ps).
  { unfold next in Hnext. destruct (m_iter m); [done|].
    injection Hnext as Hnext. by apply next_loop_branch in Hnext as [? _]. }
  destruct (ctx_handleBranches_spec c (length ps) _ _ Hc Hwf Hvalid)
    as (news & h' & Heq & Hlen & Hwf' & Hout & Hold & Hnews).
  set (cs := m_ctxs m) in *. set (h := m_heap m) in *.
  set (vals := values (cs !!! c)) in *.
  set (cs' := alter (λ x, {| parent := parent x; values := [] |}) c (cs ++ news)).
  assert (Hkid : ∀ j kid, seq (length cs) (length ps) !! j = Some kid →
    ∃ ctx, news !! j = Some ctx ∧ cs' !!! kid = ctx).
  { intros j kid Hj. apply lookup_seq in Hj as [-> Hj].
    destruct (lookup_lt_is_Some_2 news j) as [ctx Hctx]; [lia|].
    exists ctx. split; [done|]. unfold cs'.
    rewrite list_lookup_total_alter_ne by lia.
    apply list_lookup_total_correct. rewrite lookup_app_r by lia.
    by replace (length cs + j - length cs) with j by lia. }
  assert (Hkid_vals : ∀ j kid, seq (length cs) (length ps) !! j = Some kid →
    j < length ps
    ∧ parent (cs' !!! kid) = Some c
    ∧ values (cs' !!! kid)
      = seq (length (outer_maps h) + j * length vals) (length vals)
    ∧ view_list h' (values (cs' !!! kid)) = view_list h vals).
  { intros j kid Hj. destruct (Hkid j kid Hj) as (ctx & Hctx & ->).
    apply lookup_seq in Hj as [_ Hj]. split; [done|]. by apply Hnews. }
  exists c, (mjoin (g :: lgs)), (seq (length cs) (length ps)), cs', h'.
  split_and!; try done.
  - unfold step. rewrite Hnext. cbn [step_bind]. unfold stack_handleBranches.
    rewrite Hs. cbn [stack_top result_bind]. fold cs h. by rewrite Heq.
  - by rewrite length_seq.
  - unfold cs'. rewrite list_lookup_total_alter_eq; [done|].
    rewrite length_app. lia.
  - intros j kid Hj. destruct (Hkid_vals j kid Hj) as (Hjn & Hpar & Hvals & Hview).
    split_and!; [done|done|]. intros v Hv. rewrite Hvals in Hv.
    apply elem_of_seq in Hv. split_and!.
    + lia.
    + intros Hin. eapply Forall_forall in Hvalid; [|exact Hin]. simpl in Hvalid. lia.
    + intros j' kid' Hj' Hv'.
      destruct (Hkid_vals j' kid' Hj') as (_ & _ & Hvals' & _).
      rewrite Hvals' in Hv'. apply elem_of_seq in Hv'. nia.
  - intros j kid writes Hj.
    destruct (Hkid_vals j kid Hj) as (Hjn & Hpar & Hvals & Hview).
    assert (Hl : Forall (λ v, v < length (outer_maps h')) (values (cs' !!! kid))).
    { rewrite Hvals. apply Forall_lt_seq. rewrite Hout. nia. }
    assert (Hndk : NoDup (values (cs' !!! kid))).
    { rewrite Hvals. apply NoDup_seq. }
    destruct (write_instrs_spec _ writes h' Hwf' Hl Hndk)
      as (_ & _ & Hown & Hframe).
    cbn zeta. split_and!.
    + by rewrite Hown, Hview.
    + done.
    + intros j' kid' Hj' Hne.
      destruct (Hkid_vals j' kid' Hj') as (_ & _ & Hvals' & Hview').
      trans (view_list h' (values (cs' !!! kid'))); [|exact Hview'].
      apply list_fmap_ext. intros i v Hv. apply Hframe.
      apply list_elem_of_lookup_2 in Hv. rewrite Hvals' in Hv. rewrite Hvals.
      rewrite elem_of_seq in *. nia.
    + etransitivity; [|apply (view_list_frame h h' vals _ Hvalid Hold)].
      apply list_fmap_ext. intros i v Hv. apply Hframe.
      apply list_elem_of_lookup_2 in Hv. rewrite Hvals, elem_of_seq.
      eapply Forall_forall in Hvalid; [|exact Hv]. simpl in Hvalid. lia.
Qed.

(** ** The selection of ComputePCRDigests *)

Lemma elem_of_sel_keys pcrs a r :
  (a, r) ∈ sel_keys pcrs ↔ ∃ s, s ∈ pcrs ∧ Hash s = a ∧ r ∈ Select s.
Proof.
  unfold sel_keys. rewrite elem_of_list_to_set, list_elem_of_bind. split.
  - intros (s & Hin & Hs). apply list_elem_of_fmap in Hin as (pcr & [= -> ->] & Hpcr).
    by exists s.
  - intros (s & Hs & <- & Hr). exists s. split; [|done].
    apply list_elem_of_fmap. by exists r.
Qed.




(** The first loop of [ComputePCRDigests]. *)
Lemma branch_digests_spec alg pcrs vs :
  ∀ acc, branch_digests alg pcrs vs acc
  = if same_selection pcrs vs
    then Val (acc ++ (ComputePCRDigest alg pcrs <$> vs))
    else Fail ErrBranchPCRsDiffer.
Proof.
  unfold same_selection.
  induction vs as [|v vs IH]; intros acc; cbn [branch_digests forallb fmap list_fmap].
  { by rewrite app_nil_r. }
  unfold ComputePCRDigestSimple, PCRSelectionList_Equal.
  case_bool_decide as Hsel; cbn [negb andb]; [|done].
  rewrite IH. destruct (forallb _ vs); [|done].
  by rewrite Hsel, <- app_assoc.
Qed.

(** Paths do not vanish. *)
Lemma eval_instr_nonempty tpm i :
  ∀ vs vs', eval_instr tpm i vs = Val vs' → vs ≠ [] → vs' ≠ [].
Proof.
  induction i as [a r d|a r|a r d|ps IH] using instr_nested_ind; intros vs vs'.
  - intros [= <-]. by destruct vs.
  - cbn [eval_instr]. destruct (read_from_tpm tpm a r); simpl; try done.
    intros [= <-]. by destruct vs.
  - intros [= <-]. by destruct vs.
  - rewrite eval_instr_branch. destruct ps as [|q qs]; [by intros [= <-]|].
    cbn [eval_branches]. apply Forall_cons in IH as [Hq _].
    destruct (eval_instrs tpm q vs) as [r1| | |] eqn:Hr1; try done.
    cbn [result_bind].
    destruct (eval_branches tpm qs vs) as [r2| | |]; try done.
    cbn [result_bind]. intros [= <-] Hne.
    assert (Hq' : ∀ ws ws', eval_instrs tpm q ws = Val ws' → ws ≠ [] → ws' ≠ []).
    { clear -Hq. induction Hq as [|i q Hi _ IHq]; intros ws ws'; cbn [eval_instrs].
      - by intros [= <-].
      - destruct (eval_instr tpm i ws) as [ws1| | |] eqn:Hws1; try done.
        cbn [result_bind]. intros Hws' Hne. eapply IHq; [exact Hws'|].
        by eapply Hi. }
    specialize (Hq' _ _ Hr1 Hne). by destruct r1.
Qed.



(** [ComputePCRDigests], from the values [ComputePCRValues] returned. *)
Lemma ComputePCRDigests_spec tpm alg p v0 vs :
  computed_values (ComputePCRValues tpm p) = Val (v0 :: vs) →
  ComputePCRDigests tpm alg p
  = if same_selection (SelectionList v0) (v0 :: vs)
    then Val (SelectionList v0,
              unique_digests (ComputePCRDigest alg (SelectionList v0) <$> v0 :: vs) [])
    else Fail ErrBranchPCRsDiffer.
Proof.
  intros Hvs. unfold ComputePCRDigests. rewrite Hvs. cbn [result_bind].
  rewrite branch_digests_spec. by destruct (same_selection _ _).
Qed.



(** ** De-duplication *)

Lemma existsb_bool_decide (d : Digest) acc :
  existsb (λ f, bool_decide (d = f)) acc = bool_decide (d ∈ acc).
Proof.
  induction acc as [|x acc IH]; cbn [existsb].
  { by rewrite bool_decide_eq_false_2 by apply not_elem_of_nil. }
  rewrite IH. destruct (decide (d = x)) as [->|Hne].
  - rewrite (bool_decide_eq_true_2 (x = x)) by done. cbn [orb].
    symmetry. apply bool_decide_eq_true_2. apply list_elem_of_here.
  - rewrite (bool_decide_eq_false_2 (d = x)) by done. cbn [orb].
    apply bool_decide_ext. rewrite elem_of_cons. tauto.
Qed.

Lemma filter_comm {A} (P Q : A → Prop) `{!∀ x, Decision (P x)}
    `{!∀ x, Decision (Q x)} (l : list A) :
  filter P (filter Q l) = filter Q (filter P l).
Proof.
  induction l as [|x l IH]; [done|].
  rewrite !filter_cons. destruct (decide (Q x)), (decide (P x));
    rewrite ?filter_cons; repeat case_decide; try done; by rewrite IH.
Qed.

Lemma filter_absorb {A} (P Q : A → Prop) `{!∀ x, Decision (P x)}
    `{!∀ x, Decision (Q x)} (l : list A) :
  (∀ x, P x → Q x) → filter P (filter Q l) = filter P l.
Proof.
  intros HPQ. induction l as [|x l IH]; [done|].
  rewrite !filter_cons. destruct (decide (Q x)), (decide (P x));
    rewrite ?filter_cons; repeat case_decide; try done;
    try (by rewrite IH); naive_solver.
Qed.

(** Keeping first occurrences and filtering can be done in any order. *)
Lemma first_occurrences_filter (P : Digest → Prop) `{!∀ x, Decision (P x)} l :
  first_occurrences (filter P l) = filter P (first_occurrences l).
Proof.
  induction l as [|x l IH]; [done|]. cbn [first_occurrences].
  rewrite !filter_cons. destruct (decide (P x)) as [Hx|Hx].
  - cbn [first_occurrences]. rewrite IH. f_equal. apply filter_comm.
  - rewrite IH. symmetry. apply filter_absorb. by intros y Hy ->.
Qed.

(** The second loop of [ComputePCRDigests]. *)
Lemma unique_digests_spec l :
  ∀ acc, unique_digests l acc
         = acc ++ first_occurrences (filter (λ d, d ∉ acc) l).
Proof.
  induction l as [|d l IH]; intros acc; cbn [unique_digests].
  { by rewrite app_nil_r. }
  rewrite existsb_bool_decide, filter_cons.
  case_bool_decide as Hd.
  - rewrite decide_False by tauto. apply IH.
  - rewrite decide_True by done. rewrite IH. cbn [first_occurrences].
    rewrite <- app_assoc. cbn [app]. do 2 f_equal.
    rewrite <- first_occurrences_filter. f_equal.
    rewrite list_filter_filter. apply list_filter_iff. intros x.
    rewrite elem_of_app, list_elem_of_singleton. tauto.
Qed.

Lemma unique_digests_first_occurrences l :
  unique_digests l [] = first_occurrences l.
Proof.
  rewrite unique_digests_spec. cbn [app]. f_equal.
  induction l as [|d l IH]; [done|].
  rewrite filter_cons, decide_True by apply not_elem_of_nil. by rewrite IH.
Qed.

Lemma elem_of_first_occurrences l d : d ∈ first_occurrences l ↔ d ∈ l.
Proof.
  induction l as [|x l IH]; [done|]. cbn [first_occurrences].
  rewrite !elem_of_cons, list_elem_of_filter, IH.
  destruct (decide (d = x)); tauto.
Qed.

Lemma NoDup_first_occurrences l : NoDup (first_occurrences l).
Proof.
  induction l as [|x l IH]; cbn [first_occurrences]; [constructor|].
  constructor; [|by apply NoDup_filter].
  rewrite list_elem_of_filter. by intros [Hne _].
Qed.

Lemma first_occurrences_sublist l : first_occurrences l `sublist_of` l.
Proof.
  induction l as [|x l IH]; cbn [first_occurrences]; [done|].
  apply sublist_skip. etrans; [apply sublist_filter|exact IH].
Qed.

Lemma bind_ext_Forall {A B} (f g : A → list B) l :
  Forall (λ x, f x = g x) l → l ≫= f = l ≫= g.
Proof.
  induction 1 as [|x l Hx _ IH]; [done|]. cbn [mbind list_bind].
  change ((x :: l) ≫= f) with (f x ++ (l ≫= f)).
  change ((x :: l) ≫= g) with (g x ++ (l ≫= g)). by rewrite Hx, IH.
Qed.

(** The composite digest only depends on the values of the registers
    selected. *)
Lemma ComputePCRDigest_ext alg pcrs v v' :
  (∀ a r, (a, r) ∈ sel_keys pcrs → pcr_read v a r = pcr_read v' a r) →
  ComputePCRDigest alg pcrs v = ComputePCRDigest alg pcrs v'.
Proof.
  intros Hread. unfold ComputePCRDigest. do 2 f_equal.
  apply bind_ext_Forall, Forall_forall. intros s Hs.
  apply list_fmap_ext. intros i r Hr. apply Hread, elem_of_sel_keys.
  exists s. split_and!; [done|done|]. by eapply list_elem_of_lookup_2.
Qed.

(** C7: the digests [ComputePCRDigests] returns are the composite
    digests of the paths, in the order of the paths, without every digest
    equal to an earlier one: each composite digest is there once, at the
    place of its first occurrence. Two paths with the same values for the
    registers selected have the same composite digest, so that they give
    one digest of the list. *)
Theorem C7_digests_without_duplicates tpm alg p pcrs ds :
  ComputePCRDigests tpm alg p = Val (pcrs, ds) →
  ∃ vs, computed_values (ComputePCRValues tpm p) = Val vs
    ∧ ds = unique_digests (ComputePCRDigest alg pcrs <$> vs) []
    ∧ ds = first_occurrences (ComputePCRDigest alg pcrs <$> vs)
    ∧ NoDup ds
    ∧ ds `sublist_of` (ComputePCRDigest alg pcrs <$> vs)
    ∧ (∀ d, d ∈ ds ↔ ∃ v, v ∈ vs ∧ d = ComputePCRDigest alg pcrs v)
    ∧ (∀ v v', v ∈ vs → v' ∈ vs →
         (∀ a r, (a, r) ∈ sel_keys pcrs → pcr_read v a r = pcr_read v' a r) →
         ComputePCRDigest alg pcrs v = ComputePCRDigest alg pcrs v'
         ∧ ∃ i, ds !! i = Some (ComputePCRDigest alg pcrs v)
                ∧ ∀ j, ds !! j = Some (ComputePCRDigest alg pcrs v') → j = i).
Proof.
  intros Hds.
  destruct (computed_values (ComputePCRValues tpm p)) as [[|v0 vs]| | |] eqn:Hvs;
    try (unfold ComputePCRDigests in Hds; rewrite Hvs in Hds; done).
  rewrite (ComputePCRDigests_spec _ _ _ _ _ Hvs) in Hds.
  destruct (same_selection _ _); [|done].
  assert (Hp : pcrs = SelectionList v0) by congruence.
  assert (Hd : ds = unique_digests
                      (ComputePCRDigest alg (SelectionList v0) <$> v0 :: vs) [])
    by congruence.
  clear Hds. rewrite <- Hp in Hd.
  set (l := ComputePCRDigest alg pcrs <$> v0 :: vs) in *.
  assert (Hin : ∀ d, d ∈ first_occurrences l ↔
    ∃ v, v ∈ v0 :: vs ∧ d = ComputePCRDigest alg pcrs v).
  { intros d. rewrite elem_of_first_occurrences. unfold l.
    rewrite list_elem_of_fmap. split; intros (v & ? & ?); by exists v. }
  exists (v0 :: vs). fold l.
  assert (Hd' : ds = first_occurrences l)
    by (by rewrite <- unique_digests_first_occurrences).
  split_and!; [done|done|done| | | |]; rewrite Hd'.
  - apply NoDup_first_occurrences.
  - apply first_occurrences_sublist.
  - exact Hin.
  - intros v v' Hv Hv' Hread.
    pose proof (ComputePCRDigest_ext alg pcrs v v' Hread) as Heq.
    split; [done|].
    assert (Hv1 : ComputePCRDigest alg pcrs v ∈ first_occurrences l).
    { apply Hin. by exists v. }
    apply list_elem_of_lookup_1 in Hv1 as [i Hi]. exists i. split; [done|].
    intros j Hj. rewrite <- Heq in Hj.
    by eapply NoDup_lookup; [apply NoDup_first_occurrences| |].
Qed.

(** ** The traversal of a profile *)

Lemma drain_app n1 n2 iter :
  drain (n1 + n2) iter
  = result_bind (drain n1 iter) (λ '(xs, it),
      result_bind (drain n2 it) (λ '(ys, it'), Val (xs ++ ys, it'))).
Proof.
  revert iter. induction n1 as [|n1 IH]; intros iter; cbn [Nat.add drain result_bind].
  { destruct (drain n2 iter) as [[ys it']| | |]; done. }
  destruct (next iter) as [[item iter']| | |]; cbn [result_bind]; try done.
  rewrite IH. destruct (drain n1 iter') as [[xs it]| | |]; cbn [result_bind]; try done.
  destruct (drain n2 it) as [[ys it']| | |]; done.
Qed.

Lemma drain_then n1 n2 iter xs it ys it' :
  drain n1 iter = Val (xs, it) → drain n2 it = Val (ys, it') →
  drain (n1 + n2) iter = Val (xs ++ ys, it').
Proof. intros H1 H2. by rewrite drain_app, H1; cbn [result_bind]; rewrite H2. Qed.

Lemma traversal_cons i cur :
  concat (map traversal_instr (i :: cur))
  = traversal_instr i ++ concat (map traversal_instr cur).
Proof. done. Qed.

(** The calls of [next] for the sub-profiles [qs], then back to what was
    left of the level. *)
Lemma drain_branches qs :
  Forall (λ q, ∀ rest,
    drain (length (concat (map traversal_instr q)) + 1) (q :: rest)
    = Val (concat (map traversal_instr q) ++ [EndProfileInstr], rest)) qs →
  ∀ rest,
    drain (length (concat (map (λ p, concat (map traversal_instr p)
                                     ++ [EndProfileInstr]) qs))) (qs ++ rest)
    = Val (concat (map (λ p, concat (map traversal_instr p) ++ [EndProfileInstr]) qs),
           rest).
Proof.
  induction 1 as [|q qs Hq _ IH]; intros rest; [done|].
  cbn [map concat app]. rewrite length_app.
  apply drain_then with (it := qs ++ rest); [|apply IH].
  rewrite length_app. apply Hq.
Qed.

Lemma drain_level n :
  ∀ cur rest, list_sum (map instr_size cur) ≤ n →
  drain (length (concat (map traversal_instr cur)) + 1) (cur :: rest)
  = Val (concat (map traversal_instr cur) ++ [EndProfileInstr], rest).
Proof.
  induction n as [|n IH]; intros cur rest Hsz.
  { destruct cur as [|i cur]; [done|]. rewrite instrs_size_cons in Hsz.
    pose proof (instr_size_positive i). lia. }
  destruct cur as [|i cur]; [done|].
  rewrite instrs_size_cons in Hsz. pose proof (instr_size_positive i) as Hi.
  assert (Hcur := IH cur rest ltac:(lia)).
  assert (Hsimple : traversal_instr i = [Instr i] →
    next ((i :: cur) :: rest) = Val (Instr i, cur :: rest) →
    drain (length (concat (map traversal_instr (i :: cur))) + 1) ((i :: cur) :: rest)
    = Val (concat (map traversal_instr (i :: cur)) ++ [EndProfileInstr], rest)).
  { intros Ht Hnext. rewrite traversal_cons, Ht. cbn [app length Nat.add drain].
    rewrite Hnext. cbn [result_bind]. by rewrite Hcur. }
  destruct i as [a r d|a r|a r d|[|q qs]]; try (by apply Hsimple).
  - rewrite traversal_cons. cbn [traversal_instr app].
    destruct (length (concat (map traversal_instr cur)) + 1) as [|k] eqn:Hk; [lia|].
    cbn [drain] in *. exact Hcur.
  - rewrite traversal_cons. cbn [traversal_instr].
    set (B := concat (map (λ p, concat (map traversal_instr p) ++ [EndProfileInstr])
                        (q :: qs))).
    cbn [app length Nat.add drain]. cbn [next next_loop result_bind].
    unfold descendInToProfiles.
    assert (Hsubs : Forall (λ q0, ∀ rest0,
      drain (length (concat (map traversal_instr q0)) + 1) (q0 :: rest0)
      = Val (concat (map traversal_instr q0) ++ [EndProfileInstr], rest0)) (q :: qs)).
    { apply Forall_forall. intros p Hp rest0. apply IH.
      cbn [instr_size] in Hsz.
      assert (S (list_sum (map instr_size p))
              ≤ list_sum (map (λ p, S (list_sum (map instr_size p))) (q :: qs))).
      { clear -Hp. induction Hp as [p l|p p' l Hp IHp]; simpl in *; lia. }
      lia. }
    pose proof (drain_then _ _ _ _ _ _ _
                  (drain_branches _ Hsubs (cur :: rest)) Hcur) as Hall.
    fold B in Hall. rewrite length_app, <- Nat.add_assoc, Hall.
    cbn [result_bind]. by rewrite <- app_assoc.
Qed.

Lemma traversal_instr_length i : length (traversal_instr i) ≤ instr_size i.
Proof.
  induction i as [a r d|a r|a r d|ps IH] using instr_nested_ind;
    cbn [traversal_instr instr_size length]; try lia.
  destruct ps as [|q qs]; [simpl; lia|].
  cbn [length]. apply le_n_S.
  induction IH as [|p ps' Hp _ IHps]; [done|].
  assert (length (concat (map traversal_instr p)) ≤ list_sum (map instr_size p)).
  { clear -Hp. induction Hp as [|i p Hi _ IHp]; [done|].
    rewrite traversal_cons, instrs_size_cons, length_app. lia. }
  cbn [map concat]. rewrite !length_app. simpl in *. lia.
Qed.

(** The calls of [next] on the iterator of a profile return the
    instructions of the profile depth first: every instruction once, in
    the order of the profile; after an [AddProfileOR] with sub-profiles,
    the instructions of each sub-profile in turn, each sub-profile closed
    by an end of branch; nothing for an [AddProfileOR] without
    sub-profiles; and one end of branch for the profile itself. That call
    leaves the iterator without levels, and one more call panics. There
    are at most [profile_size p] calls. *)
Theorem iterator_depth_first_traversal p :
  drain (length (traversal p)) (traverseInstructions p) = Val (traversal p, [])
  ∧ drain (S (length (traversal p))) (traverseInstructions p)
    = Panic PanicNoMoreInstructions
  ∧ length (traversal p) ≤ profile_size p
  ∧ (∀ i k, concat (map traversal_instr (i :: k))
            = traversal_instr i ++ concat (map traversal_instr k))
  ∧ (∀ a r d, traversal_instr (AddPCRValueInstr a r d) = [Instr (AddPCRValueInstr a r d)])
  ∧ (∀ a r, traversal_instr (AddPCRValueFromTPMInstr a r)
            = [Instr (AddPCRValueFromTPMInstr a r)])
  ∧ (∀ a r d, traversal_instr (ExtendPCRInstr a r d) = [Instr (ExtendPCRInstr a r d)])
  ∧ traversal_instr (AddProfileORInstr []) = []
  ∧ (∀ q qs, traversal_instr (AddProfileORInstr (q :: qs))
             = Instr (AddProfileORInstr (q :: qs))
               :: concat (map (λ p, traversal p) (q :: qs))).
Proof.
  assert (Hall : drain (length (traversal p)) (traverseInstructions p)
                 = Val (traversal p, [])).
  { unfold traversal, traverseInstructions, descendInToProfiles.
    rewrite length_app. apply (drain_level _ _ _ (Nat.le_refl _)). }
  split_and!; try done.
  - replace (S (length (traversal p))) with (length (traversal p) + 1) by lia.
    rewrite drain_app, Hall. done.
  - assert (Hlen : length (concat (map traversal_instr p))
                   ≤ list_sum (map instr_size p)).
    { clear Hall. induction p as [|i p IH]; [done|].
      rewrite traversal_cons, instrs_size_cons, length_app.
      pose proof (traversal_instr_length i). lia. }
    unfold traversal, profile_size. rewrite length_app. simpl. lia.
Qed.

(** ** The loop of ComputePCRValues ends *)



(** The [tpm2.PCRValues] objects [ComputePCRValues] returns are distinct
    objects, and no two of them share the object of a bank: writing to one
    of the returned maps changes no other. *)
Theorem ComputePCRValues_result_not_aliased tpm p l h :
  ComputePCRValues tpm p = Val (l, h) →
  NoDup l
  ∧ Forall (λ v, v < length (outer_maps h)) l
  ∧ heap_wf h
  ∧ (∀ v1 v2 a1 a2 i,
       v1 ∈ l → v2 ∈ l → bank_ref h v1 a1 = Some i → bank_ref h v2 a2 = Some i →
       v1 = v2 ∧ a1 = a2)
  ∧ ∀ v a r d, v ∈ l →
      view (PCRValues_SetValue v a r d h) v = set_pcr a r d (view h v)
      ∧ ∀ v', v' ≠ v → view (PCRValues_SetValue v a r d h) v' = view h v'.
Proof.
  intros Hres. unfold ComputePCRValues in Hres.
  destruct (run_done tpm (profile_size p) (initial p)) as (k & m & Hk & Hstep);
    [by rewrite Hres|].
  rewrite Hres in Hstep.
  apply step_Val in Hstep as (it & c & Hnext & Htop & Hroot & [= -> ->]).
  destruct (reachable_related _ _ _ _ Hk) as (lg & pm & Hrel).
  destruct (groups_ok_top _ _ (rel_parents _ _ _ Hrel)) as (c' & g & lgs & ->).
  destruct (related_top_values _ _ _ _ _ Hrel) as (Hs & Hvalid & Hnd).
  rewrite Hs in Htop. injection Htop as <-.
  pose proof (rel_wf _ _ _ Hrel) as Hwf.
  split_and!; [done|done|done| |].
  - intros v1 v2 a1 a2 i _ _. apply (wf_inj _ Hwf).
  - intros v a r d Hv.
    assert (Hlt : v < length (outer_maps (m_heap m))).
    { eapply Forall_forall in Hvalid; [|exact Hv]. done. }
    destruct (SetValue_acts_as a r d (m_heap m) v Hwf Hlt) as (_ & _ & Hown & Hfr).
    split; [exact Hown|exact Hfr].
Qed.

(** ** Value lists in the store *)

Lemma setValue_view l a r d :
  ∀ h, heap_wf h → Forall (λ v, v < length (outer_maps h)) l →
  heap_wf (setValue l a r d h)
  ∧ length (outer_maps (setValue l a r d h)) = length (outer_maps h)
  ∧ ∀ v, view (setValue l a r d h) v
         = if decide (v ∈ l) then set_pcr a r d (view h v) else view h v.
Proof.
  unfold setValue. induction l as [|x l IH]; intros h Hwf Hl; cbn [foldl].
  { split_and!; [done|done|]. intros v. by rewrite decide_False by apply not_elem_of_nil. }
  apply Forall_cons in Hl as [Hx Hl].
  destruct (SetValue_acts_as a r d h x Hwf Hx) as (Hwf1 & Hlen1 & Hx1 & Hfr1).
  destruct (IH (PCRValues_SetValue x a r d h) Hwf1) as (Hwf2 & Hlen2 & Hv2);
    [by rewrite Hlen1|].
  split_and!; [done|congruence|]. intros v. rewrite Hv2.
  destruct (decide (v = x)) as [->|Hne].
  - rewrite (decide_True (P := x ∈ x :: l)) by apply list_elem_of_here.
    rewrite Hx1. case_decide; [apply set_pcr_set_pcr|done].
  - rewrite Hfr1 by done.
    destruct (decide (v ∈ l)) as [Hin|Hnin].
    + by rewrite decide_True by by apply list_elem_of_further.
    + rewrite decide_False; [done|]. rewrite elem_of_cons. tauto.
Qed.

(** [setValue] gives the register the digest in every [tpm2.PCRValues]
    object of the list, creating the bank where it is missing; it changes
    no other register of these objects and no other object, and creates no
    [tpm2.PCRValues] object. An object that is twice in the list is set
    like the others. *)
Theorem setValue_sets_every_object l a r d h :
  heap_wf h → Forall (λ v, v < length (outer_maps h)) l →
  heap_wf (setValue l a r d h)
  ∧ length (outer_maps (setValue l a r d h)) = length (outer_maps h)
  ∧ (∀ v, v ∈ l →
       pcr_lookup (view (setValue l a r d h) v) a r = Some d
       ∧ ∀ a' r', (a', r') ≠ (a, r) →
           pcr_lookup (view (setValue l a r d h) v) a' r'
           = pcr_lookup (view h v) a' r')
  ∧ (∀ v, v ∉ l → view (setValue l a r d h) v = view h v)
  ∧ setValue [] a r d h = h.
Proof.
  intros Hwf Hl. destruct (setValue_view l a r d h Hwf Hl) as (Hwf' & Hlen' & Hv).
  split_and!; [done|done| | |done].
  - intros v Hin. rewrite Hv, decide_True by done.
    split; [apply pcr_lookup_set_pcr|]. intros a' r'. apply pcr_lookup_set_pcr_ne.
  - intros v Hnin. by rewrite Hv, decide_False.
Qed.


(** [copy] returns as many new [tpm2.PCRValues] objects as the list has
    elements, with the values of the elements, in their order; the new
    objects are distinct, and share no bank with one another or with an
    object that was there before; the objects that were there keep their
    values. So what [setValue] writes through the copy does not change the
    values of the list copied, and the other way round. *)
Theorem copy_is_deep l h :
  heap_wf h → Forall (λ v, v < length (outer_maps h)) l →
  ∃ l' h',
    copy l h = (l', h')
    ∧ length l' = length l
    ∧ view_list h' l' = view_list h l
    ∧ NoDup l'
    ∧ (∀ v', v' ∈ l' →
         length (outer_maps h) ≤ v' ∧ v' < length (outer_maps h'))
    ∧ heap_wf h'
    ∧ (∀ v, v < length (outer_maps h) → view h' v = view h v)
    ∧ (∀ a r d, view_list (setValue l' a r d h') l = view_list h l)
    ∧ (∀ a r d, view_list (setValue l a r d h') l' = view_list h l).
Proof.
  intros Hwf Hl.
  destruct (copy_spec l h Hwf Hl) as (h' & Hcopy & Hwf' & Hlen' & Hview & Hold).
  set (l' := seq (length (outer_maps h)) (length l)) in *.
  assert (Hl' : Forall (λ v, v < length (outer_maps h')) l').
  { apply Forall_lt_seq. lia. }
  assert (Hlh' : Forall (λ v, v < length (outer_maps h')) l).
  { eapply Forall_impl; [exact Hl|]. simpl. lia. }
  exists l', h'. split_and!; try done.
  - apply length_seq.
  - apply NoDup_seq.
  - intros v' Hv'. apply elem_of_seq in Hv'. lia.
  - intros a r d.
    destruct (setValue_view l' a r d h' Hwf' Hl') as (_ & _ & Hv).
    rewrite <- (view_list_frame h h' l _ Hl Hold).
    apply list_fmap_ext. intros i v Hi. rewrite Hv, decide_False; [done|].
    intros Hin. apply elem_of_seq in Hin.
    eapply Forall_lookup_1 in Hl; [|exact Hi]. simpl in Hl. lia.
  - intros a r d.
    destruct (setValue_view l a r d h' Hwf' Hlh') as (_ & _ & Hv).
    rewrite <- Hview.
    apply list_fmap_ext. intros i v Hi. rewrite Hv, decide_False; [done|].
    intros Hin. apply list_elem_of_lookup_2 in Hi. apply elem_of_seq in Hi.
    eapply Forall_forall in Hl; [|exact Hin]. simpl in Hl. lia.
Qed.

(** ** Profiles with the same values *)

Lemma eval_instrs_context tpm tpm' pre mid mid' post :
  (∀ vs, eval_instrs tpm pre vs = eval_instrs tpm' pre vs) →
  (∀ vs, eval_instrs tpm mid vs = eval_instrs tpm' mid' vs) →
  (∀ vs, eval_instrs tpm post vs = eval_instrs tpm' post vs) →
  ∀ vs, eval_instrs tpm (pre ++ mid ++ post) vs
        = eval_instrs tpm' (pre ++ mid' ++ post) vs.
Proof.
  intros Hpre Hmid Hpost vs. rewrite !eval_instrs_app, Hpre.
  apply result_bind_ext. intros ws. rewrite !eval_instrs_app, Hmid.
  by apply result_bind_ext.
Qed.

Lemma ComputePCRValues_context tpm pre mid mid' post :
  (∀ vs, eval_instrs tpm mid vs = eval_instrs tpm mid' vs) →
  computed_values (ComputePCRValues tpm (pre ++ mid ++ post))
  = computed_values (ComputePCRValues tpm (pre ++ mid' ++ post)).
Proof.
  intros Hmid. rewrite !ComputePCRValues_paths. unfold profile_paths.
  by apply eval_instrs_context.
Qed.

Lemma eval_write tpm i k :
  written_register i = Some k →
  ∀ vs, eval_instr tpm i vs = Val (write_value i <$> vs).
Proof. by destruct i. Qed.

Lemma set_pcr_comm a r d a' r' d' (V : PCRValues) :
  (a, r) ≠ (a', r') →
  set_pcr a r d (set_pcr a' r' d' V) = set_pcr a' r' d' (set_pcr a r d V).
Proof.
  intros Hne. unfold set_pcr. destruct (decide (a = a')) as [->|Ha].
  - rewrite !lookup_insert_eq, !insert_insert_eq. cbn [default]. f_equal.
    apply insert_insert_ne. congruence.
  - rewrite !lookup_insert_ne by done. by apply insert_insert_ne.
Qed.

Lemma write_value_lookup_ne i a r (V : PCRValues) a' r' :
  written_register i = Some (a, r) → (a', r') ≠ (a, r) →
  pcr_lookup (write_value i V) a' r' = pcr_lookup V a' r'.
Proof.
  destruct i as [a0 r0 d| |a0 r0 d|]; intros [= -> ->] Hne; cbn [write_value].
  - by apply pcr_lookup_set_pcr_ne.
  - by apply pcr_lookup_extend_pcr_ne.
Qed.

Lemma write_value_comm i1 i2 k1 k2 (V : PCRValues) :
  written_register i1 = Some k1 → written_register i2 = Some k2 → k1 ≠ k2 →
  write_value i2 (write_value i1 V) = write_value i1 (write_value i2 V).
Proof.
  destruct k1 as [a1 r1], k2 as [a2 r2].
  destruct i1 as [b1 s1 d1| |b1 s1 d1|], i2 as [b2 s2 d2| |b2 s2 d2|];
    intros [= -> ->] [= -> ->] Hne; cbn [write_value]; unfold extend_pcr;
    rewrite ?pcr_lookup_set_pcr_ne by congruence; apply set_pcr_comm; congruence.
Qed.

(** An [AddPCRValue] directly followed by an [AddPCRValue] for the same
    register has no effect: [ComputePCRValues] returns the same for the
    profile without it, wherever in the profile the two are. *)
Theorem AddPCRValue_overwritten tpm pre post a r d1 d2 :
  computed_values
    (ComputePCRValues tpm
       (pre ++ [AddPCRValueInstr a r d1; AddPCRValueInstr a r d2] ++ post))
  = computed_values
      (ComputePCRValues tpm (pre ++ [AddPCRValueInstr a r d2] ++ post)).
Proof.
  apply ComputePCRValues_context. intros vs. cbn [eval_instrs eval_instr result_bind].
  f_equal. rewrite <- list_fmap_compose. apply list_fmap_ext. intros i V _.
  apply set_pcr_set_pcr.
Qed.

(** An [ExtendPCR] directly after an [AddPCRValue] for the same register
    amounts to one [AddPCRValue], of the hash of the value set followed by
    the value extended with. *)
Theorem ExtendPCR_after_AddPCRValue tpm pre post a r d v :
  computed_values
    (ComputePCRValues tpm
       (pre ++ [AddPCRValueInstr a r d; ExtendPCRInstr a r v] ++ post))
  = computed_values
      (ComputePCRValues tpm
         (pre ++ [AddPCRValueInstr a r (alg_hash a (d ++ v))] ++ post)).
Proof.
  apply ComputePCRValues_context. intros vs. cbn [eval_instrs eval_instr result_bind].
  f_equal. rewrite <- list_fmap_compose. apply list_fmap_ext. intros i V _.
  cbn. unfold extend_pcr. rewrite pcr_lookup_set_pcr. cbn [default].
  apply set_pcr_set_pcr.
Qed.

(** Two instructions that follow one another, each an [AddPCRValue] or an
    [ExtendPCR], for different registers, can be exchanged. *)
Theorem writes_to_different_registers_commute tpm pre post i1 i2 k1 k2 :
  written_register i1 = Some k1 → written_register i2 = Some k2 → k1 ≠ k2 →
  computed_values (ComputePCRValues tpm (pre ++ [i1; i2] ++ post))
  = computed_values (ComputePCRValues tpm (pre ++ [i2; i1] ++ post)).
Proof.
  intros H1 H2 Hne. apply ComputePCRValues_context. intros vs.
  cbn [eval_instrs]. rewrite (eval_write _ _ _ H1), (eval_write _ _ _ H2).
  cbn [result_bind]. rewrite (eval_write _ _ _ H1), (eval_write _ _ _ H2).
  cbn [result_bind]. f_equal. rewrite <- !list_fmap_compose.
  apply list_fmap_ext. intros i V _. simpl. by eapply write_value_comm.
Qed.

Lemma eval_branches_app tpm ps1 ps2 vs :
  eval_branches tpm (ps1 ++ ps2) vs
  = result_bind (eval_branches tpm ps1 vs) (λ r1,
      result_bind (eval_branches tpm ps2 vs) (λ r2, Val (r1 ++ r2))).
Proof.
  induction ps1 as [|p ps1 IH]; cbn [app eval_branches result_bind].
  { destruct (eval_branches tpm ps2 vs); done. }
  destruct (eval_instrs tpm p vs) as [r0| | |]; cbn [result_bind]; try done.
  rewrite IH. destruct (eval_branches tpm ps1 vs) as [r1| | |]; cbn [result_bind]; try done.
  destruct (eval_branches tpm ps2 vs) as [r2| | |]; cbn [result_bind]; try done.
  by rewrite app_assoc.
Qed.

(** An [AddProfileOR] of one sub-profile amounts to the instructions of
    the sub-profile in its place. *)
Theorem AddProfileOR_of_one_profile tpm pre post q :
  computed_values (ComputePCRValues tpm (pre ++ [AddProfileORInstr [q]] ++ post))
  = computed_values (ComputePCRValues tpm (pre ++ q ++ post)).
Proof.
  apply ComputePCRValues_context. intros vs. cbn [eval_instrs].
  rewrite eval_instr_branch. cbn [eval_branches].
  destruct (eval_instrs tpm q vs) as [r| | |]; cbn [result_bind]; try done.
  by rewrite app_nil_r.
Qed.

(** A sub-profile that is one [AddProfileOR] with sub-profiles amounts to
    these sub-profiles in its place, among the sub-profiles of the outer
    [AddProfileOR]. *)
Theorem AddProfileOR_nested_flattens tpm pre post ps1 ps2 qs :
  qs ≠ [] →
  computed_values
    (ComputePCRValues tpm
       (pre ++ [AddProfileORInstr (ps1 ++ [AddProfileORInstr qs] :: ps2)] ++ post))
  = computed_values
      (ComputePCRValues tpm (pre ++ [AddProfileORInstr (ps1 ++ qs ++ ps2)] ++ post)).
Proof.
  intros Hqs. apply ComputePCRValues_context. intros vs. cbn [eval_instrs].
  f_equal. rewrite !eval_instr_branch.
  assert (Heq : eval_branches tpm (ps1 ++ [AddProfileORInstr qs] :: ps2) vs
                = eval_branches tpm (ps1 ++ qs ++ ps2) vs).
  { rewrite !eval_branches_app. apply result_bind_ext. intros r1.
    cbn [eval_branches eval_instrs]. rewrite eval_instr_branch.
    destruct qs as [|q qs']; [done|].
    destruct (eval_branches tpm (q :: qs') vs) as [r| | |]; cbn [result_bind]; done. }
  destruct ps1 as [|p1 ps1], qs as [|q qs']; try done.
Qed.

Lemma eval_read_instr tpm i :
  ∀ vs, eval_instr (Some tpm) i vs = eval_instr (Some tpm) (read_instr tpm i) vs.
Proof.
  induction i as [a r d|a r|a r d|ps IH] using instr_nested_ind; intros vs; try done.
  - cbn [read_instr eval_instr read_from_tpm].
    destruct (PCRRead tpm a r) as [err|v] eqn:Hread; cbn [eval_instr read_from_tpm].
    + by rewrite Hread.
    + done.
  - cbn [read_instr]. apply eval_instr_branch_congr. clear vs.
    induction IH as [|p ps Hp _ IHps]; [constructor|].
    cbn [map]. constructor; [|exact IHps].
    apply eval_instrs_congr. clear -Hp.
    induction Hp as [|i p Hi _ IHp]; [constructor|]. cbn [map]. by constructor.
Qed.

Lemma ComputePCRValues_without_reads tpm p :
  uses_tpm p = false → ∃ res, ComputePCRValues tpm p = Val res.
Proof.
  intros Hp. destruct (ComputePCRValues_returns tpm p) as [Hval|[e He]]; [done|].
  unfold ComputePCRValues in He.
  destruct (run_done tpm (profile_size p) (initial p)) as (k & m & Hk & Hstep);
    [by rewrite He|].
  rewrite He in Hstep. apply step_Fail in Hstep as (a & r & it & Hnext & _).
  assert (Hall : Forall (λ q, uses_tpm q = false) (m_iter m)).
  { eapply steps_uses_tpm; [|exact Hk]. simpl. by repeat constructor. }
  unfold next in Hnext. destruct (m_iter m) as [|cur rest]; [done|].
  injection Hnext as Hnext.
  destruct (next_loop_uses_tpm _ _ _ _ Hnext Hall) as [_ Hitem].
  by destruct (Hitem a r).
Qed.

(** With a TPM, an [AddPCRValueFromTPM(alg, pcr)] whose read returns the
    values [v] amounts to [AddPCRValue(alg, pcr, v[alg][pcr])], wherever in
    the profile it is: when the values read hold nothing for the register,
    the paths get the nil digest for it, not an error. When every read of
    the profile returns values, [ComputePCRValues] returns values, the
    ones it returns without TPM for the profile with the values read in
    the place of the reads. *)
Theorem AddPCRValueFromTPM_sets_value_read tpm p :
  computed_values (ComputePCRValues (Some tpm) p)
  = computed_values (ComputePCRValues (Some tpm) (read_profile tpm p))
  ∧ (uses_tpm (read_profile tpm p) = false →
     computed_values (ComputePCRValues (Some tpm) p)
     = computed_values (ComputePCRValues None (read_profile tpm p))
     ∧ ∃ vs, computed_values (ComputePCRValues (Some tpm) p) = Val vs)
  ∧ (∀ a r v, PCRRead tpm a r = inr v →
       read_instr tpm (AddPCRValueFromTPMInstr a r)
       = AddPCRValueInstr a r (default [] (v !! a ≫= λ bank, bank !! r))).
Proof.
  assert (Hread : computed_values (ComputePCRValues (Some tpm) p)
                  = computed_values (ComputePCRValues (Some tpm) (read_profile tpm p))).
  { rewrite !ComputePCRValues_paths. unfold profile_paths, read_profile.
    apply eval_instrs_congr. induction p as [|i p IH]; [constructor|].
    cbn [map]. constructor; [apply eval_read_instr|exact IH]. }
  split_and!; [done| |].
  - intros Hno. rewrite Hread. split.
    + rewrite !ComputePCRValues_paths. unfold profile_paths.
      by apply eval_instrs_no_tpm.
    + destruct (ComputePCRValues_without_reads (Some tpm) _ Hno) as [[l h] Hres].
      exists (view_list h l). by rewrite Hres.
  - intros a r v Hv. cbn [read_instr]. by rewrite Hv.
Qed.

(** ** The paths through a profile *)

Lemma forget_bind {A B} (r : result A) (f : A → result B) :
  forget (result_bind r f) = forget r ≫= λ a, forget (f a).
Proof. by destruct r. Qed.

Lemma forget_mapM_app {A B} (f : A → result B) l1 l2 :
  forget (mapM f (l1 ++ l2))
  = forget (mapM f l1) ≫= λ r1, forget (mapM f l2) ≫= λ r2, Some (r1 ++ r2).
Proof.
  induction l1 as [|a l1 IH]; cbn [app mapM].
  { cbn. by destruct (forget (mapM f l2)). }
  destruct (f a) as [b| | |]; cbn [result_bind forget]; try done.
  rewrite !forget_bind, IH.
  destruct (forget (mapM f l1)) as [r1|]; [|done].
  destruct (forget (mapM f l2)) as [r2|]; done.
Qed.

Lemma forget_mapM_compose {A B C} (f : A → result B) (g : B → result C) xs :
  forget (mapM (λ x, result_bind (f x) g) xs)
  = forget (mapM f xs) ≫= λ ws, forget (mapM g ws).
Proof.
  induction xs as [|x xs IH]; cbn [mapM]; [done|].
  destruct (f x) as [w| | |]; cbn [result_bind forget]; try done.
  destruct (g w) as [c| | |] eqn:Hg; cbn [result_bind].
  - rewrite !forget_bind, IH. destruct (forget (mapM f xs)) as [ws|]; simpl; [|done].
    rewrite Hg. simpl. rewrite forget_bind. by destruct (forget (mapM g ws)).
  - destruct (mapM f xs); simpl; rewrite ?Hg; done.
  - destruct (mapM f xs); simpl; rewrite ?Hg; done.
  - destruct (mapM f xs); simpl; rewrite ?Hg; done.
Qed.

Lemma forget_apply_paths_app tpm C1 C2 vs :
  forget (apply_paths tpm (C1 ++ C2) vs)
  = forget (apply_paths tpm C1 vs) ≫= λ r1,
      forget (apply_paths tpm C2 vs) ≫= λ r2, Some (r1 ++ r2).
Proof.
  induction C1 as [|c C1 IH]; cbn [app apply_paths].
  { cbn. by destruct (forget (apply_paths tpm C2 vs)). }
  rewrite !forget_bind.
  destruct (forget (mapM (seq_apply tpm c) vs)) as [r0|]; cbn [mbind option_bind]; [|done].
  rewrite !forget_bind, IH.
  destruct (forget (apply_paths tpm C1 vs)) as [r1|]; cbn; [|done].
  destruct (forget (apply_paths tpm C2 vs)) as [r2|]; cbn; [|done].
  by rewrite app_assoc.
Qed.

Lemma choices_cons i k :
  choices (i :: k) = b ← choices k; (λ a, a ++ b) <$> choices_instr i.
Proof. done. Qed.

Lemma choices_instr_branch q qs :
  choices_instr (AddProfileORInstr (q :: qs)) = concat (map choices (q :: qs)).
Proof. done. Qed.

Lemma choices_instr_nonempty i : choices_instr i ≠ [].
Proof.
  induction i as [a r d|a r|a r d|ps IH] using instr_nested_ind; try done.
  destruct ps as [|q qs]; [done|]. rewrite choices_instr_branch.
  apply Forall_cons in IH as [Hq _]. cbn [map concat].
  assert (Hne : choices q ≠ []); [|by destruct (choices q)].
  clear -Hq. induction Hq as [|i q Hi _ IHq]; [done|].
  rewrite choices_cons. destruct (choices q) as [|b bs]; [done|].
  cbn. by destruct (choices_instr i).
Qed.

Lemma choices_nonempty k : choices k ≠ [].
Proof.
  induction k as [|i k IH]; [done|]. rewrite choices_cons.
  destruct (choices k) as [|b bs]; [done|].
  pose proof (choices_instr_nonempty i). cbn. by destruct (choices_instr i).
Qed.

Lemma forget_apply_paths_cons tpm c C vs :
  forget (apply_paths tpm (c :: C) vs)
  = forget (mapM (seq_apply tpm c) vs) ≫= λ r1,
      forget (apply_paths tpm C vs) ≫= λ r2, Some (r1 ++ r2).
Proof.
  cbn [apply_paths]. destruct (mapM (seq_apply tpm c) vs); try done.
  cbn [result_bind]. by destruct (apply_paths tpm C vs).
Qed.

(** The paths that go on with [b] after the paths [C]. *)
Lemma forget_apply_paths_then tpm b C vs :
  forget (apply_paths tpm ((λ a, a ++ b) <$> C) vs)
  = forget (apply_paths tpm C vs) ≫= λ ws, forget (mapM (seq_apply tpm b) ws).
Proof.
  induction C as [|c C IH]; [done|].
  assert (Hc : forget (mapM (seq_apply tpm (c ++ b)) vs)
               = forget (mapM (seq_apply tpm c) vs) ≫= λ ws,
                   forget (mapM (seq_apply tpm b) ws)).
  { rewrite <- forget_mapM_compose. f_equal.
    clear. induction vs as [|v vs IHvs]; [done|]. cbn [mapM].
    by rewrite seq_apply_app, IHvs. }
  rewrite fmap_cons, !forget_apply_paths_cons, Hc, IH. clear Hc IH.
  destruct (forget (mapM (seq_apply tpm c) vs)) as [ws1|]; simpl; [|done].
  destruct (forget (apply_paths tpm C vs)) as [ws2|]; simpl.
  - rewrite forget_mapM_app.
    destruct (forget (mapM (seq_apply tpm b) ws1)) as [r1|]; simpl; [|done].
    by destruct (forget (mapM (seq_apply tpm b) ws2)).
  - by destruct (forget (mapM (seq_apply tpm b) ws1)).
Qed.

Lemma forget_eval_cons tpm i k vs :
  vs ≠ [] →
  forget (eval_instr tpm i vs) = forget (apply_paths tpm (choices_instr i) vs) →
  (∀ ws, ws ≠ [] →
     forget (eval_instrs tpm k ws) = forget (apply_paths tpm (choices k) ws)) →
  forget (eval_instrs tpm (i :: k) vs)
  = forget (apply_paths tpm (choices (i :: k)) vs).
Proof.
  intros Hne Hi Hk. cbn [eval_instrs]. rewrite forget_bind, choices_cons.
  destruct (eval_instr tpm i vs) as [ws| | |] eqn:Hws; cbn [forget mbind option_bind] in *.
  - rewrite Hk by (by eapply eval_instr_nonempty). clear Hk.
    induction (choices k) as [|b C IH]; [done|].
    change ((b :: C) ≫= ?f) with (f b ++ (C ≫= f)). cbn beta.
    rewrite forget_apply_paths_app, forget_apply_paths_then, <- Hi.
    rewrite forget_apply_paths_cons, <- IH. simpl.
    destruct (forget (mapM (seq_apply tpm b) ws)); simpl; [|done].
    by destruct (forget (apply_paths tpm C ws)).
  - pose proof (choices_nonempty k) as HC. destruct (choices k) as [|b C]; [done|].
    change ((b :: C) ≫= ?f) with (f b ++ (C ≫= f)). cbn beta.
    by rewrite forget_apply_paths_app, forget_apply_paths_then, <- Hi.
  - pose proof (choices_nonempty k) as HC. destruct (choices k) as [|b C]; [done|].
    change ((b :: C) ≫= ?f) with (f b ++ (C ≫= f)). cbn beta.
    by rewrite forget_apply_paths_app, forget_apply_paths_then, <- Hi.
  - pose proof (choices_nonempty k) as HC. destruct (choices k) as [|b C]; [done|].
    change ((b :: C) ≫= ?f) with (f b ++ (C ≫= f)). cbn beta.
    by rewrite forget_apply_paths_app, forget_apply_paths_then, <- Hi.
Qed.

Lemma mapM_pure {A B} (g : A → B) (l : list A) :
  mapM (λ a, Val (g a)) l = Val (g <$> l).
Proof. induction l as [|a l IH]; [done|]. cbn [mapM result_bind]. by rewrite IH. Qed.

Lemma forget_eval_instr tpm i :
  ∀ vs, vs ≠ [] →
  forget (eval_instr tpm i vs) = forget (apply_paths tpm (choices_instr i) vs).
Proof.
  induction i as [a r d|a r|a r d|ps IH] using instr_nested_ind; intros vs Hne.
  - cbn [choices_instr apply_paths eval_instr seq_apply apply_instr result_bind].
    rewrite (mapM_pure (set_pcr a r d)). cbn. by rewrite app_nil_r.
  - cbn [choices_instr apply_paths eval_instr seq_apply apply_instr].
    destruct (read_from_tpm tpm a r) as [d| | |]; cbn [result_map result_bind];
      try (by destruct vs).
    rewrite (mapM_pure (set_pcr a r d)). cbn. by rewrite app_nil_r.
  - cbn [choices_instr apply_paths eval_instr seq_apply apply_instr result_bind].
    rewrite (mapM_pure (extend_pcr a r d)). cbn. by rewrite app_nil_r.
  - rewrite eval_instr_branch. destruct ps as [|q qs].
    { cbn [choices_instr apply_paths seq_apply]. rewrite (mapM_pure id).
      cbn. by rewrite list_fmap_id, app_nil_r. }
    rewrite choices_instr_branch.
    induction IH as [|p ps Hp _ IHps]; [done|].
    cbn [eval_branches map concat]. rewrite forget_bind, forget_apply_paths_app.
    assert (Hp' : forget (eval_instrs tpm p vs) = forget (apply_paths tpm (choices p) vs)).
    { clear -Hp Hne. revert vs Hne. induction Hp as [|i p Hi _ IHp]; intros vs Hne.
      - cbn [choices apply_paths fold_right seq_apply eval_instrs].
        rewrite (mapM_pure id). cbn. by rewrite list_fmap_id, app_nil_r.
      - apply forget_eval_cons; [done|by apply Hi|exact IHp]. }
    rewrite Hp'. destruct (forget (apply_paths tpm (choices p) vs)); cbn; [|done].
    rewrite forget_bind, IHps.
    by destruct (forget (apply_paths tpm (concat (map choices ps)) vs)).
Qed.

Lemma forget_eval_instrs tpm k :
  ∀ vs, vs ≠ [] →
  forget (eval_instrs tpm k vs) = forget (apply_paths tpm (choices k) vs).
Proof.
  induction k as [|i k IH]; intros vs Hne.
  - cbn [choices apply_paths fold_right seq_apply eval_instrs].
    rewrite (mapM_pure id). cbn. by rewrite list_fmap_id, app_nil_r.
  - apply forget_eval_cons; [done|by apply forget_eval_instr|exact IH].
Qed.

Lemma apply_paths_one tpm C v :
  apply_paths tpm C [v] = mapM (λ path, seq_apply tpm path v) C.
Proof.
  induction C as [|c C IH]; [done|]. cbn [apply_paths mapM]. rewrite IH.
  by destruct (seq_apply tpm c v).
Qed.

Lemma choices_instr_simple i : Forall (λ path, simple path = true) (choices_instr i).
Proof.
  induction i as [a r d|a r|a r d|ps IH] using instr_nested_ind;
    try (by repeat constructor).
  destruct ps as [|q qs]; [by repeat constructor|]. rewrite choices_instr_branch.
  induction IH as [|p ps Hp _ IHps]; [constructor|].
  cbn [map concat]. apply Forall_app. split; [|exact IHps].
  clear -Hp. induction Hp as [|i p Hi _ IHp]; [by repeat constructor|].
  rewrite choices_cons. apply Forall_forall. intros path Hin.
  apply list_elem_of_bind in Hin as (b & Hin & Hb).
  apply list_elem_of_fmap in Hin as (a & -> & Ha).
  rewrite simple_app. apply andb_true_iff. split.
  - by eapply Forall_forall in Hi.
  - by eapply Forall_forall in IHp.
Qed.

(** [ComputePCRValues] returns one set of PCR values for every path
    through the profile, whatever the nesting of the branches: the values
    are those of the branch-free instruction sequences [choices p], each
    applied to the empty set, in the order of [choices p]. It returns an
    error exactly when one of these sequences has a read of the TPM that
    fails. *)
Theorem ComputePCRValues_one_set_per_path tpm p :
  (∀ vs, computed_values (ComputePCRValues tpm p) = Val vs
         ↔ Forall2 (λ path v, seq_apply tpm path ∅ = Val v) (choices p) vs)
  ∧ ((∃ e, computed_values (ComputePCRValues tpm p) = Fail e)
     ↔ ∃ path e, path ∈ choices p ∧ seq_apply tpm path ∅ = Fail e)
  ∧ Forall (λ path, simple path = true) (choices p)
  ∧ choices [] = [[]]
  ∧ (∀ i k, choices (i :: k)
            = b ← choices k; (λ a, a ++ b) <$> choices_instr i)
  ∧ (∀ i, is_branch i = false → choices_instr i = [[i]])
  ∧ choices_instr (AddProfileORInstr []) = [[]]
  ∧ (∀ q qs, choices_instr (AddProfileORInstr (q :: qs))
             = concat (map choices (q :: qs))).
Proof.
  assert (Hforget : forget (computed_values (ComputePCRValues tpm p))
                    = forget (mapM (λ path, seq_apply tpm path ∅) (choices p))).
  { rewrite ComputePCRValues_paths. unfold profile_paths.
    by rewrite forget_eval_instrs, apply_paths_one. }
  assert (Hval : ∀ vs, computed_values (ComputePCRValues tpm p) = Val vs
                       ↔ Forall2 (λ path v, seq_apply tpm path ∅ = Val v) (choices p) vs).
  { intros vs. rewrite <- mapM_Val.
    destruct (computed_values (ComputePCRValues tpm p)),
      (mapM (λ path, seq_apply tpm path ∅) (choices p)); cbn in Hforget;
      split; congruence. }
  split_and!; try done.
  - rewrite ComputePCRValues_paths in *. unfold profile_paths in *.
    destruct (eval_instrs_result tpm p [∅]) as [[vs Hvs]|[e He]].
    + split; [intros [e He]; congruence|]. intros (path & e & Hin & He).
      apply Hval in Hvs. apply list_elem_of_lookup_1 in Hin as [i Hi].
      destruct (Forall2_lookup_l _ _ _ _ _ Hvs Hi) as (v & _ & Hv). congruence.
    + split; [intros _|by eauto].
      rewrite He in Hforget. cbn in Hforget.
      assert (Hex : ∀ C, forget (mapM (λ path, seq_apply tpm path ∅) C) = None →
                         ∃ path e', path ∈ C ∧ seq_apply tpm path ∅ = Fail e').
      { clear. induction C as [|c C IH]; [done|]. cbn [mapM].
        destruct (seq_apply tpm c ∅) as [v|e'| |] eqn:Hc; cbn [result_bind].
        - rewrite forget_bind. destruct (forget (mapM _ C)) eqn:HC; [done|].
          intros _. destruct (IH eq_refl) as (path & e' & Hin & He').
          exists path, e'. split; [by apply list_elem_of_further|done].
        - intros _. exists c, e'. split; [apply list_elem_of_here|done].
        - exfalso. clear -Hc. revert Hc. generalize (∅ : PCRValues).
          induction c as [|i c IHc]; intros V; cbn [seq_apply]; [done|].
          destruct i; cbn [apply_instr result_bind]; try apply IHc.
          unfold read_from_tpm. destruct tpm as [t|]; [|done].
          destruct (PCRRead t alg pcr); cbn; [done|apply IHc].
        - exfalso. clear -Hc. revert Hc. generalize (∅ : PCRValues).
          induction c as [|i c IHc]; intros V; cbn [seq_apply]; [done|].
          destruct i; cbn [apply_instr result_bind]; try apply IHc.
          unfold read_from_tpm. destruct tpm as [t|]; [|done].
          destruct (PCRRead t alg pcr); cbn; [done|apply IHc]. }
      by apply Hex.
  - apply Forall_forall. intros path Hin.
    assert (Hall : ∀ k, Forall (λ path, simple path = true) (choices k)).
    { clear. induction k as [|i k IH]; [by repeat constructor|].
      rewrite choices_cons. apply Forall_forall. intros path Hin.
      apply list_elem_of_bind in Hin as (b & Hin & Hb).
      apply list_elem_of_fmap in Hin as (a & -> & Ha).
      rewrite simple_app. apply andb_true_iff. split.
      - pose proof (choices_instr_simple i) as Hi. by eapply Forall_forall in Hi.
      - by eapply Forall_forall in IH. }
    specialize (Hall p). by eapply Forall_forall in Hall.
  - by intros [].
Qed.

(** ** The digests of particular profiles *)


Lemma unique_digests_app l1 l2 :
  ∀ acc, unique_digests (l1 ++ l2) acc = unique_digests l2 (unique_digests l1 acc).
Proof.
  induction l1 as [|d l1 IH]; intros acc; [done|]. cbn [app unique_digests].
  destruct (existsb _ acc); apply IH.
Qed.

Lemma unique_digests_seen l acc :
  Forall (λ d, d ∈ acc) l → unique_digests l acc = acc.
Proof.
  induction 1 as [|d l Hd _ IH]; [done|]. cbn [unique_digests].
  rewrite existsb_bool_decide, bool_decide_eq_true_2 by done. exact IH.
Qed.

Lemma first_occurrences_app_seen l1 l2 :
  Forall (λ d, d ∈ l1) l2 → first_occurrences (l1 ++ l2) = first_occurrences l1.
Proof.
  intros Hall. rewrite <- !unique_digests_first_occurrences, unique_digests_app.
  apply unique_digests_seen. eapply Forall_impl; [exact Hall|].
  intros d Hd. cbn beta.
  by rewrite unique_digests_first_occurrences, elem_of_first_occurrences.
Qed.

(** A sub-profile added once more as the last sub-profile of the
    [AddProfileOR] that ends a profile changes nothing in what
    [ComputePCRDigests] returns. *)
Theorem ComputePCRDigests_repeated_branch tpm alg pre ps1 q ps2 :
  ComputePCRDigests tpm alg (pre ++ [AddProfileORInstr (ps1 ++ q :: ps2 ++ [q])])
  = ComputePCRDigests tpm alg (pre ++ [AddProfileORInstr (ps1 ++ q :: ps2)]).
Proof.
  unfold ComputePCRDigests. rewrite !ComputePCRValues_paths. unfold profile_paths.
  rewrite !eval_instrs_app.
  destruct (eval_instrs tpm pre [∅]) as [X| | |]; cbn [result_bind eval_instrs]; try done.
  rewrite !eval_instr_branch.
  assert (Hb : ∀ ps, match ps with
                     | [] => Val X
                     | _ :: _ => eval_branches tpm ps X
                     end = if decide (ps = []) then Val X else eval_branches tpm ps X).
  { by intros []. }
  rewrite !Hb, !decide_False by (by destruct ps1). clear Hb.
  replace (ps1 ++ q :: ps2 ++ [q]) with ((ps1 ++ q :: ps2) ++ [q])
    by (by rewrite <- app_assoc).
  rewrite (eval_branches_app tpm (ps1 ++ q :: ps2) [q]).
  assert (Hq : ∀ R, eval_branches tpm (ps1 ++ q :: ps2) X = Val R →
    ∃ Rq, eval_instrs tpm q X = Val Rq ∧ Forall (λ v, v ∈ R) Rq).
  { intros R. rewrite eval_branches_app. cbn [eval_branches].
    destruct (eval_branches tpm ps1 X) as [r1| | |]; cbn [result_bind]; try done.
    destruct (eval_instrs tpm q X) as [Rq| | |]; cbn [result_bind]; try done.
    destruct (eval_branches tpm ps2 X) as [r2| | |]; cbn [result_bind]; try done.
    intros [= <-]. exists Rq. split; [done|]. apply Forall_forall. intros v Hv.
    rewrite !elem_of_app. tauto. }
  destruct (eval_branches tpm (ps1 ++ q :: ps2) X) as [R| | |] eqn:HR;
    cbn [result_bind]; try done.
  destruct (Hq R eq_refl) as (Rq & HRq & Hin). cbn [eval_branches]. rewrite HRq.
  cbn [result_bind]. rewrite app_nil_r.
  destruct R as [|v0 R']; [|cbn [app]].
  { destruct Rq as [|v Rq]; [done|]. apply Forall_cons in Hin as [Hv _].
    by apply not_elem_of_nil in Hv. }
  rewrite !branch_digests_spec. change (v0 :: R' ++ Rq) with ((v0 :: R') ++ Rq).
  assert (Hsame : same_selection (SelectionList v0) ((v0 :: R') ++ Rq)
                  = same_selection (SelectionList v0) (v0 :: R')).
  { unfold same_selection. rewrite forallb_app.
    destruct (forallb _ (v0 :: R')) eqn:Hall; [|done]. cbn [andb].
    apply forallb_forall. intros v Hv. apply list_elem_of_In in Hv.
    eapply Forall_forall in Hin; [|exact Hv].
    eapply forallb_forall in Hall; [exact Hall|]. by apply list_elem_of_In. }
  rewrite Hsame. destruct (same_selection _ (v0 :: R')); cbn [result_bind]; [|done].
  rewrite !app_nil_l, !unique_digests_first_occurrences, fmap_app.
  do 2 f_equal. apply first_occurrences_app_seen.
  apply Forall_forall. intros d Hd. apply list_elem_of_fmap in Hd as (v & -> & Hv).
  apply list_elem_of_fmap. exists v. split; [done|].
  by eapply Forall_forall in Hin.
Qed.

(** ** String *)

Context {FM : Formats}.

Lemma String_reaches_trans k1 k2 s s1 s2 :
  String_reaches k1 s s1 → String_reaches k2 s1 s2 → String_reaches (k1 + k2) s s2.
Proof. intros H1 H2 f. by rewrite <- Nat.add_assoc, H1, H2. Qed.

Lemma String_reaches_turn s s' :
  s_contexts s ≠ [] → String_turn s = Val s' → String_reaches 1 s s'.
Proof.
  intros Hne Hturn f. cbn [Nat.add String_loop].
  destruct (s_contexts s); [done|]. by rewrite Hturn.
Qed.

Lemma instr_text_branch d q qs :
  instr_text d (AddProfileORInstr (q :: qs))
  = Some (Fmt.add_profile_or (d * 3) ++ branches_text (S d) 0 (q :: qs)).
Proof.
  assert (Hlines : ∀ last hdr k,
    (fix lines (hdr : list byte) (k : list pcrProtectionProfileInstr) {struct k}
         : list byte :=
       match k with
       | [] => Fmt.newline ++ hdr ++ branch_close (S d) last
       | j :: k' =>
           match instr_text (S d) j with
           | None => lines hdr k'
           | Some t => Fmt.newline ++ hdr ++ t ++ lines [] k'
           end
       end) hdr k = profile_lines (S d) hdr (branch_close (S d) last) k).
  { intros last hdr k. revert hdr. induction k as [|j k IH]; intros hdr; [done|].
    cbn [profile_lines]. destruct (instr_text (S d) j); by rewrite IH. }
  assert (Hbr : ∀ ps idx,
    (fix branches (idx : nat) (ps : list (list pcrProtectionProfileInstr))
         {struct ps} : list byte :=
       match ps with
       | [] => []
       | p :: ps' =>
           (fix lines (hdr : list byte) (k : list pcrProtectionProfileInstr)
                {struct k} : list byte :=
              match k with
              | [] =>
                  Fmt.newline ++ hdr
                  ++ branch_close (S d) (bool_decide (ps' = []))
              | j :: k' =>
                  match instr_text (S d) j with
                  | None => lines hdr k'
                  | Some t => Fmt.newline ++ hdr ++ t ++ lines [] k'
                  end
              end) (Fmt.branch_start (S d * 3) idx) p
           ++ branches (S idx) ps'
       end) idx ps = branches_text (S d) idx ps).
  { induction ps as [|p ps IH]; intros idx; [done|]. cbn [branches_text].
    by rewrite IH, Hlines. }
  rewrite <- Hbr. reflexivity.
Qed.

(** The turn of an [AddProfileOR] without sub-profiles is the turn of
    what follows it. *)
Lemma String_reaches_skip n k rest cs bs B s' :
  String_reaches n (Stringifier (k :: rest) cs bs B) s' →
  String_reaches n (Stringifier ((AddProfileORInstr [] :: k) :: rest) cs bs B) s'.
Proof.
  intros Hr f. rewrite <- Hr. generalize (n + f). clear. intros [|f]; done.
Qed.

Lemma length_cons_pred {A} (c : A) cs : length (c :: cs) - 1 = length cs.
Proof. cbn [length]. lia. Qed.

Lemma String_turn_end rest c cs bs B :
  String_turn (Stringifier ([] :: rest) (c :: cs) bs B)
  = Val (end_state rest c cs
           (B ++ Fmt.newline
              ++ (if bs then Fmt.branch_start (length cs * 3) (index c) else [])
              ++ end_close c cs)).
Proof.
  unfold String_turn, end_state, end_close.
  cbn [s_contexts s_iter s_branchStart s_b next next_loop result_bind index total].
  rewrite length_cons_pred.
  destruct bs, cs as [|c1 cs]; cbn [length]; repeat case_decide;
    try done; try (exfalso; simpl in *; lia);
    by rewrite ?app_nil_r, <- ?app_assoc.
Qed.

Lemma String_branches qs :
  Forall String_level_ok qs → qs ≠ [] →
  ∀ idx n c cs cur' rest B, idx + length qs = n →
  ∃ k, k ≤ branches_size qs
    ∧ String_reaches k
        (Stringifier (qs ++ cur' :: rest)
           ({| index := idx; total := n |} :: c :: cs) true B)
        (Stringifier (cur' :: rest) (c :: cs) false
           (B ++ branches_text (S (length cs)) idx qs)).
Proof.
  induction 1 as [|q qs Hq _ IH]; [done|]. intros _ idx n c cs cur' rest B Hn.
  destruct (Hq (qs ++ cur' :: rest) {| index := idx; total := n |} (c :: cs) true B)
    as (k1 & Hk1 & Hr1).
  unfold end_state, end_close in Hr1. cbn [index total length] in Hr1.
  cbn [branches_text]. unfold branches_size. cbn [map list_sum].
  destruct qs as [|q' qs'].
  - cbn [length] in Hn. repeat case_decide; try done; try lia.
    exists k1. split; [simpl; lia|].
    cbn [branches_text]. rewrite app_nil_r, bool_decide_eq_true_2 by done.
    unfold branch_close. exact Hr1.
  - cbn [length] in Hn. repeat case_decide; try done; try lia.
    destruct (IH ltac:(done) (S idx) n c cs cur' rest
                (B ++ profile_lines (S (length cs))
                        (Fmt.branch_start (S (length cs) * 3) idx)
                        (Fmt.branch_end (S (length cs) * 3) ++ []) q))
      as (k2 & Hk2 & Hr2); [cbn [length]; lia|].
    exists (k1 + k2). split; [unfold branches_size in Hk2; simpl in *; lia|].
    eapply String_reaches_trans; [exact Hr1|].
    rewrite bool_decide_eq_false_2 by done. unfold branch_close.
    by rewrite app_assoc.
Qed.

Lemma String_level n :
  ∀ cur, list_sum (map instr_size cur) ≤ n → String_level_ok cur.
Proof.
  induction n as [|n IH]; intros cur Hsz.
  { destruct cur as [|i cur].
    - intros rest c cs bs B. exists 1. split; [simpl; lia|].
      apply String_reaches_turn; [done|]. apply String_turn_end.
    - rewrite instrs_size_cons in Hsz. pose proof (instr_size_positive i). lia. }
  destruct cur as [|i cur].
  { intros rest c cs bs B. exists 1. split; [simpl; lia|].
    apply String_reaches_turn; [done|]. apply String_turn_end. }
  rewrite instrs_size_cons in Hsz. pose proof (instr_size_positive i) as Hi.
  assert (Hcur : String_level_ok cur) by (apply IH; lia).
  intros rest c cs bs B. rewrite instrs_size_cons.
  set (hdr := if bs then Fmt.branch_start (length cs * 3) (index c) else []).
  assert (Hsimple : ∀ t,
    instr_size i = 1 → instr_text (length cs) i = Some t →
    String_turn (Stringifier ((i :: cur) :: rest) (c :: cs) bs B)
    = Val (Stringifier (cur :: rest) (c :: cs) false
             ((B ++ Fmt.newline ++ hdr) ++ t)) →
    ∃ k, k ≤ S (instr_size i + list_sum (map instr_size cur))
      ∧ String_reaches k
          (Stringifier ((i :: cur) :: rest) (c :: cs) bs B)
          (end_state rest c cs
             (B ++ profile_lines (length cs) hdr (end_close c cs) (i :: cur)))).
  { intros t Hone Ht Hturn.
    destruct (Hcur rest c cs false ((B ++ Fmt.newline ++ hdr) ++ t)) as (k & Hk & Hr).
    exists (1 + k). split; [lia|].
    eapply String_reaches_trans; [by apply String_reaches_turn|].
    cbn [profile_lines]. rewrite Ht.
    replace (B ++ Fmt.newline ++ hdr ++ t
             ++ profile_lines (length cs) [] (end_close c cs) cur)
      with (((B ++ Fmt.newline ++ hdr) ++ t)
            ++ profile_lines (length cs) [] (end_close c cs) cur)
      by (by rewrite <- !app_assoc).
    exact Hr. }
  assert (Hb2 : (if bs then (B ++ Fmt.newline)
                             ++ Fmt.branch_start ((length (c :: cs) - 1) * 3) (index c)
                 else B ++ Fmt.newline) = B ++ Fmt.newline ++ hdr).
  { unfold hdr. rewrite length_cons_pred.
    destruct bs; by rewrite ?app_nil_r, <- ?app_assoc. }
  destruct i as [a r d|a r|a r d|[|q qs]].
  - apply (Hsimple _ eq_refl eq_refl). unfold String_turn.
    cbn [s_contexts s_iter s_branchStart s_b next next_loop result_bind].
    rewrite Hb2. by rewrite length_cons_pred.
  - apply (Hsimple _ eq_refl eq_refl). unfold String_turn.
    cbn [s_contexts s_iter s_branchStart s_b next next_loop result_bind].
    rewrite Hb2. by rewrite length_cons_pred.
  - apply (Hsimple _ eq_refl eq_refl). unfold String_turn.
    cbn [s_contexts s_iter s_branchStart s_b next next_loop result_bind].
    rewrite Hb2. by rewrite length_cons_pred.
  - destruct (Hcur rest c cs bs B) as (k & Hk & Hr). exists k. split; [lia|].
    apply String_reaches_skip. exact Hr.
  - assert (Hsubs : Forall String_level_ok (q :: qs)).
    { apply Forall_forall. intros p Hp. apply IH.
      cbn [instr_size] in Hsz.
      assert (S (list_sum (map instr_size p))
              ≤ list_sum (map (λ p, S (list_sum (map instr_size p))) (q :: qs))).
      { clear -Hp. induction Hp as [p l|p p' l Hp IHp]; simpl in *; lia. }
      lia. }
    assert (Hturn : String_turn
        (Stringifier ((AddProfileORInstr (q :: qs) :: cur) :: rest) (c :: cs) bs B)
      = Val (Stringifier ((q :: qs) ++ cur :: rest)
               ({| index := 0; total := length (q :: qs) |} :: c :: cs) true
               ((B ++ Fmt.newline ++ hdr) ++ Fmt.add_profile_or (length cs * 3)))).
    { unfold String_turn.
      cbn [s_contexts s_iter s_branchStart s_b next next_loop result_bind].
      rewrite Hb2. by rewrite length_cons_pred. }
    destruct (String_branches _ Hsubs ltac:(done) 0 (length (q :: qs)) c cs cur rest
                ((B ++ Fmt.newline ++ hdr) ++ Fmt.add_profile_or (length cs * 3))
                eq_refl) as (kb & Hkb & Hrb).
    destruct (Hcur rest c cs false
                (((B ++ Fmt.newline ++ hdr) ++ Fmt.add_profile_or (length cs * 3))
                 ++ branches_text (S (length cs)) 0 (q :: qs)))
      as (k & Hk & Hr).
    exists (1 + (kb + k)). split.
    { change (instr_size (AddProfileORInstr (q :: qs)))
        with (S (branches_size (q :: qs))). lia. }
    eapply String_reaches_trans; [by apply String_reaches_turn|].
    eapply String_reaches_trans; [exact Hrb|].
    cbn [profile_lines]. rewrite instr_text_branch.
    replace (B ++ Fmt.newline ++ hdr
             ++ (Fmt.add_profile_or (length cs * 3)
                 ++ branches_text (S (length cs)) 0 (q :: qs))
             ++ profile_lines (length cs) [] (end_close c cs) cur)
      with ((((B ++ Fmt.newline ++ hdr) ++ Fmt.add_profile_or (length cs * 3))
             ++ branches_text (S (length cs)) 0 (q :: qs))
            ++ profile_lines (length cs) [] (end_close c cs) cur)
      by (by rewrite <- !app_assoc).
    exact Hr.
Qed.

Lemma String_text p : PCRProtectionProfile_String p = Val (profile_text p).
Proof.
  destruct (String_level _ p (Nat.le_refl _) [] {| index := 0; total := 1 |} []
              false []) as (k & Hk & Hr).
  unfold PCRProtectionProfile_String, profile_size, String_initial,
    traverseInstructions, descendInToProfiles.
  replace (S (S (list_sum (map instr_size p))))
    with (k + S (S (list_sum (map instr_size p)) - k)) by lia.
  cbn [app]. rewrite Hr. unfold end_state, end_close. cbn [index total length].
  rewrite decide_False by lia. cbn [String_loop s_contexts s_b].
  rewrite decide_True by done. by rewrite decide_False by lia.
Qed.

(** [String] returns, without panic, the text of the profile as it is
    built by recursion on the profile: a new line; then for every
    instruction its text on a line of its own, indented by three spaces for
    each [AddProfileOR] around it; after the line of an [AddProfileOR] with
    sub-profiles, every sub-profile between a line [Branch n {], with its
    number from 0, and a line with the closing brace, and after the last of
    them a line with the closing parenthesis; nothing at all for an
    [AddProfileOR] without sub-profiles; and a last new line. *)
Theorem String_is_profile_text p :
  PCRProtectionProfile_String p = Val (profile_text p)
  ∧ (∀ d hdr close, profile_lines d hdr close [] = Fmt.newline ++ hdr ++ close)
  ∧ (∀ d hdr close i k t, instr_text d i = Some t →
       profile_lines d hdr close (i :: k)
       = Fmt.newline ++ hdr ++ t ++ profile_lines d [] close k)
  ∧ (∀ d hdr close k,
       profile_lines d hdr close (AddProfileORInstr [] :: k)
       = profile_lines d hdr close k)
  ∧ (∀ d q qs,
       instr_text d (AddProfileORInstr (q :: qs))
       = Some (Fmt.add_profile_or (d * 3) ++ branches_text (S d) 0 (q :: qs)))
  ∧ (∀ d idx p ps,
       branches_text d idx (p :: ps)
       = profile_lines d (Fmt.branch_start (d * 3) idx)
           (Fmt.branch_end (d * 3)
            ++ (if bool_decide (ps = []) then Fmt.branches_end ((d - 1) * 3) else []))
           p
         ++ branches_text d (S idx) ps).
Proof.
  split_and!.
  - apply String_text.
  - done.
  - intros d hdr close i k t Ht. cbn [profile_lines]. by rewrite Ht.
  - done.
  - apply instr_text_branch.
  - done.
Qed.

Lemma profile_lines_congr k k' :
  Forall2 (λ i i', ∀ d, instr_text d i = instr_text d i') k k' →
  ∀ d hdr close, profile_lines d hdr close k = profile_lines d hdr close k'.
Proof.
  induction 1 as [|i i' k k' Hi _ IH]; intros d hdr close; [done|].
  cbn [profile_lines]. rewrite Hi. destruct (instr_text d i'); by rewrite IH.
Qed.

Lemma branches_text_congr ps ps' :
  Forall2 (λ p p', ∀ d hdr close,
    profile_lines d hdr close p = profile_lines d hdr close p') ps ps' →
  ∀ d idx, branches_text d idx ps = branches_text d idx ps'.
Proof.
  induction 1 as [|p p' ps ps' Hp Hps IH]; intros d idx; [done|].
  cbn [branches_text]. rewrite Hp, IH. do 3 f_equal.
  apply bool_decide_ext. destruct Hps; done.
Qed.

Lemma profile_lines_skip pre post :
  ∀ d hdr close,
    profile_lines d hdr close (pre ++ AddProfileORInstr [] :: post)
    = profile_lines d hdr close (pre ++ post).
Proof.
  induction pre as [|i pre IH]; intros d hdr close; [done|].
  cbn [app profile_lines]. destruct (instr_text d i); by rewrite IH.
Qed.

Lemma remove_empty_branch_lines n :
  ∀ path p p', length path ≤ n → remove_empty_branch path p = Some p' →
  ∀ d hdr close, profile_lines d hdr close p = profile_lines d hdr close p'.
Proof.
  induction n as [|n IH]; intros path p p' Hlen Hrem d hdr close.
  { destruct path; [done|simpl in Hlen; lia]. }
  destruct path as [|i [|j path']]; [done| |].
  - cbn [remove_empty_branch] in Hrem.
    destruct (p !! i) as [[| | |[|]]|] eqn:Hi; try done. injection Hrem as <-.
    rewrite <- (take_drop_middle p i _ Hi) at 1. rewrite delete_take_drop.
    apply profile_lines_skip.
  - cbn [remove_empty_branch] in Hrem.
    destruct (p !! i) as [[| | |subs]|] eqn:Hi; try done.
    destruct (subs !! j) as [sub|] eqn:Hj; [|done].
    destruct (remove_empty_branch path' sub) as [sub'|] eqn:Hsub; [|done].
    injection Hrem as <-.
    apply profile_lines_congr.
    eapply Forall2_insert_refl; [done|exact Hi|]. intros d'.
    assert (Hbr : ∀ idx, branches_text (S d') idx subs
                         = branches_text (S d') idx (<[j := sub']> subs)).
    { intros idx. apply branches_text_congr.
      eapply Forall2_insert_refl; [done|exact Hj|].
      eapply IH; [|exact Hsub]. simpl in Hlen. lia. }
    destruct subs as [|q qs]; [done|].
    destruct (<[j := sub']> (q :: qs)) as [|q' qs'] eqn:Hins.
    { apply (f_equal length) in Hins. by rewrite length_insert in Hins. }
    rewrite !instr_text_branch. do 2 f_equal. apply Hbr.
Qed.

(** [String] writes nothing for an [AddProfileOR] without sub-profiles:
    the text of the profile without that instruction is the same, wherever
    in the profile the instruction is. *)
Theorem String_skips_empty_branch path p p' :
  remove_empty_branch path p = Some p' →
  PCRProtectionProfile_String p = PCRProtectionProfile_String p'.
Proof.
  intros Hrem.
  rewrite (String_text p), (String_text p').
  f_equal. unfold profile_text. by eapply remove_empty_branch_lines.
Qed.

(** ** The sizes of the digests *)

Lemma sized_values_set a r d (v : PCRValues) :
  length d = alg_size a → sized_values v → sized_values (set_pcr a r d v).
Proof.
  intros Hd Hv a' r' d'. destruct (decide ((a', r') = (a, r))) as [[= -> ->]|Hne].
  - rewrite pcr_lookup_set_pcr. by intros [= <-].
  - rewrite pcr_lookup_set_pcr_ne by done. apply Hv.
Qed.

Lemma eval_instr_sized tpm i :
  (∀ a data, length (alg_hash a data) = alg_size a) →
  (∀ a r d, read_from_tpm tpm a r = Val d → length d = alg_size a) →
  sized_instr i = true →
  ∀ vs ws, Forall sized_values vs → eval_instr tpm i vs = Val ws →
  Forall sized_values ws.
Proof.
  intros Hhash Hread.
  induction i as [a r d|a r|a r d|ps IH] using instr_nested_ind;
    intros Hi vs ws Hvs.
  - intros [= <-]. apply Forall_fmap. eapply Forall_impl; [exact Hvs|].
    intros v Hv. apply sized_values_set; [|done].
    by apply bool_decide_eq_true in Hi.
  - cbn [eval_instr]. destruct (read_from_tpm tpm a r) as [d| | |] eqn:Hd; try done.
    intros [= <-]. apply Forall_fmap. eapply Forall_impl; [exact Hvs|].
    intros v Hv. apply sized_values_set; [|done]. by eapply Hread.
  - intros [= <-]. apply Forall_fmap. eapply Forall_impl; [exact Hvs|].
    intros v Hv. apply sized_values_set; [|done]. apply Hhash.
  - rewrite eval_instr_branch. destruct ps as [|q qs]; [by intros [= <-]|].
    cbn [sized_instr] in Hi. revert ws.
    induction IH as [|p ps Hp _ IHps]; intros ws; [by intros [= <-]|].
    cbn [forallb] in Hi. apply andb_true_iff in Hi as [Hpi Hpsi].
    cbn [eval_branches].
    destruct (eval_instrs tpm p vs) as [r1| | |] eqn:Hr1; try done.
    cbn [result_bind].
    destruct (eval_branches tpm ps vs) as [r2| | |] eqn:Hr2; try done.
    intros [= <-]. apply Forall_app. split; [|by apply IHps].
    clear -Hp Hpi Hvs Hr1. revert vs r1 Hvs Hr1.
    induction Hp as [|i p Hi _ IHp]; intros vs r1 Hvs; cbn [eval_instrs].
    { by intros [= <-]. }
    cbn [forallb] in Hpi. apply andb_true_iff in Hpi as [Hii Hpi].
    destruct (eval_instr tpm i vs) as [ws1| | |] eqn:Hws1; try done.
    cbn [result_bind]. apply IHp; [done|]. by eapply Hi.
Qed.

(** The builders keep the digests of a profile at the sizes of their
    algorithms: [AddPCRValue] and [ExtendPCR] panic exactly when the digest
    has another size, and add one instruction otherwise. With a hash that
    returns digests of the size of the algorithm, and a TPM that does so
    too, every digest of the values [ComputePCRValues] returns for such a
    profile has the size of the algorithm of its bank. *)
Theorem digests_have_the_size_of_their_algorithm tpm p vs :
  (∀ a data, length (alg_hash a data) = alg_size a) →
  (∀ a r d, read_from_tpm tpm a r = Val d → length d = alg_size a) →
  sized p = true →
  computed_values (ComputePCRValues tpm p) = Val vs →
  Forall sized_values vs
  ∧ sized NewPCRProtectionProfile = true
  ∧ (∀ a r d,
       if decide (length d = alg_size a)
       then AddPCRValue p a r d = Val (p ++ [AddPCRValueInstr a r d])
            ∧ sized (p ++ [AddPCRValueInstr a r d]) = true
       else AddPCRValue p a r d = Panic PanicInvalidDigestLength)
  ∧ (∀ a r d,
       if decide (length d = alg_size a)
       then ExtendPCR p a r d = Val (p ++ [ExtendPCRInstr a r d])
            ∧ sized (p ++ [ExtendPCRInstr a r d]) = true
       else ExtendPCR p a r d = Panic PanicInvalidDigestLength)
  ∧ (∀ a r, AddPCRValueFromTPM p a r = Val (p ++ [AddPCRValueFromTPMInstr a r])
            ∧ sized (p ++ [AddPCRValueFromTPMInstr a r]) = true)
  ∧ (∀ subs, forallb sized subs = true →
       AddProfileOR p subs = Val (p ++ [AddProfileORInstr subs])
       ∧ sized (p ++ [AddProfileORInstr subs]) = true).
Proof.
  intros Hhash Hread Hp Hvs.
  assert (Happ : ∀ i, sized_instr i = true → sized (p ++ [i]) = true).
  { intros i Hi. unfold sized in *. rewrite forallb_app, Hp. cbn. by rewrite Hi. }
  split_and!.
  - rewrite ComputePCRValues_paths in Hvs. unfold profile_paths in Hvs.
    assert (Hall : ∀ k us ws, forallb sized_instr k = true →
      Forall sized_values us → eval_instrs tpm k us = Val ws → Forall sized_values ws).
    { clear -Hhash Hread. induction k as [|i k IH]; intros us ws Hk Hus;
        cbn [eval_instrs]; [by intros [= <-]|].
      cbn [forallb] in Hk. apply andb_true_iff in Hk as [Hi Hk].
      destruct (eval_instr tpm i us) as [ws1| | |] eqn:Hws1; try done.
      cbn [result_bind]. apply IH; [done|]. by eapply eval_instr_sized. }
    eapply Hall; [exact Hp| |exact Hvs].
    constructor; [|constructor]. intros a r d. unfold pcr_lookup.
    by rewrite lookup_empty.
  - done.
  - intros a r d. unfold AddPCRValue. destruct (decide (length d = alg_size a)) as [Hd|Hd].
    + rewrite decide_False by tauto. split; [done|]. apply Happ.
      by apply bool_decide_eq_true.
    + by rewrite decide_True.
  - intros a r d. unfold ExtendPCR. destruct (decide (length d = alg_size a)) as [Hd|Hd].
    + rewrite decide_False by tauto. split; [done|]. apply Happ.
      by apply bool_decide_eq_true.
    + by rewrite decide_True.
  - intros a r. split; [done|]. by apply Happ.
  - intros subs Hsubs. split; [done|]. by apply Happ.
Qed.

End Correctness.

(** * The theorems on the test profiles *)

(** [example_profile], with its one branch of two sub-profiles. *)
Lemma C1_one_branch_profile_witness :
  simple example_pre = true ∧ forallb simple example_subs = true
  ∧ simple example_post = true ∧ 0 < length example_subs
  ∧ (∀ vs,
       computed_values (ComputePCRValues (HP:=toy_provider) None example_profile)
         = Val vs
       ↔ Forall2 (λ sub v, seq_apply (HP:=toy_provider) None
                              (example_pre ++ sub ++ example_post) ∅ = Val v)
           example_subs vs).
Proof.
  split_and!; [reflexivity|reflexivity|reflexivity|simpl; lia|].
  apply (@C1_one_branch_profile toy_provider None example_pre example_subs
           example_post); [reflexivity|reflexivity|reflexivity|simpl; lia].
Defined.

(** [example_simple], without branches. *)
Lemma C2_branch_free_profile_witness :
  simple example_simple = true
  ∧ computed_values (ComputePCRValues (HP:=toy_provider) None example_simple)
    = result_map (λ v, [v]) (seq_apply (HP:=toy_provider) None example_simple ∅).
Proof.
  split; [reflexivity|].
  apply (@C2_branch_free_profile toy_provider None example_simple). reflexivity.
Defined.

(** The turn of the [AddProfileOR] of [example_profile]. *)
Lemma C3_branch_copies_do_not_alias_witness :
  steps (HP:=toy_provider) 1 None (initial example_profile)
    = Continue example_branch_state
  ∧ next (m_iter example_branch_state)
    = Val (Instr (AddProfileORInstr example_subs), example_subs ++ [example_post])
  ∧ ∃ c s kids cs' h',
      m_contexts example_branch_state = c :: s
      ∧ step (HP:=toy_provider) None example_branch_state
        = Continue (Machine (example_subs ++ [example_post]) (kids ++ c :: s) cs' h')
      ∧ length kids = length example_subs
      ∧ values (cs' !!! c) = []
      ∧ heap_wf h'.
Proof.
  split; [vm_compute; reflexivity|]. split; [reflexivity|].
  destruct (@C3_branch_copies_do_not_alias toy_provider None example_profile 1
              example_branch_state example_subs (example_subs ++ [example_post]))
    as (c & s & kids & cs' & h' & Hs & Hstep & _ & Hlen & Hvals & Hwf & _).
  - vm_compute. reflexivity.
  - reflexivity.
  - exists c, s, kids, cs', h'.
    exact (conj Hs (conj Hstep (conj Hlen (conj Hvals Hwf)))).
Defined.

(** The three paths of [example_duplicates] have two digests. *)
Lemma C7_digests_without_duplicates_witness :
  ComputePCRDigests (HP:=toy_provider) None sha256 example_duplicates
    = Val ([{| Hash := sha256; Select := [7%Z] |}],
           [toy_hash sha256 digest_a; toy_hash sha256 digest_b])
  ∧ ∃ vs,
      computed_values (ComputePCRValues (HP:=toy_provider) None example_duplicates)
        = Val vs
      ∧ [toy_hash sha256 digest_a; toy_hash sha256 digest_b]
        = first_occurrences
            (ComputePCRDigest (HP:=toy_provider) sha256
               [{| Hash := sha256; Select := [7%Z] |}] <$> vs).
Proof.
  split; [vm_compute; reflexivity|].
  destruct (@C7_digests_without_duplicates toy_provider None sha256
              example_duplicates [{| Hash := sha256; Select := [7%Z] |}]
              [toy_hash sha256 digest_a; toy_hash sha256 digest_b])
    as (vs & Hvs & _ & Hds & _).
  - vm_compute. reflexivity.
  - exists vs. split; assumption.
Defined.

(** Extending register 8 after [example_pre], which only sets register 7. *)
Lemma C8_extend_without_prior_value_witness :
  length digest_b = alg_size (HashProvider:=toy_provider) sha256
  ∧ computed_values (ComputePCRValues (HP:=toy_provider) None example_pre)
    = Val [{[ sha256 := {[ 7%Z := digest_a ]} ]}]
  ∧ ∃ p1 p2 vs1 vs2,
      ExtendPCR (HP:=toy_provider) example_pre sha256 8 digest_b = Val p1
      ∧ AddPCRValue (HP:=toy_provider) example_pre sha256 8
          (toy_hash sha256 (replicate 2 x00 ++ digest_b)) = Val p2
      ∧ computed_values (ComputePCRValues (HP:=toy_provider) None p1) = Val vs1
      ∧ computed_values (ComputePCRValues (HP:=toy_provider) None p2) = Val vs2
      ∧ vs1 !! 0 = vs2 !! 0.
Proof.
  split; [reflexivity|]. split; [vm_compute; reflexivity|].
  destruct (@C8_extend_without_prior_value toy_provider None example_pre sha256 8
              digest_b [{[ sha256 := {[ 7%Z := digest_a ]} ]}])
    as (p1 & p2 & vs1 & vs2 & H1 & H2 & H3 & H4 & _ & _ & Hpaths).
  - reflexivity.
  - reflexivity.
  - vm_compute. reflexivity.
  - exists p1, p2, vs1, vs2. repeat split; try assumption.
    apply (Hpaths 0 {[ sha256 := {[ 7%Z := digest_a ]} ]}); reflexivity.
Defined.

(** [example_from_tpm] without a TPM, and with a TPM whose reads fail. *)
Lemma C9_tpm_read_failure_witness :
  steps (HP:=toy_provider) 1 None (initial example_from_tpm)
    = Continue example_from_tpm_state
  ∧ next (m_iter example_from_tpm_state)
    = Val (Instr (AddPCRValueFromTPMInstr sha256 7), [[]])
  ∧ ComputePCRValues (HP:=toy_provider) None example_from_tpm
    = Fail (ErrNoTPMContext 7 sha256)
  ∧ ComputePCRValues (HP:=toy_provider) (Some failing_tpm) example_from_tpm
    = Fail (ErrPCRRead 7 sha256 1).
Proof.
  split; [vm_compute; reflexivity|]. split; [reflexivity|]. split.
  - apply (@C9_tpm_read_failure toy_provider None example_from_tpm 1
             example_from_tpm_state sha256 7 [[]] (ErrNoTPMContext 7 sha256)).
    + vm_compute. reflexivity.
    + reflexivity.
    + left. split; reflexivity.
  - apply (@C9_tpm_read_failure toy_provider (Some failing_tpm) example_from_tpm 1
             example_from_tpm_state sha256 7 [[]] (ErrPCRRead 7 sha256 1)).
    + vm_compute. reflexivity.
    + reflexivity.
    + right. exists failing_tpm, 1%Z. repeat split; reflexivity.
Defined.

(** [example_empty_branches] without its second instruction. *)
Lemma C5_empty_branch_skipped_witness :
  remove_empty_branch [1] example_empty_branches
    = Some (delete 1 example_empty_branches)
  ∧ computed_values (ComputePCRValues (HP:=toy_provider) None example_empty_branches)
    = computed_values
        (ComputePCRValues (HP:=toy_provider) None (delete 1 example_empty_branches)).
Proof.
  split; [reflexivity|].
  apply (proj2 (proj2 (@C5_empty_branch_skipped toy_provider)) None [1]).
  reflexivity.
Defined.


(** [example_profile] does not read the TPM. *)
Lemma C10_no_tpm_read_no_error_witness :
  uses_tpm example_profile = false
  ∧ ∃ res, ComputePCRValues (HP:=toy_provider) None example_profile = Val res.
Proof.
  split; [reflexivity|].
  destruct (proj1 (@C10_no_tpm_read_no_error toy_provider None example_profile)
              eq_refl) as (_ & Hres & _).
  exact Hres.
Defined.

(** The paths of the test profiles, and the digests, as computed. *)
Example example_profile_values :
  computed_values (ComputePCRValues (HP:=toy_provider) None example_profile)
  = Val [ {[ sha256 := {[ 7%Z := toy_hash sha256 (digest_a ++ digest_b);
                           12%Z := toy_hash sha256 (replicate 2 x00 ++ digest_a) ]} ]};
          {[ sha256 := {[ 7%Z := digest_a; 8%Z := digest_b;
                           12%Z := toy_hash sha256 (replicate 2 x00 ++ digest_a) ]} ]} ].
Proof. vm_compute. reflexivity. Qed.

Example example_uneven_digests :
  ComputePCRDigests (HP:=toy_provider) None sha256 example_uneven
  = Fail ErrBranchPCRsDiffer.
Proof. vm_compute. reflexivity. Qed.

Example example_empty_branches_values :
  remove_empty_branch [2; 0; 1] example_empty_branches
  = Some [AddPCRValueInstr sha256 7 digest_a;
          AddProfileORInstr [];
          AddProfileORInstr [[ExtendPCRInstr sha256 7 digest_b];
                             [AddPCRValueInstr sha256 7 digest_b]]]
  ∧ computed_values (ComputePCRValues (HP:=toy_provider) None example_empty_branches)
    = Val [ {[ sha256 := {[ 7%Z := toy_hash sha256 (digest_a ++ digest_b) ]} ]};
            {[ sha256 := {[ 7%Z := digest_b ]} ]} ].
Proof. split; vm_compute; reflexivity. Qed.

(** C4, as claimed, fails on the code: the iterator of the empty profile
    holds the outermost level only, without instructions, and [next]
    returns the end of branch for it; so does the iterator of a profile of
    one instruction after that instruction; in that turn
    [ComputePCRValues] returns, and a further call of [next] would
    panic. *)
Lemma C4_root_level_counterexample :
  traverseInstructions [] = [[]]
  ∧ next (traverseInstructions []) = Val (EndProfileInstr, [])
  ∧ steps (HP:=toy_provider) 1 None (initial example_pre)
    = Continue example_root_end_state
  ∧ m_iter example_root_end_state = [[]]
  ∧ next (m_iter example_root_end_state) = Val (EndProfileInstr, [])
  ∧ step (HP:=toy_provider) None example_root_end_state
    = Done (Val ([0], m_heap example_root_end_state))
  ∧ next [] = Panic PanicNoMoreInstructions.
Proof. split_and!; vm_compute; reflexivity. Qed.

(** [example_heap] is well formed. *)
Lemma example_heap_wf : heap_wf example_heap.
Proof.
  split.
  - intros v a i. unfold bank_ref.
    destruct v as [|[|v]]; simpl; [| |done].
    + intros [_ <-]%lookup_singleton_Some. simpl. lia.
    + intros [_ <-]%lookup_singleton_Some. simpl. lia.
  - intros v1 v2 a1 a2 i. unfold bank_ref.
    destruct v1 as [|[|v1]], v2 as [|[|v2]]; simpl; try done;
      intros [Ha1 <-]%lookup_singleton_Some [Ha2 Hi]%lookup_singleton_Some;
      try discriminate Hi; split; congruence.
Qed.

(** Register 8 set in both objects of [example_heap]. *)
Lemma setValue_sets_every_object_witness :
  Forall (λ v, v < length (outer_maps example_heap)) [0; 1]
  ∧ view (setValue [0; 1] sha256 8 digest_b example_heap) 0
    = {[ sha256 := {[ 7%Z := digest_a; 8%Z := digest_b ]} ]}
  ∧ pcr_lookup (view (setValue [0; 1] sha256 8 digest_b example_heap) 1) sha256 8
    = Some digest_b.
Proof.
  split; [repeat constructor|]. split; [vm_compute; reflexivity|].
  destruct (setValue_sets_every_object [0; 1] sha256 8 digest_b example_heap
              example_heap_wf) as (_ & _ & Hset & _).
  - repeat constructor.
  - apply (Hset 1). apply list_elem_of_further, list_elem_of_here.
Defined.


(** The copy of the two objects of [example_heap]. *)
Lemma copy_is_deep_witness :
  copy [0; 1] example_heap
  = ([2; 3],
     {| outer_maps := [{[ sha256 := 0 ]}; {[ sha256 := 1 ]};
                       {[ sha256 := 2 ]}; {[ sha256 := 3 ]}];
        inner_maps := [{[ 7%Z := digest_a ]};
                       {[ 7%Z := digest_b; 8%Z := digest_a ]};
                       {[ 7%Z := digest_a ]};
                       {[ 7%Z := digest_b; 8%Z := digest_a ]}] |})
  ∧ ∃ l' h', copy [0; 1] example_heap = (l', h')
      ∧ view_list h' l' = view_list example_heap [0; 1]
      ∧ NoDup l'.
Proof.
  split; [vm_compute; reflexivity|].
  destruct (copy_is_deep [0; 1] example_heap example_heap_wf)
    as (l' & h' & Hcopy & _ & Hview & Hnd & _).
  - repeat constructor.
  - exists l', h'. split; [exact Hcopy|]. split; [exact Hview|exact Hnd].
Defined.

(** Register 8 set and register 7 extended in [example_heap]. *)
Lemma writes_to_different_registers_commute_witness :
  written_register (AddPCRValueInstr sha256 8 digest_b) = Some (sha256, 8%Z)
  ∧ written_register (ExtendPCRInstr sha256 7 digest_a) = Some (sha256, 7%Z)
  ∧ computed_values
      (ComputePCRValues (HP:=toy_provider) None
         (example_pre ++ [AddPCRValueInstr sha256 8 digest_b;
                          ExtendPCRInstr sha256 7 digest_a] ++ example_post))
    = computed_values
        (ComputePCRValues (HP:=toy_provider) None
           (example_pre ++ [ExtendPCRInstr sha256 7 digest_a;
                            AddPCRValueInstr sha256 8 digest_b] ++ example_post)).
Proof.
  split; [reflexivity|]. split; [reflexivity|].
  apply (@writes_to_different_registers_commute toy_provider None example_pre
           example_post _ _ (sha256, 8%Z) (sha256, 7%Z)).
  - reflexivity.
  - reflexivity.
  - intros Heq. discriminate Heq.
Defined.

(** A sub-profile of [example_profile] that is the branch of
    [example_subs]. *)
Lemma AddProfileOR_nested_flattens_witness :
  example_subs ≠ []
  ∧ computed_values
      (ComputePCRValues (HP:=toy_provider) None
         (example_pre
          ++ [AddProfileORInstr
                ([example_post] ++ [AddProfileORInstr example_subs] :: [example_pre])]
          ++ example_post))
    = computed_values
        (ComputePCRValues (HP:=toy_provider) None
           (example_pre
            ++ [AddProfileORInstr ([example_post] ++ example_subs ++ [example_pre])]
            ++ example_post)).
Proof.
  assert (Hne : example_subs ≠ []) by (intros Heq; discriminate Heq).
  split; [exact Hne|].
  apply (@AddProfileOR_nested_flattens toy_provider None example_pre example_post
           [example_post] [example_pre] example_subs Hne).
Defined.

(** [example_reads] with [example_tpm]: register 7 has a value, register 8
    has none. *)
Lemma AddPCRValueFromTPM_sets_value_read_witness :
  read_profile example_tpm example_reads
  = [AddPCRValueInstr sha256 7 digest_b;
     AddProfileORInstr [[AddPCRValueInstr sha256 8 []];
                        [ExtendPCRInstr sha256 7 digest_a]]]
  ∧ uses_tpm (read_profile example_tpm example_reads) = false
  ∧ computed_values (ComputePCRValues (HP:=toy_provider) (Some example_tpm) example_reads)
    = computed_values
        (ComputePCRValues (HP:=toy_provider) None
           (read_profile example_tpm example_reads))
  ∧ computed_values (ComputePCRValues (HP:=toy_provider) (Some example_tpm) example_reads)
    = Val [ {[ sha256 := {[ 7%Z := digest_b; 8%Z := [] ]} ]};
            {[ sha256 := {[ 7%Z := toy_hash sha256 (digest_b ++ digest_a) ]} ]} ].
Proof.
  split; [reflexivity|]. split; [reflexivity|]. split; [|vm_compute; reflexivity].
  apply (proj1 (proj2 (@AddPCRValueFromTPM_sets_value_read toy_provider example_tpm
                         example_reads))).
  reflexivity.
Defined.

(** The four paths of [example_two_branches], in the order of their
    values. *)
Lemma ComputePCRValues_one_set_per_path_witness :
  choices example_two_branches
  = [[AddPCRValueInstr sha256 7 digest_a; AddPCRValueInstr sha256 8 digest_a];
     [AddPCRValueInstr sha256 7 digest_b; AddPCRValueInstr sha256 8 digest_a];
     [AddPCRValueInstr sha256 7 digest_a; AddPCRValueInstr sha256 8 digest_b];
     [AddPCRValueInstr sha256 7 digest_b; AddPCRValueInstr sha256 8 digest_b]]
  ∧ computed_values (ComputePCRValues (HP:=toy_provider) None example_two_branches)
    = Val [ {[ sha256 := {[ 7%Z := digest_a; 8%Z := digest_a ]} ]};
            {[ sha256 := {[ 7%Z := digest_b; 8%Z := digest_a ]} ]};
            {[ sha256 := {[ 7%Z := digest_a; 8%Z := digest_b ]} ]};
            {[ sha256 := {[ 7%Z := digest_b; 8%Z := digest_b ]} ]} ].
Proof.
  split; [reflexivity|].
  apply (proj1 (@ComputePCRValues_one_set_per_path toy_provider None
                  example_two_branches)).
  repeat constructor.
Defined.


(** The text of [example_profile]. *)
Example example_profile_String :
  PCRProtectionProfile_String (FM:=example_formats) example_profile
  = Val example_profile_text.
Proof. vm_compute. reflexivity. Qed.

(** [example_empty_branches] without the empty branch nested in its first
    sub-profile. *)
Lemma String_skips_empty_branch_witness :
  remove_empty_branch [2; 0; 1] example_empty_branches
  = Some [AddPCRValueInstr sha256 7 digest_a;
          AddProfileORInstr [];
          AddProfileORInstr [[ExtendPCRInstr sha256 7 digest_b];
                             [AddPCRValueInstr sha256 7 digest_b]]]
  ∧ PCRProtectionProfile_String (FM:=example_formats) example_empty_branches
    = PCRProtectionProfile_String (FM:=example_formats)
        [AddPCRValueInstr sha256 7 digest_a;
         AddProfileORInstr [];
         AddProfileORInstr [[ExtendPCRInstr sha256 7 digest_b];
                            [AddPCRValueInstr sha256 7 digest_b]]].
Proof.
  split; [reflexivity|].
  apply (@String_skips_empty_branch example_formats [2; 0; 1]). reflexivity.
Defined.

(** The digests of [example_profile] have two bytes, as the test hash. *)
Lemma digests_have_the_size_of_their_algorithm_witness :
  sized (HP:=toy_provider) example_profile = true
  ∧ ∃ vs, computed_values (ComputePCRValues (HP:=toy_provider) None example_profile)
          = Val vs
      ∧ Forall (sized_values (HP:=toy_provider)) vs.
Proof.
  split; [reflexivity|].
  eexists. split; [vm_compute; reflexivity|].
  apply (@digests_have_the_size_of_their_algorithm toy_provider None example_profile).
  - intros a data. reflexivity.
  - intros a r d Hd. discriminate Hd.
  - reflexivity.
  - vm_compute. reflexivity.
Defined.

(** The two objects returned for [example_profile]. *)
Lemma ComputePCRValues_result_not_aliased_witness :
  ∃ l h, ComputePCRValues (HP:=toy_provider) None example_profile = Val (l, h)
    ∧ NoDup l ∧ heap_wf h.
Proof.
  eexists _, _. split; [vm_compute; reflexivity|].
  match goal with
  | |- NoDup ?l ∧ heap_wf ?h =>
      destruct (@ComputePCRValues_result_not_aliased toy_provider None
                  example_profile l h) as (Hnd & _ & Hwf & _)
  end.
  - vm_compute. reflexivity.
  - exact (conj Hnd Hwf).
Defined.
